(** * A shallow embedding of the network-simulation core

    The development follows the JavaScript sources module by module:

    - [routing.js]      : station graph, edge and transfer times, the ETA table;
    - [trains.js]       : vehicle motion, arrival handling, fleet allocation;
    - [passengers.js]   : spawning, the overcrowding / timeout sweep, boarding;
    - [lines_final.js]  : line creation and waypoint rebuilding;
    - [hexgrid.js]      : the hexagonal lattice router.

    JavaScript numbers are modelled by exact arithmetic: rationals ([Q]) in the
    simulation part, where every operation of the source is rational except
    [Math.hypot], and reals ([R]) in the lattice router, whose coordinates
    involve the square root of 3.  [Infinity] is a separate constructor. *)

From Stdlib Require Import ZArith QArith Qround Qabs Qminmax Reals Psatz Lia List String Bool.
From stdpp Require Import base option list gmap strings.

(** ** JavaScript numbers: rationals *)

Module JSNum.

Local Open Scope Q_scope.

(** A number that may be [Infinity] (the ETA table holds such values). *)
Inductive num : Type :=
| Fin (q : Q)
| Infinity.

Definition Qltb (a b : Q) : bool := negb (Qle_bool b a).
Definition Qleb (a b : Q) : bool := Qle_bool a b.

(** [a + b] on possibly infinite numbers (no negative infinity occurs). *)
Definition nadd (a b : num) : num :=
  match a, b with
  | Fin x, Fin y => Fin (x + y)
  | _, _ => Infinity
  end.

(** [a < b]. *)
Definition nltb (a b : num) : bool :=
  match a, b with
  | Fin x, Fin y => Qltb x y
  | Fin _, Infinity => true
  | Infinity, _ => false
  end.

Definition isFinite (a : num) : bool :=
  match a with Fin _ => true | Infinity => false end.

(** Order and equality on [num], as propositions. *)
Definition nle (a b : num) : Prop :=
  match a, b with
  | Fin x, Fin y => x <= y
  | _, Infinity => True
  | Infinity, Fin _ => False
  end.

Definition neq (a b : num) : Prop :=
  match a, b with
  | Fin x, Fin y => x == y
  | Infinity, Infinity => True
  | _, _ => False
  end.

(** [v || d] on an optional number: [undefined] and [0] are falsy. *)
Definition or_default (v : option Q) (d : Q) : Q :=
  match v with
  | Some q => if Qeq_bool q 0 then d else q
  | None => d
  end.

(** [v ?? d]: only [undefined] / [null] select the default. *)
Definition nullish (v : option Q) (d : Q) : Q :=
  match v with Some q => q | None => d end.

(** [Math.round] and [Math.floor]. *)
Definition Math_round (q : Q) : Z := Qfloor (q + (1 # 2)).
Definition Math_floor (q : Q) : Z := Qfloor q.
Definition Math_ceil (q : Q) : Z := Qceiling q.

End JSNum.
Export JSNum.

(** ** The world state (simulation part)

    One record per JavaScript object; fields keep the names of the source.
    Rendering-only attributes (radius, shape, opacity, pop-ups, ...) are left
    out: no operation below reads them.  An array index that is out of range
    reads as [None], the model of [undefined]. *)

Module Passenger.
Record t : Type := mk {
    id : Q;                       (* the random draw the identifier comes from *)
    destStation : nat;
    spawnTime : Q;
    waitTime : Q;
    originStation : option nat;
    transferReadyAt : option Q;
    transferCount : option nat;
    isVIP : bool;
    pointMultiplier : option Q
  }.
Definition with_transfer (ready : Q) (count : nat) (p : t) : t :=
    mk (id p) (destStation p) (spawnTime p) (waitTime p) (originStation p)
       (Some ready) (Some count) (isVIP p) (pointMultiplier p).
End Passenger.

Module Station.
Record t : Type := mk {
    id : nat;
    name : string;
    x : Q;
    y : Q;
    isFinal : bool;
    isInterchange : bool;
    mctMs : option Q;
    turnaroundMs : option Q;
    queue : list Passenger.t;
    connections : list nat;
    overflowTimer : Q;
    isOvercrowded : bool
  }.
Definition with_queue (q : list Passenger.t) (s : t) : t :=
    mk (id s) (name s) (x s) (y s) (isFinal s) (isInterchange s) (mctMs s)
       (turnaroundMs s) q (connections s) (overflowTimer s) (isOvercrowded s).
Definition with_connections (c : list nat) (s : t) : t :=
    mk (id s) (name s) (x s) (y s) (isFinal s) (isInterchange s) (mctMs s)
       (turnaroundMs s) (queue s) c (overflowTimer s) (isOvercrowded s).
End Station.

Module Line.
Record t : Type := mk {
    id : nat;
    stations : list nat;
    colorIndex : Z;
    isLoop : bool;
    trains : list nat;
    waypoints : option (list (Q * Q));
    totalLength : Q
  }.
Definition with_trains (ts : list nat) (l : t) : t :=
    mk (id l) (stations l) (colorIndex l) (isLoop l) ts (waypoints l) (totalLength l).
Definition with_totalLength (len : Q) (l : t) : t :=
    mk (id l) (stations l) (colorIndex l) (isLoop l) (trains l) (waypoints l) len.
End Line.

Module Train.
Record t : Type := mk {
    id : nat;
    lineId : nat;
    position : Q;
    direction : Z;
    passengers : list Passenger.t;
    capacity : Z;
    speed : Q;
    lastStationVisited : Z;
    stationCooldown : Q;
    dwellRemaining : Q
  }.
Definition with_position (p : Q) (tr : t) : t :=
    mk (id tr) (lineId tr) p (direction tr) (passengers tr) (capacity tr)
       (speed tr) (lastStationVisited tr) (stationCooldown tr) (dwellRemaining tr).
Definition with_direction (d : Z) (tr : t) : t :=
    mk (id tr) (lineId tr) (position tr) d (passengers tr) (capacity tr)
       (speed tr) (lastStationVisited tr) (stationCooldown tr) (dwellRemaining tr).
Definition with_passengers (ps : list Passenger.t) (tr : t) : t :=
    mk (id tr) (lineId tr) (position tr) (direction tr) ps (capacity tr)
       (speed tr) (lastStationVisited tr) (stationCooldown tr) (dwellRemaining tr).
Definition with_lastStationVisited (s : Z) (tr : t) : t :=
    mk (id tr) (lineId tr) (position tr) (direction tr) (passengers tr) (capacity tr)
       (speed tr) s (stationCooldown tr) (dwellRemaining tr).
Definition with_stationCooldown (c : Q) (tr : t) : t :=
    mk (id tr) (lineId tr) (position tr) (direction tr) (passengers tr) (capacity tr)
       (speed tr) (lastStationVisited tr) c (dwellRemaining tr).
Definition with_dwellRemaining (d : Q) (tr : t) : t :=
    mk (id tr) (lineId tr) (position tr) (direction tr) (passengers tr) (capacity tr)
       (speed tr) (lastStationVisited tr) (stationCooldown tr) d.
End Train.

Module Config.
Record t : Type := mk {
    trainSpeed : option Q;
    defaultMCT : option Q;
    mctMultiplier : option Q;
    defaultTurnaroundMs : option Q;
    maxWaitSeconds : Q;
    missedConnectionMultiplier : option Q;
    hubAndSpokeMode : bool;
    hubSpokeBias : option Q;
    hubSpokeBoardingWaitMs : option Q;
    hubLinePriorityBonus : option Q;
    hubDesiredTrainBonus : option Z;
    lineColors : list string
  }.
End Config.

Module Combo.
Record t : Type := mk { count : Z; lastTime : Q; multiplier : Q }.
End Combo.

Module Snapshot.
Record t : Type := mk {
    lines : list Line.t;
    trains : list Train.t;
    linesAvailable : Z;
    trainsAvailable : Z;
    tunnels : Z;
    score : Z
  }.
End Snapshot.

Module Game.
Record t : Type := mk {
    config : Config.t;
    stations : list Station.t;
    lines : list Line.t;
    trains : list Train.t;
    score : Z;
    totalPassengers : Z;
    linesAvailable : Z;
    trainsAvailable : Z;
    tunnels : Z;
    carriages : Z;
    day : Z;
    gameTime : Q;
    gameOver : bool;
    goReason : option string;     (* text shown by [endGame] *)
    combo : option Combo.t;
    undoStack : list Snapshot.t
  }.
Definition with_stations (ss : list Station.t) (g : t) : t :=
    mk (config g) ss (lines g) (trains g) (score g) (totalPassengers g)
       (linesAvailable g) (trainsAvailable g) (tunnels g) (carriages g) (day g)
       (gameTime g) (gameOver g) (goReason g) (combo g) (undoStack g).
Definition with_lines (ls : list Line.t) (g : t) : t :=
    mk (config g) (stations g) ls (trains g) (score g) (totalPassengers g)
       (linesAvailable g) (trainsAvailable g) (tunnels g) (carriages g) (day g)
       (gameTime g) (gameOver g) (goReason g) (combo g) (undoStack g).
Definition with_trains (ts : list Train.t) (g : t) : t :=
    mk (config g) (stations g) (lines g) ts (score g) (totalPassengers g)
       (linesAvailable g) (trainsAvailable g) (tunnels g) (carriages g) (day g)
       (gameTime g) (gameOver g) (goReason g) (combo g) (undoStack g).
Definition with_score (s : Z) (g : t) : t :=
    mk (config g) (stations g) (lines g) (trains g) s (totalPassengers g)
       (linesAvailable g) (trainsAvailable g) (tunnels g) (carriages g) (day g)
       (gameTime g) (gameOver g) (goReason g) (combo g) (undoStack g).
Definition with_totalPassengers (n : Z) (g : t) : t :=
    mk (config g) (stations g) (lines g) (trains g) (score g) n
       (linesAvailable g) (trainsAvailable g) (tunnels g) (carriages g) (day g)
       (gameTime g) (gameOver g) (goReason g) (combo g) (undoStack g).
Definition with_trainsAvailable (n : Z) (g : t) : t :=
    mk (config g) (stations g) (lines g) (trains g) (score g) (totalPassengers g)
       (linesAvailable g) n (tunnels g) (carriages g) (day g)
       (gameTime g) (gameOver g) (goReason g) (combo g) (undoStack g).
Definition with_combo (c : Combo.t) (g : t) : t :=
    mk (config g) (stations g) (lines g) (trains g) (score g) (totalPassengers g)
       (linesAvailable g) (trainsAvailable g) (tunnels g) (carriages g) (day g)
       (gameTime g) (gameOver g) (goReason g) (Some c) (undoStack g).
Definition with_undoStack (u : list Snapshot.t) (g : t) : t :=
    mk (config g) (stations g) (lines g) (trains g) (score g) (totalPassengers g)
       (linesAvailable g) (trainsAvailable g) (tunnels g) (carriages g) (day g)
       (gameTime g) (gameOver g) (goReason g) (combo g) u.
  (** [saveGameState()]: push an undo snapshot, keeping at most five. *)
Definition saveGameState (g : t) : t :=
    let stack := if (5 <=? length (undoStack g))%nat then tail (undoStack g) else undoStack g in
    with_undoStack
      (stack ++ [Snapshot.mk (lines g) (trains g) (linesAvailable g)
                             (trainsAvailable g) (tunnels g) (score g)]) g.
End Game.

(** Membership of [v] in the adjacency list of [u]. *)
Definition adj_has (adj : list (list nat)) (u v : nat) : Prop :=
  exists s : list nat, adj !! u = Some s /\ v ∈ s.

(** ** routing.js: the ETA estimator *)

Section Simulation.

Local Open Scope Q_scope.

(** [Math.hypot] is the one irrational operation of the simulation part; it is
    kept abstract.  The only fact the proofs use about it is that a distance
    is never negative. *)
Variable hypot : Q -> Q -> Q.

(** [Math.random()]: the successive draws are given by an oracle, and the
    functions that draw thread the number of draws made so far. *)
Variable random : nat -> Q.

(** [Set.prototype.add] on an insertion-ordered set of station indices. *)
Definition set_add (b : nat) (s : list nat) : list nat :=
  if bool_decide (b ∈ s) then s else s ++ [b].

(** [adj[a].add(b)]; outside the array the source raises, so well-formed
    games keep every line entry below the number of stations. *)
Definition adj_add (a b : nat) (adj : list (list nat)) : list (list nat) :=
  match adj !! a with
  | Some s => <[a := set_add b s]> adj
  | None => adj
  end.

(** The inner [for] of [buildStationGraph], over the consecutive pairs of one
    line. *)
Fixpoint add_line_edges (sts : list nat) (adj : list (list nat)) : list (list nat) :=
  match sts with
  | a :: (b :: _) as rest => add_line_edges rest (adj_add b a (adj_add a b adj))
  | _ => adj
  end.

Definition add_line (adj : list (list nat)) (line : Line.t) : list (list nat) :=
  if (length (Line.stations line) <? 2)%nat then adj
  else add_line_edges (Line.stations line) adj.

Definition buildStationGraph (g : Game.t) : list (list nat) :=
  fold_left add_line (Game.lines g) (replicate (length (Game.stations g)) []).

Definition edgeTimeMs (g : Game.t) (aIdx bIdx : nat) : num :=
  match Game.stations g !! aIdx, Game.stations g !! bIdx with
  | Some A, Some B =>
      let dist := hypot (Station.x B - Station.x A) (Station.y B - Station.y A) in
      let speed := or_default (Config.trainSpeed (Game.config g)) (6 # 100) in
      Fin (dist / Qmax (1 # 1000000) speed)
  | _, _ => Infinity
  end.

Definition nodeTransferMs (g : Game.t) (nodeIdx destIdx : nat) : Q :=
  if (nodeIdx =? destIdx)%nat then 0
  else match Game.stations g !! nodeIdx with
       | None => 0
       | Some s =>
           let base := nullish (Station.mctMs s)
                               (or_default (Config.defaultMCT (Game.config g)) 12000) in
           let factor := if Station.isInterchange s then 7 # 10 else 1 in
           let mult := or_default (Config.mctMultiplier (Game.config g)) 1 in
           base * factor * mult
       end.

(** Reading [eta[i]]: a missing cell behaves as [Infinity] in every comparison
    and sum the estimator makes. *)
Definition eta_get (eta : list num) (i : nat) : num := default Infinity (eta !! i).

(** [eta[i] = v]: JavaScript extends the array when [i] is past its end. *)
Definition eta_set (eta : list num) (i : nat) (v : num) : list num :=
  if (i <? length eta)%nat then <[i := v]> eta
  else eta ++ replicate (i - length eta) Infinity ++ [v].

(** The selection scan: the unvisited index of least finite [eta], the first
    one on ties; [None] stands for the source's [-1]. *)
Definition select_step (eta : list num) (visited : list bool)
    (acc : option nat * num) (i : nat) : option nat * num :=
  if negb (default false (visited !! i)) && nltb (eta_get eta i) (snd acc)
  then (Some i, eta_get eta i) else acc.

Definition select_min (N : nat) (eta : list num) (visited : list bool) : option nat :=
  fst (fold_left (select_step eta visited) (seq 0 N) (None, Infinity)).

(** One relaxation, [if (alt < eta[v]) eta[v] = alt]. *)
Definition relax (g : Game.t) (destIdx u : nat) (eta : list num) (v : nat) : list num :=
  let alt := nadd (nadd (edgeTimeMs g v u) (Fin (nodeTransferMs g u destIdx)))
                  (eta_get eta u) in
  if nltb alt (eta_get eta v) then <[v := alt]> eta else eta.

(** The [for (;;)] loop.  Every turn marks one more index visited, so
    [fuel] bounds the number of turns; [None] means the fuel ran out. *)
Fixpoint dijkstra_loop (fuel : nat) (g : Game.t) (adj : list (list nat))
    (N destIdx : nat) (eta : list num) (visited : list bool) : option (list num) :=
  match fuel with
  | O => None
  | S fuel' =>
      match select_min N eta visited with
      | None => Some eta
      | Some u =>
          let visited' := <[u := true]> visited in
          let eta' := fold_left (relax g destIdx u) (default [] (adj !! u)) eta in
          dijkstra_loop fuel' g adj N destIdx eta' visited'
      end
  end.

(** [computeETAs(game, destIdx)].  [N + 1] turns always suffice (lemma
    [dijkstra_loop_fuel] below), so the last branch is never taken. *)
Definition computeETAs (g : Game.t) (destIdx : nat) : list num :=
  let N := length (Game.stations g) in
  let adj := buildStationGraph g in
  let eta := eta_set (replicate N Infinity) destIdx (Fin 0) in
  let visited := replicate N false in
  match dijkstra_loop (S N) g adj N destIdx eta visited with
  | Some r => r
  | None => eta
  end.

Definition estimateETA (g : Game.t) (fromIdx destIdx : nat) : num :=
  eta_get (computeETAs g destIdx) fromIdx.

Definition stepReducesETA (g : Game.t) (fromIdx viaIdx destIdx : nat) : bool :=
  let etaFrom := estimateETA g fromIdx destIdx in
  let etaVia := estimateETA g viaIdx destIdx in
  let step := edgeTimeMs g fromIdx viaIdx in
  isFinite etaFrom && isFinite etaVia && nltb (nadd (nadd step etaVia) (Fin 1)) etaFrom.

(** [neighborsOnLineFrom]: the neighbours of the first occurrence. *)
Fixpoint neighborsOnLineFrom_aux (prev : option nat) (sts : list nat) (stationIdx : nat)
    : list nat :=
  match sts with
  | [] => []
  | s :: rest =>
      if (s =? stationIdx)%nat
      then (match prev with Some p => [p] | None => [] end)
             ++ (match rest with n :: _ => [n] | [] => [] end)
      else neighborsOnLineFrom_aux (Some s) rest stationIdx
  end.

Definition neighborsOnLineFrom (line : Line.t) (stationIdx : nat) : list nat :=
  neighborsOnLineFrom_aux None (Line.stations line) stationIdx.

(** ** passengers.js: the boarding decision *)

(** [game.day <= n], [game.day === n] on the integer day counter. *)
Definition day_le (g : Game.t) (n : Z) : bool := (Game.day g <=? n)%Z.
Definition day_is (g : Game.t) (n : Z) : bool := (Game.day g =? n)%Z.
(** [game.day && game.day <= n]: day 0 is falsy. *)
Definition day_truthy_le (g : Game.t) (n : Z) : bool :=
  negb (Game.day g =? 0)%Z && (Game.day g <=? n)%Z.

Definition includes (l : list nat) (x : nat) : bool := bool_decide (x ∈ l).

(** A station that is an interchange or a final destination. *)
Definition isHub (s : Station.t) : bool := Station.isInterchange s || Station.isFinal s.

Definition lineHasHub (g : Game.t) (line : Line.t) : bool :=
  existsb (fun si => match Game.stations g !! si with
                     | Some s => isHub s
                     | None => false
                     end) (Line.stations line).

(** Rule 3 of the cascade: another line through a neighbour serves the
    destination. *)
Definition neighborConnects (g : Game.t) (line : Line.t) (neigh : list nat) (dest : nat)
    : bool :=
  existsb (fun neighborIdx =>
             match Game.stations g !! neighborIdx with
             | None => false
             | Some neighborStation =>
                 existsb (fun otherLineId =>
                            negb (otherLineId =? Line.id line)%nat &&
                            match Game.lines g !! otherLineId with
                            | Some otherLine => includes (Line.stations otherLine) dest
                            | None => false
                            end) (Station.connections neighborStation)
             end) neigh.

Definition shouldBoardLineHere (g : Game.t) (line : Line.t) (stationIdx : nat)
    (passenger : Passenger.t) : bool :=
  if (length (Line.stations line) <? 2)%nat then false else
  let destStationIdx := Passenger.destStation passenger in
  if includes (Line.stations line) destStationIdx then true else
  let neigh := neighborsOnLineFrom line stationIdx in
  if (length neigh =? 0)%nat then false else
  if existsb (fun v => stepReducesETA g stationIdx v destStationIdx) neigh then true else
  if neighborConnects g line neigh destStationIdx then true else
  let currentStation := Game.stations g !! stationIdx in
  let crowd := match currentStation with
               | Some s => Z.of_nat (length (Station.queue s))
               | None => 0%Z
               end in
  let hasHub := lineHasHub g line in
  if ((day_le g 2 && (4 <=? crowd)%Z) || (6 <=? crowd)%Z) && hasHub then true else
  if Config.hubAndSpokeMode (Game.config g)
     && negb (isFinite (estimateETA g stationIdx destStationIdx)) && hasHub
     && (let spawn := if Qeq_bool (Passenger.spawnTime passenger) 0
                      then Game.gameTime g else Passenger.spawnTime passenger in
         let waited := Game.gameTime g - spawn in
         let waitMs := or_default (Config.hubSpokeBoardingWaitMs (Game.config g)) 10000 in
         let bias := or_default (Config.hubSpokeBias (Game.config g)) 1 in
         let threshold := Qmax 3000 (inject_Z (Math_round (waitMs / Qmax 1 bias))) in
         Qltb threshold waited)
  then true else
  match currentStation with
  | None => false
  | Some _ =>
      let waitedFor := Game.gameTime g - Passenger.spawnTime passenger in
      let longWaitThreshold := if day_le g 2 then 20000 else 30000 in
      if Qltb longWaitThreshold waitedFor && hasHub then true else
      let emergencyWait := if day_le g 2 then 45000 else 60000 in
      Qltb emergencyWait waitedFor
  end.

(** ** trains.js: arrival handling *)

Definition createTrain (g : Game.t) (lineId : nat) : Game.t * option Train.t :=
  match Game.lines g !! lineId with
  | None => (g, None)
  | Some line =>
      if (length (Line.stations line) <? 2)%nat then (g, None) else
      let train := Train.mk (length (Game.trains g)) lineId 0 1 []
                     (10 + Game.carriages g)%Z
                     (default 0 (Config.trainSpeed (Game.config g))
                      * (if day_truthy_le g 2 then 115 # 100 else 1))
                     (-1)%Z 0 0 in
      let line' := Line.with_trains (Line.trains line ++ [Train.id train]) line in
      (Game.with_trains (Game.trains g ++ [train])
         (Game.with_lines (<[lineId := line']> (Game.lines g)) g),
       Some train)
  end.

(** The score of one delivery, with the combo state it leaves. *)
Definition deliveryPoints (g : Game.t) (combo : Combo.t) (station : Station.t)
    (p : Passenger.t) : Z * Combo.t :=
  let now := Game.gameTime g in
  let travelTime := now - Passenger.spawnTime p in
  let combo1 :=
    if Qltb (now - Combo.lastTime combo) 5000
    then let c := (Combo.count combo + 1)%Z in
         Combo.mk c now (Qmin 3 (1 + inject_Z c * (1 # 2)))
    else Combo.mk 0 now 1 in
  let destFinal := match Game.stations g !! Passenger.destStation p with
                   | Some ds => Station.isFinal ds
                   | None => false
                   end in
  let points0 : Z :=
    if destFinal
    then ((5 + (if Qltb travelTime 30000 then 3
                else if Qltb travelTime 60000 then 1 else 0))
          + (if (3 <=? default 0%nat (Passenger.transferCount p) + 1)%nat then 2 else 0))%Z
    else if Station.isInterchange station then 2%Z else 1%Z in
  let points1 : Z :=
    if Passenger.isVIP p
       && negb (Qeq_bool (default 0 (Passenger.pointMultiplier p)) 0)
    then Math_floor (inject_Z points0 * default 0 (Passenger.pointMultiplier p))
    else points0 in
  let points2 : Z :=
    if Qltb 1 (Combo.multiplier combo1)
    then Math_floor (inject_Z points1 * Combo.multiplier combo1)
    else points1 in
  (points2, combo1).

(** The connection time written into a passenger pushed back to the queue. *)
Definition transferReady (g : Game.t) (station : Station.t) : Q :=
  let mctBase := nullish (Station.mctMs station)
                         (or_default (Config.defaultMCT (Game.config g)) 12000) in
  let mctFactor := if day_truthy_le g 2 then 7 # 10
                   else if day_is g 3 then 9 # 10 else 1 in
  let mctMult := or_default (Config.mctMultiplier (Game.config g)) 1 in
  Game.gameTime g + inject_Z (Math_round (mctBase * mctFactor * mctMult)).

(** State of the first loop of [handleStationArrival]: the passengers that
    stay aboard, the station queue, the score and the combo counter. *)
Record Disembark : Type := mkDisembark {
  remaining : list Passenger.t;
  stationQueue : list Passenger.t;
  scoreNow : Z;
  comboNow : Combo.t
}.

Definition disembark_step (g : Game.t) (line : Line.t) (station : Station.t)
    (acc : Disembark) (p : Passenger.t) : Disembark :=
  if (Passenger.destStation p =? Station.id station)%nat then
    let '(points, combo') := deliveryPoints g (comboNow acc) station p in
    mkDisembark (remaining acc) (stationQueue acc) (scoreNow acc + points)%Z combo'
  else if negb (includes (Line.stations line) (Passenger.destStation p)) then
    let p' := Passenger.with_transfer (transferReady g station)
                (default 0%nat (Passenger.transferCount p) + 1)%nat p in
    mkDisembark (remaining acc) (stationQueue acc ++ [p']) (scoreNow acc) (comboNow acc)
  else
    mkDisembark (remaining acc ++ [p]) (stationQueue acc) (scoreNow acc) (comboNow acc).

(** State of the second loop: the passengers aboard, the queue that is kept,
    and the number picked. *)
Record Boarding : Type := mkBoarding {
  aboard : list Passenger.t;
  keep : list Passenger.t;
  picked : Z
}.

Definition boarding_step (g : Game.t) (line : Line.t) (station : Station.t)
    (capacity : Z) (acc : Boarding) (p : Passenger.t) : Boarding :=
  if (capacity <=? picked acc)%Z then mkBoarding (aboard acc) (keep acc ++ [p]) (picked acc)
  else if Qltb (Game.gameTime g) (or_default (Passenger.transferReadyAt p) 0)
  then mkBoarding (aboard acc) (keep acc ++ [p]) (picked acc)
  else if shouldBoardLineHere g line (Station.id station) p
  then mkBoarding (aboard acc ++ [p]) (keep acc) (picked acc + 1)%Z
  else mkBoarding (aboard acc) (keep acc ++ [p]) (picked acc).

Definition set_train (ti : nat) (tr : Train.t) (g : Game.t) : Game.t :=
  Game.with_trains (<[ti := tr]> (Game.trains g)) g.

Definition set_station (si : nat) (s : Station.t) (g : Game.t) : Game.t :=
  Game.with_stations (<[si := s]> (Game.stations g)) g.

(** [handleStationArrival(game, train, station)], with the train and the
    station given by their positions in [game.trains] and [game.stations]. *)
Definition handleStationArrival (g : Game.t) (ti si : nat) : Game.t :=
  match Game.trains g !! ti, Game.stations g !! si with
  | Some train, Some station =>
      match Game.lines g !! Train.lineId train with
      | None => g
      | Some line =>
          let combo0 := default (Combo.mk 0 0 1) (Game.combo g) in
          let d := fold_left (disembark_step g line station) (Train.passengers train)
                     (mkDisembark [] (Station.queue station) (Game.score g) combo0) in
          let station1 := Station.with_queue (stationQueue d) station in
          let train1 := Train.with_passengers (remaining d) train in
          let g1 := set_train ti train1
                      (set_station si station1
                         (Game.with_combo (comboNow d) (Game.with_score (scoreNow d) g))) in
          let capacity := (Train.capacity train1 - Z.of_nat (length (Train.passengers train1)))%Z in
          if (capacity <=? 0)%Z then g1 else
          let b := fold_left (boarding_step g1 line station1 capacity) (Station.queue station1)
                     (mkBoarding (Train.passengers train1) [] 0%Z) in
          set_train ti (Train.with_passengers (aboard b) train1)
            (set_station si (Station.with_queue (keep b) station1) g1)
      end
  | _, _ => g
  end.

(** ** trains.js: vehicle motion *)

(** The dwell written by [arriveAtStationIdx]. *)
Definition dwellDuration (g : Game.t) (station : Station.t) : Q :=
  let baseTurn := nullish (Station.turnaroundMs station)
                          (or_default (Config.defaultTurnaroundMs (Game.config g)) 600) in
  let earlyFactor := if day_truthy_le g 3 then 8 # 10 else 1 in
  let crowdFactor := if Station.isOvercrowded station then 8 # 10 else 1 in
  let typeFactor := if Station.isInterchange station then 8 # 10 else 1 in
  baseTurn * earlyFactor * crowdFactor * typeFactor.

(** [arriveAtStationIdx(idx)] for the train at [ti] on [line]. *)
Definition arriveAtStationIdx (g : Game.t) (ti : nat) (line : Line.t) (idx : nat) : Game.t :=
  match Line.stations line !! idx with
  | None => g
  | Some stationIndex =>
      let g1 := handleStationArrival g ti stationIndex in
      match Game.trains g1 !! ti, Game.stations g1 !! stationIndex with
      | Some train, Some station =>
          let train1 := Train.with_dwellRemaining (dwellDuration g1 station)
                          (Train.with_stationCooldown 600
                             (Train.with_lastStationVisited (Z.of_nat stationIndex) train)) in
          let train2 :=
            if negb (Line.isLoop line)
               && ((idx =? 0)%nat || (idx =? length (Line.stations line) - 1)%nat)
            then Train.with_direction (Train.direction train1 * -1)%Z train1
            else train1 in
          set_train ti train2 g1
      | _, _ => g1
      end
  end.

(** The parametric position of every station of a line: the array [norm]. *)
Fixpoint cumulative (g : Game.t) (sts : list nat) (cum : Q) : list Q :=
  match sts with
  | a :: (b :: _) as rest =>
      match Game.stations g !! a, Game.stations g !! b with
      | Some A, Some B =>
          let cum' := cum + hypot (Station.x B - Station.x A) (Station.y B - Station.y A) in
          cum' :: cumulative g rest cum'
      | _, _ => cumulative g rest cum
      end
  | _ => []
  end.

Definition stationParams (g : Game.t) (line : Line.t) : list Q :=
  let params := cumulative g (Line.stations line) 0 in
  let total := Qmax (List.last params 0) (1 # 1000000) in
  0 :: map (fun p => p / total) params.

(** The test inside [checkCrossing] for the station at rank [i]. *)
Definition crossesAt (train : Train.t) (line : Line.t) (norm : list Q)
    (startPos endPos : Q) (forward : bool) (i : nat) : bool :=
  match norm !! i with
  | None => false
  | Some sp =>
      let eps := 1 # 10000 in
      (if forward
       then Qltb (startPos + eps) sp && Qleb sp (endPos + eps)
       else Qltb sp (startPos - eps) && Qleb (endPos - eps) sp)
      && negb (bool_decide (Some (Train.lastStationVisited train)
                            = Z.of_nat <$> (Line.stations line !! i)))
      && Qleb (Train.stationCooldown train) 0
  end.

(** [checkCrossing]: the first rank, in the direction of travel, at which the
    train arrives; then the train is put on the station and [arriveAtStationIdx]
    runs.  [None] is the source's [false]. *)
Definition checkCrossing (g : Game.t) (ti : nat) (train : Train.t) (line : Line.t)
    (norm : list Q) (startPos endPos : Q) (dir : Z) : option Game.t :=
  let forward := (0 <? dir)%Z in
  let ranks := if forward then seq 0 (length norm) else rev (seq 0 (length norm)) in
  match List.find (crossesAt train line norm startPos endPos forward) ranks with
  | None => None
  | Some i =>
      let sp := default 0 (norm !! i) in
      Some (arriveAtStationIdx (set_train ti (Train.with_position sp train) g) ti line i)
  end.

(** The body of the [forEach] in [updateTrains], for the train at [ti]. *)
Definition updateTrain (deltaTime : Q) (g : Game.t) (ti : nat) : Game.t :=
  match Game.trains g !! ti with
  | None => g
  | Some train0 =>
  match Game.lines g !! Train.lineId train0 with
  | None => g
  | Some line =>
  if (length (Line.stations line) <? 2)%nat then g else
  if negb (forallb (fun si => bool_decide (is_Some (Game.stations g !! si)))
                   (Line.stations line)) then g else
  let train1 :=
    if Qltb 0 (Train.stationCooldown train0)
    then Train.with_stationCooldown (Train.stationCooldown train0 - deltaTime) train0
    else train0 in
  if Qltb 0 (Train.dwellRemaining train1) then
    let dwell := Train.dwellRemaining train1 - deltaTime in
    if Qleb dwell 0 then
      let epsPos := 1 # 1000 in
      let pos :=
        if negb (Line.isLoop line)
        then if Qleb (1 - epsPos) (Train.position train1) then 1 - 2 * epsPos
             else if Qleb (Train.position train1) epsPos then 2 * epsPos
             else Train.position train1
        else Train.position train1 in
      set_train ti (Train.with_stationCooldown 0
                      (Train.with_position pos (Train.with_dwellRemaining 0 train1))) g
    else set_train ti (Train.with_dwellRemaining dwell train1) g
  else
  let epsGuard := 1 # 10000 in
  let train2 :=
    if negb (Line.isLoop line) then
      if Qleb (1 - epsGuard) (Train.position train1) && (0 <? Train.direction train1)%Z
         && Qleb (Train.stationCooldown train1) 0
      then Train.with_position (1 - 2 * epsGuard) (Train.with_direction (-1) train1)
      else if Qleb (Train.position train1) epsGuard && (Train.direction train1 <? 0)%Z
              && Qleb (Train.stationCooldown train1) 0
      then Train.with_position (2 * epsGuard) (Train.with_direction 1 train1)
      else train1
    else train1 in
  let safeLen := Qmax 100 (Line.totalLength line) in
  let step := Train.speed train2 * deltaTime / safeLen in
  let prevPos := Train.position train2 in
  let proposed := prevPos + step * inject_Z (Train.direction train2) in
  let norm := stationParams g line in
  let eps := 1 # 10000 in
  let dir := Train.direction train2 in
  let g2 := set_train ti train2 g in
  let check := checkCrossing g2 ti train2 line norm in
  let wrapCase (first second : option Game.t) (wrapped : Q) : Game.t :=
    match first with
    | Some r => r
    | None => match second with
              | Some r => r
              | None => set_train ti (Train.with_position wrapped train2) g2
              end
    end in
  if Line.isLoop line && Qltb 1 proposed then
    wrapCase (check prevPos 1 dir) (check 0 (proposed - 1) dir) (proposed - 1)
  else if Line.isLoop line && Qltb proposed 0 then
    wrapCase (check prevPos 0 dir) (check 1 (proposed + 1) dir) (proposed + 1)
  else
  match check prevPos proposed dir with
  | Some r => r
  | None =>
      if Line.isLoop line then
        let pos := if Qleb 1 proposed then proposed - 1
                   else if Qltb proposed 0 then proposed + 1 else proposed in
        set_train ti (Train.with_position pos train2) g2
      else
        let pos := Qmax 0 (Qmin 1 proposed) in
        let train3 := Train.with_position pos train2 in
        let g3 := set_train ti train3 g2 in
        let lastRank := (length (Line.stations line) - 1)%nat in
        let mayArrive (rank : nat) : bool :=
          negb (bool_decide (Some (Train.lastStationVisited train3)
                             = Z.of_nat <$> (Line.stations line !! rank)))
          && Qleb (Train.stationCooldown train3) 0 in
        if Qleb (1 - eps) pos then
          if mayArrive lastRank then arriveAtStationIdx g3 ti line lastRank
          else set_train ti (Train.with_direction (-1) (Train.with_position 1 train3)) g3
        else if Qleb pos (0 + eps) then
          if mayArrive 0%nat then arriveAtStationIdx g3 ti line 0
          else set_train ti (Train.with_direction 1 (Train.with_position 0 train3)) g3
        else g3
  end
  end
  end.

Definition updateTrains (g : Game.t) (deltaTime : Q) : Game.t :=
  fold_left (updateTrain deltaTime) (seq 0 (length (Game.trains g))) g.

(** ** trains.js: the fleet allocator *)

Definition calculateLineDemand (g : Game.t) (line : Line.t) : Z :=
  fold_left
    (fun demand stationId =>
       match Game.stations g !! stationId with
       | None => demand
       | Some station =>
           fold_left
             (fun demand passenger =>
                let dest := Passenger.destStation passenger in
                if includes (Line.stations line) dest then (demand + 2)%Z
                else
                  let canTransfer :=
                    existsb (fun sid =>
                      match Game.stations g !! sid with
                      | None => false
                      | Some transferStation =>
                          existsb (fun otherLineId =>
                            match Game.lines g !! otherLineId with
                            | Some otherLine => includes (Line.stations otherLine) dest
                            | None => false
                            end) (Station.connections transferStation)
                      end) (Line.stations line) in
                  if canTransfer then (demand + 1)%Z else demand)
             (Station.queue station) demand
       end)
    (Line.stations line) 0%Z.

(** One entry of [lineStats]. *)
Record LineStats : Type := mkLineStats {
  statLine : Line.t;
  currentTrains : Z;
  desiredTrains : Z;
  deficit : Z;
  priority : Q
}.

Definition lineStatsOf (g : Game.t) (line : Line.t) : LineStats :=
  let length_ := Line.totalLength line in
  let stationCount := Z.of_nat (length (Line.stations line)) in
  let passengerDemand := calculateLineDemand g line in
  let connectsHub := lineHasHub g line in
  let baseTrainsForLength := Z.max 1 (Math_ceil (length_ / 350)) in
  let demandTrains := Math_ceil (inject_Z passengerDemand / 10) in
  let stationTrains := Z.max 1 (Math_ceil (inject_Z stationCount / 3)) in
  let earlyMax := if day_truthy_le g 3 then 5%Z else 4%Z in
  let maxTrains := Z.min earlyMax (Z.max 2 (Math_ceil (inject_Z stationCount / 2))) in
  let desiredRaw := (Z.max baseTrainsForLength stationTrains + demandTrains)%Z in
  let desiredRaw' :=
    if Config.hubAndSpokeMode (Game.config g) && connectsHub
    then (desiredRaw + default 1%Z (Config.hubDesiredTrainBonus (Game.config g)))%Z
    else desiredRaw in
  let desired := Z.max 1 (Z.min desiredRaw' maxTrains) in
  let current := Z.of_nat (length (Line.trains line)) in
  let zeroTrainBoost := if (length (Line.trains line) =? 0)%nat then 100000 else 0 in
  mkLineStats line current desired (Z.max 0 (desired - current))
    (zeroTrainBoost + length_ + inject_Z passengerDemand * 50
     + (if connectsHub
        then or_default (Config.hubLinePriorityBonus (Game.config g)) 200 else 0)).

(** [lineStats.sort((a, b) => b.priority - a.priority)]: a stable sort by
    decreasing priority.  [sortByPriority] inserts the entries from the last
    to the first, each one before the first entry that is not above it, so
    entries of equal priority keep their order. *)
Fixpoint insertByPriority (s : LineStats) (sorted : list LineStats) : list LineStats :=
  match sorted with
  | [] => [s]
  | t :: rest =>
      if Qleb (priority t) (priority s) then s :: sorted
      else t :: insertByPriority s rest
  end.

Definition sortByPriority (stats : list LineStats) : list LineStats :=
  fold_right insertByPriority [] stats.

(** The inner [for] of the allocation: up to [n] trains for one line. *)
Fixpoint addTrains (n : nat) (lineId : nat) (g : Game.t) : Game.t :=
  match n with
  | O => g
  | S n' =>
      if (Game.trainsAvailable g <=? 0)%Z then g
      else
        let '(g1, newTrain) := createTrain g lineId in
        let g2 := match newTrain with
                  | Some _ => Game.with_trainsAvailable (Game.trainsAvailable g1 - 1)%Z g1
                  | None => g1
                  end in
        addTrains n' lineId g2
  end.

Definition allocate_step (g : Game.t) (stats : LineStats) : Game.t :=
  if (Game.trainsAvailable g <=? 0)%Z then g
  else if (deficit stats <=? 0)%Z then g
  else
    let trainsToAdd := Z.min (deficit stats) (Game.trainsAvailable g) in
    addTrains (Z.to_nat trainsToAdd) (Line.id (statLine stats)) g.

Definition optimizeTrainAllocation (g : Game.t) : Game.t :=
  if (Game.trainsAvailable g <=? 0)%Z then g
  else
    let lineStats := sortByPriority (map (lineStatsOf g) (Game.lines g)) in
    fold_left allocate_step lineStats g.

(** ** passengers.js: spawning *)

(** The day-dependent capacity of a station ([dynamicCap], and the same
    computation in the sweep). *)
Definition dynamicCap (g : Game.t) (s : Station.t) : Z :=
  let baseCap := if Station.isFinal s then 14 else if Station.isInterchange s then 11 else 9 in
  let boost := if day_le g 2 then 2
               else if day_is g 3 then 16 # 10
               else if day_is g 4 then 13 # 10 else 11 # 10 in
  Math_round (baseCap * boost).

(** [arr[Math.floor(Math.random() * arr.length)]] with the draw [r]. *)
Definition pick {A : Type} (arr : list A) (r : Q) : option A :=
  arr !! Z.to_nat (Math_floor (r * inject_Z (Z.of_nat (length arr)))).

(** The stations with their positions in [game.stations]. *)
Definition indexed (g : Game.t) : list (nat * Station.t) :=
  zip (seq 0 (length (Game.stations g))) (Game.stations g).

(** [spawnPassenger(game)]; [k] draws of [Math.random] were made before the
    call, and the result counts the draws made by it.  A pick outside the
    array cannot happen for draws in [0, 1); the model then leaves the game
    as it is. *)
Definition spawnPassenger (k : nat) (g : Game.t) : Game.t * nat :=
  if Game.gameOver g then (g, k) else
  if (length (Game.stations g) <? 2)%nat then (g, k) else
  let candidates := indexed g in
  let origins0 :=
    List.filter (fun c => (Z.of_nat (length (Station.queue (snd c)))
                           <? dynamicCap g (snd c) - 1)%Z) candidates in
  let origins := if (length origins0 =? 0)%nat then candidates else origins0 in
  match pick origins (random k) with
  | None => (g, S k)
  | Some (originPos, origin) =>
      let originIndex := Station.id origin in
      let finals := List.filter (fun s => negb (Station.id s =? originIndex)%nat
                                          && Station.isFinal s) (Game.stations g) in
      let others := List.filter (fun s => negb (Station.id s =? originIndex)%nat
                                          && negb (Station.isFinal s)) (Game.stations g) in
      let chosen : option (option Station.t * nat) :=
        if negb (length finals =? 0)%nat then
          let finalBias := if day_le g 3 then 45 # 100 else 6 # 10 in
          if Qltb (random (S k)) finalBias || (length others =? 0)%nat then
            Some (pick finals (random (S (S k))), S (S (S k)))
          else
            let interchanges := List.filter Station.isInterchange others in
            let bias := or_default (Some (or_default (Config.hubSpokeBias (Game.config g))
                                            (if Config.hubAndSpokeMode (Game.config g)
                                             then 12 # 10 else 1))) 1 in
            let baseP := 7 # 10 in
            let boosted := Qmax (7 # 10) (Qmin (97 # 100) (baseP + (2 # 10) * (bias - 1))) in
            if (length interchanges =? 0)%nat then
              Some (pick others (random (S (S k))), S (S (S k)))
            else if Qltb (random (S (S k)))
                         (if Config.hubAndSpokeMode (Game.config g) then boosted else baseP)
            then Some (pick interchanges (random (S (S (S k)))), S (S (S (S k))))
            else Some (pick others (random (S (S (S k)))), S (S (S (S k))))
        else if (length others =? 0)%nat then None
        else Some (pick others (random (S k)), S (S k)) in
      match chosen with
      | None => (g, S k)
      | Some (None, k') => (g, k')
      | Some (Some destStation, k') =>
          let now := Game.gameTime g in
          let passenger := Passenger.mk (random k') (Station.id destStation) now 0
                             (Some originIndex) (Some now) None false None in
          (Game.with_totalPassengers (Game.totalPassengers g + 1)%Z
             (set_station originPos
                (Station.with_queue (Station.queue origin ++ [passenger]) origin) g),
           S k')
      end
  end.

(** What a call of [spawnPassenger] does when it creates a passenger: one
    passenger more in the queue of its origin, whose destination is another
    station. *)
Definition spawned (g g' : Game.t) : Prop :=
  exists (pos : nat) (origin : Station.t) (p : Passenger.t),
    Game.stations g !! pos = Some origin /\
    g' = Game.with_totalPassengers (Game.totalPassengers g + 1)%Z
           (set_station pos (Station.with_queue (Station.queue origin ++ [p]) origin) g) /\
    Passenger.originStation p = Some (Station.id origin) /\
    Passenger.destStation p <> Station.id origin.

(** ** passengers.js: the overcrowding and timeout sweep *)

(** Positions in [queue] of the passengers that satisfy [f]. *)
Definition positions {A : Type} (f : A -> bool) (queue : list A) : list nat :=
  map fst (List.filter (fun c => f (snd c)) (zip (seq 0 (length queue)) queue)).

(** One move of [handleEmergencyOvercrowding].  The source finds the
    passenger in the queue by identity; the model names it by its position
    [pos] in the queue at the start of the moves, which is [pos - moved] once
    [moved] passengers before it have left. *)
Definition emergencyMove (si : nat) (alternatives : list nat)
    (acc : Game.t * nat * nat) (pos : nat) : Game.t * nat * nat :=
  let '(g, k, moved) := acc in
  match pick alternatives (random k), Game.stations g !! si with
  | Some alt, Some station =>
      match Station.queue station !! (pos - moved)%nat with
      | None => (g, S k, moved)
      | Some p =>
          let g1 := set_station si
                      (Station.with_queue (delete (pos - moved)%nat (Station.queue station))
                                          station) g in
          match Game.stations g1 !! alt with
          | None => (g1, S k, S moved)
          | Some altStation =>
              let ready := Game.gameTime g
                           + inject_Z (Math_round
                               (nullish (Station.mctMs altStation) 8000
                                * or_default (Config.mctMultiplier (Game.config g)) 1)) in
              let p' := Passenger.mk (Passenger.id p) (Passenger.destStation p)
                          (Passenger.spawnTime p) (Passenger.waitTime p)
                          (Passenger.originStation p) (Some ready)
                          (Passenger.transferCount p) (Passenger.isVIP p)
                          (Passenger.pointMultiplier p) in
              (set_station alt (Station.with_queue (Station.queue altStation ++ [p'])
                                                   altStation) g1, S k, S moved)
          end
      end
  | _, _ => (g, S k, moved)
  end.

Definition handleEmergencyOvercrowding (k : nat) (g : Game.t) (si : nat) : Game.t * nat :=
  match Game.stations g !! si with
  | None => (g, k)
  | Some station =>
      let queue := Station.queue station in
      if (length queue =? 0)%nat then (g, k) else
      let now := Game.gameTime g in
      let severeOvercrowding := (12 <=? length queue)%nat in
      let stuckPassengers :=
        positions (fun p => Qltb 80000 (now - Passenger.spawnTime p)) queue in
      if negb (negb (length stuckPassengers =? 0)%nat || severeOvercrowding) then (g, k) else
      let '(g1, k1) :=
        if (2 <=? length stuckPassengers)%nat
           || (severeOvercrowding && (14 <? length queue)%nat)
        then
          let alternativeStations :=
            map fst (List.filter
                       (fun c => negb (fst c =? si)%nat
                                 && (length (Station.queue (snd c)) <? 4)%nat
                                 && negb (length (Station.connections (snd c)) =? 0)%nat)
                       (indexed g)) in
          if (length alternativeStations =? 0)%nat then (g, k)
          else
            let candidates := if negb (length stuckPassengers =? 0)%nat
                              then stuckPassengers else take 2 (seq 0 (length queue)) in
            let '(g', k', _) :=
              fold_left (emergencyMove si alternativeStations) (take 2 candidates)
                        (g, k, 0%nat) in
            (g', k')
        else (g, k) in
      match Game.stations g1 !! si with
      | None => (g1, k1)
      | Some station1 =>
          if Station.isFinal station1 && severeOvercrowding then
            let delivered :=
              List.filter (fun p => (Passenger.destStation p =? Station.id station1)%nat)
                          (Station.queue station1) in
            if (length delivered =? 0)%nat then (g1, k1)
            else
              (set_station si
                 (Station.with_queue
                    (List.filter
                       (fun p => negb (Passenger.destStation p =? Station.id station1)%nat)
                       (Station.queue station1)) station1)
                 (Game.with_score (Game.score g1 + 5 * Z.of_nat (length delivered))%Z g1),
               k1)
          else (g1, k1)
      end
  end.













(** ** lines_final.js: creating a line *)

Definition pickAvailableColorIndex (g : Game.t) : Z :=
  let used := map Line.colorIndex (Game.lines g) in
  let total := Z.of_nat (length (Config.lineColors (Game.config g))) in
  let count := Z.of_nat (length (Game.lines g)) in
  let startOffset := (count mod total)%Z in
  let tries := map (fun i => ((startOffset + Z.of_nat i) mod total)%Z)
                   (seq 0 (length (Config.lineColors (Game.config g)))) in
  match List.find (fun c => negb (bool_decide (c ∈ used))) tries with
  | Some c => c
  | None => (count mod total)%Z
  end.

(** [calculateLineLength]; every entry of a line is a station of the game
    (the source reads the coordinates without a test). *)
Fixpoint lengthAlong (g : Game.t) (sts : list nat) : Q :=
  match sts with
  | a :: (b :: _) as rest =>
      match Game.stations g !! a, Game.stations g !! b with
      | Some A, Some B =>
          hypot (Station.x B - Station.x A) (Station.y B - Station.y A) + lengthAlong g rest
      | _, _ => lengthAlong g rest
      end
  | _ => 0
  end.

Definition calculateLineLength (g : Game.t) (line : Line.t) : Q :=
  lengthAlong g (Line.stations line).

(** [connections.push(line.id)] at every station of the line that does not
    list it yet. *)
Definition addConnection (lineId : nat) (g : Game.t) (idx : nat) : Game.t :=
  match Game.stations g !! idx with
  | None => g
  | Some s =>
      if includes (Station.connections s) lineId then g
      else set_station idx (Station.with_connections (Station.connections s ++ [lineId]) s) g
  end.

(** [createLine(game, stations, colorIndex)].  The game object of [main.js]
    defines [saveGameState] and [optimizeTrainAllocation], so both run. *)
Definition createLine (g : Game.t) (stations : list nat) (colorIndex : option Z)
    : Game.t * option Line.t :=
  if (length stations <? 2)%nat then (g, None) else
  let g1 := Game.saveGameState g in
  let finalColorIndex :=
    match colorIndex with
    | Some c => if (0 <=? c)%Z then c else pickAvailableColorIndex g1
    | None => pickAvailableColorIndex g1
    end in
  let line0 := Line.mk (length (Game.lines g1)) stations finalColorIndex false [] None 0 in
  let line := Line.with_totalLength (calculateLineLength g1 line0) line0 in
  let g2 := Game.with_lines (Game.lines g1 ++ [line]) g1 in
  let g3 := fold_left (addConnection (Line.id line)) (Line.stations line) g2 in
  let g4 := optimizeTrainAllocation g3 in
  (g4, Some (default line (Game.lines g4 !! Line.id line))).


(** The turnaround time [arriveAtStationIdx] starts from. *)
Definition baseTurn (g : Game.t) (s : Station.t) : Q :=
  nullish (Station.turnaroundMs s)
          (or_default (Config.defaultTurnaroundMs (Game.config g)) 600).



(** The signed fraction of the line a train covers in one tick. *)
Definition tickAdvance (deltaTime : Q) (train : Train.t) (line : Line.t) : Q :=
  Train.speed train * deltaTime / Qmax 100 (Line.totalLength line)
  * inject_Z (Train.direction train).

(** A train is in range when its position is between 0 and 1; the tick is
    moderate for it when, on a loop line, it moves the train by at most one
    lap. *)
Definition inRange (tr : Train.t) : Prop := 0 <= Train.position tr <= 1.

Definition moderateTick (deltaTime : Q) (g : Game.t) (tr : Train.t) : Prop :=
  forall line : Line.t,
    Game.lines g !! Train.lineId tr = Some line -> Line.isLoop line = true ->
    -1 <= tickAdvance deltaTime tr line <= 1.

(** *** The specification side of the ETA table

    Two stations are linked when they are consecutive on some line; a route
    to [d] is a walk along links that ends at [d].  Its cost adds, for every
    step [x -> y], the edge time of the step and the transfer time at [y]. *)

Definition consecutive (sts : list nat) (a b : nat) : Prop :=
  exists i : nat, sts !! i = Some a /\ sts !! S i = Some b.

Definition linked (g : Game.t) (a b : nat) : Prop :=
  exists line : Line.t,
    line ∈ Game.lines g /\
    (consecutive (Line.stations line) a b \/ consecutive (Line.stations line) b a).

Fixpoint route_to (g : Game.t) (d : nat) (p : list nat) : Prop :=
  match p with
  | [] => False
  | x :: rest =>
      match rest with
      | [] => x = d
      | y :: _ => linked g x y /\ route_to g d rest
      end
  end.

Fixpoint route_cost (g : Game.t) (d : nat) (p : list nat) : num :=
  match p with
  | [] => Fin 0
  | x :: rest =>
      match rest with
      | [] => Fin 0
      | y :: _ =>
          nadd (nadd (edgeTimeMs g x y) (Fin (nodeTransferMs g y d))) (route_cost g d rest)
      end
  end.

(** The transfer penalty in the words of the specification. *)
Definition transfer_penalty (g : Game.t) (s : Station.t) : Q :=
  nullish (Station.mctMs s) (or_default (Config.defaultMCT (Game.config g)) 12000)
  * (if Station.isInterchange s then 7 # 10 else 1)
  * or_default (Config.mctMultiplier (Game.config g)) 1.

(** Well-formed games: line entries are station indices, and connection
    times are not negative. *)
Definition lines_in_range (g : Game.t) : Prop :=
  forall line : Line.t, line ∈ Game.lines g ->
  forall s : nat, s ∈ Line.stations line -> (s < length (Game.stations g))%nat.

Definition mct_nonneg (g : Game.t) : Prop :=
  forall s : Station.t, s ∈ Game.stations g -> 0 <= transfer_penalty g s.

(** *** Loop invariant of the estimator

    [step_cost g d v u] is what one relaxation adds to [eta[u]]. *)

Definition step_cost (g : Game.t) (d v u : nat) : num :=
  nadd (edgeTimeMs g v u) (Fin (nodeTransferMs g u d)).

Definition is_visited (visited : list bool) (i : nat) : bool :=
  default false (visited !! i).

Fixpoint count_unvisited (visited : list bool) : nat :=
  match visited with
  | [] => 0
  | b :: rest => (if b then 0 else 1) + count_unvisited rest
  end.

Record eta_inv (g : Game.t) (d N : nat) (adj : list (list nat))
    (eta : list num) (visited : list bool) : Prop := {
  inv_len_eta : length eta = N;
  inv_len_vis : length visited = N;
  inv_dest : neq (eta_get eta d) (Fin 0);
  inv_nonneg : forall x : nat, nle (Fin 0) (eta_get eta x);
  inv_wit : forall (v : nat) (c : Q), eta !! v = Some (Fin c) ->
      exists p : list nat,
        head p = Some v /\ route_to g d p /\ neq (route_cost g d p) (Fin c);
  inv_rel : forall u v : nat, is_visited visited u = true -> adj_has adj u v ->
      nle (eta_get eta v) (nadd (step_cost g d v u) (eta_get eta u));
  inv_mono : forall x y : nat, is_visited visited x = true -> (y < N)%nat ->
      is_visited visited y = false -> nle (eta_get eta x) (eta_get eta y)
}.

End Simulation.

(** ** Concrete games

    The examples use an executable distance: the integer square root of the
    exact sum of squares, which is the exact distance on the data below. *)

Module Examples.

Local Open Scope Q_scope.

Definition hypotQ (dx dy : Q) : Q :=
  let s := dx * dx + dy * dy in
  Z.sqrt (Qnum s * Z.pos (Qden s)) # Qden s.

(** Every draw of the example oracle is 0. *)
Definition random0 (n : nat) : Q := 0.

Definition config0 : Config.t :=
  Config.mk (Some (85 # 1000)) (Some 10000) (Some (1 # 2)) (Some 500) 200 (Some 3)
            true (Some (16 # 10)) (Some 8000) (Some 300) (Some 1%Z)
            ["red"; "blue"; "green"]%string.

Definition station0 (id : nat) (name : string) (x y : Q) (interchange : bool) : Station.t :=
  Station.mk id name x y false interchange (Some 10000) (Some 600) [] [] 0 false.

Definition game0 (stations : list Station.t) (lines : list Line.t) (trains : list Train.t)
    (day : Z) (gameTime : Q) : Game.t :=
  Game.mk config0 stations lines trains 0 0 6 0 2 0 day gameTime false None None [].

(** Three stations on one straight route, the middle one an interchange. *)
Definition threeStations : list Station.t :=
  [ Station.with_connections [0%nat] (station0 0 "A" 0 0 false);
    Station.with_connections [0%nat] (station0 1 "B" 300 400 true);
    Station.with_connections [0%nat] (station0 2 "C" 600 800 false) ].

Definition lineABC : Line.t := Line.mk 0 [0; 1; 2]%nat 0 false [] None 1000.

Definition gameABC : Game.t := game0 threeStations [lineABC] [] 5 0.


Definition passengerTo (dest : nat) (spawn : Q) : Passenger.t :=
  Passenger.mk (1 # 3) dest spawn 0 (Some 0%nat) (Some spawn) None false None.

(** A train of capacity 3 on the route, about to call at B with one passenger
    for B and one for C aboard; four passengers for C wait at B. *)
Definition trainAB : Train.t :=
  Train.mk 0 0 (4 # 10) 1 [passengerTo 1 0; passengerTo 2 0] 3 (1 # 10) 0 0 0.

Definition stationsArrival : list Station.t :=
  [ Station.with_connections [0%nat] (station0 0 "A" 0 0 false);
    Station.with_queue (replicate 4 (passengerTo 2 1000))
      (Station.with_connections [0%nat] (station0 1 "B" 300 400 true));
    Station.with_connections [0%nat] (station0 2 "C" 600 800 false) ].

Definition gameArrival : Game.t :=
  game0 stationsArrival [Line.with_trains [0%nat] lineABC] [trainAB] 5 20000.







(** A loop A, B, A of length 1000 with one train shortly before the end of
    the lap. *)
Definition lineLoop : Line.t := Line.mk 0 [0; 1; 0]%nat 0 true [0%nat] None 1000.

Definition trainLoop (position cooldown : Q) : Train.t :=
  Train.mk 0 0 position 1 [] 10 (1 # 10) 1 cooldown 0.

Definition gameLoop (position cooldown : Q) : Game.t :=
  game0 threeStations [lineLoop] [trainLoop position cooldown] 5 0.





End Examples.

(** ** hexgrid.js: the lattice router

    Pixel coordinates are real numbers; lattice vertices are cube coordinates,
    triples of integers.  The maps of the search are keyed by the cube itself:
    the source keys them by the string [q,r,s], which names the cube
    one-to-one. *)

Module HexGrid.

Local Open Scope R_scope.

Record Point : Type := mkPoint { px : R; py : R }.

Definition Cube : Type := (Z * Z * Z)%type.
Definition cq (c : Cube) : Z := fst (fst c).
Definition cr (c : Cube) : Z := snd (fst c).
Definition cs (c : Cube) : Z := snd c.

(** [Math.round]: the integer part of [x + 1/2]. *)
Definition Math_roundR (x : R) : Z := (up (x + / 2) - 1)%Z.

Definition cubeToPixel (c : Cube) (size : R) : Point :=
  mkPoint (size * (15 / 10 * IZR (cq c)))
          (size * (sqrt 3 / 2 * IZR (cq c) + sqrt 3 * IZR (cr c))).

Definition roundCube (q r s : R) : Cube :=
  let rq := Math_roundR q in
  let rr := Math_roundR r in
  let rs := Math_roundR s in
  let qd := Rabs (IZR rq - q) in
  let rd := Rabs (IZR rr - r) in
  let sd := Rabs (IZR rs - s) in
  if Rlt_dec rd qd then
    if Rlt_dec sd qd then ((- rr - rs)%Z, rr, rs)
    else if Rlt_dec sd rd then (rq, (- rq - rs)%Z, rs)
    else (rq, rr, (- rq - rr)%Z)
  else if Rlt_dec sd rd then (rq, (- rq - rs)%Z, rs)
  else (rq, rr, (- rq - rr)%Z).

Definition pixelToCube (x y size : R) : Cube :=
  let q := 2 / 3 * (x / size) in
  let r := (-1) / 3 * (x / size) + sqrt 3 / 3 * (y / size) in
  let s := - q - r in
  roundCube q r s.

Definition snapToHexVertex (worldX worldY size : R) : Point :=
  cubeToPixel (pixelToCube worldX worldY size) size.

Definition getHexNeighbors (c : Cube) : list Cube :=
  map (fun d : Cube => ((cq c + cq d)%Z, (cr c + cr d)%Z, (cs c + cs d)%Z))
      [ (1, -1, 0); (1, 0, -1); (0, 1, -1); (-1, 1, 0); (-1, 0, 1); (0, -1, 1) ]%Z.

Definition hexDistance (a b : Cube) : Q :=
  (inject_Z (Z.abs (cq a - cq b) + Z.abs (cr a - cr b) + Z.abs (cs a - cs b)) / 2)%Q.

(** The state of the search: the array [open] and the maps [came], [g], [f]
    and the set [inOpen].  The scores in [g] are path lengths, integers. *)
Record Search : Type := mkSearch {
  open : list Cube;
  came : gmap Cube Cube;
  gScore : gmap Cube Z;
  fScore : gmap Cube Q;
  inOpen : gset Cube
}.

(** [f.get(key(c)) ?? Infinity]. *)
Definition getF (st : Search) (c : Cube) : num :=
  match fScore st !! c with Some v => Fin v | None => Infinity end.

(** The scan for the node of lowest f-score: the first one on ties. *)
Definition lowest (st : Search) : nat :=
  fold_left
    (fun idx i =>
       match open st !! i, open st !! idx with
       | Some ci, Some cidx => if nltb (getF st ci) (getF st cidx) then i else idx
       | _, _ => idx
       end)
    (seq 1 (length (open st) - 1)) 0%nat.

(** [tentativeG < (g.get(nk) ?? Infinity)]. *)
Definition improves (tentativeG : Z) (old : option Z) : bool :=
  match old with Some v => (tentativeG <? v)%Z | None => true end.

(** The body of the loop over the neighbours of [current]; a node without a
    g-score has an infinite tentative score, which improves nothing. *)
Definition visit (goal current : Cube) (st : Search) (nb : Cube) : Search :=
  match gScore st !! current with
  | None => st
  | Some gc =>
      let tentativeG := (gc + 1)%Z in
      if improves tentativeG (gScore st !! nb) then
        mkSearch
          (if bool_decide (nb ∈ inOpen st) then open st else open st ++ [nb])
          (<[nb := current]> (came st))
          (<[nb := tentativeG]> (gScore st))
          (<[nb := (inject_Z tentativeG + hexDistance nb goal)%Q]> (fScore st))
          (if bool_decide (nb ∈ inOpen st) then inOpen st else {[nb]} ∪ inOpen st)
      else st
  end.

(** Path reconstruction: follow [came] back from [cur]; [None] when the fuel
    runs out. *)
Fixpoint reconstruct (fuel : nat) (cameFrom : gmap Cube Cube) (cur : Cube)
    (pathCubes : list Cube) : option (list Cube) :=
  match fuel with
  | O => None
  | S fuel' =>
      match cameFrom !! cur with
      | Some prev => reconstruct fuel' cameFrom prev (prev :: pathCubes)
      | None => Some pathCubes
      end
  end.

(** [open.splice(idx, 1)] and [inOpen.delete(key(current))]. *)
Definition popped (st : Search) (current : Cube) : Search :=
  mkSearch (delete (lowest st) (open st)) (came st) (gScore st) (fScore st)
           (inOpen st ∖ {[current]}).

(** The [while (open.length)] loop.  The outer [None] means that the fuel ran
    out; the inner [None] is the exit with an empty [open], for which the
    source answers with the direct segment. *)
Fixpoint searchLoop (fuel rfuel : nat) (goal : Cube) (st : Search)
    : option (option (list Cube)) :=
  match fuel with
  | O => None
  | S fuel' =>
      match open st !! lowest st with
      | None => Some None
      | Some current =>
          let st1 := popped st current in
          if Qltb (hexDistance current goal) 1 then
            match reconstruct rfuel (came st1) current [current] with
            | Some pathCubes => Some (Some pathCubes)
            | None => None
            end
          else
            searchLoop fuel' rfuel goal
              (fold_left (visit goal current) (getHexNeighbors current) st1)
      end
  end.

Definition initialSearch (start goal : Cube) : Search :=
  mkSearch [start] ∅ {[start := 0%Z]} {[start := hexDistance start goal]} {[start]}.

(** [hexAStar(startWorld, endWorld, size)]. *)
Definition hexAStar (fuel : nat) (startWorld endWorld : Point) (size : R)
    : option (list Point) :=
  let start := pixelToCube (px startWorld) (py startWorld) size in
  let goal := pixelToCube (px endWorld) (py endWorld) size in
  match searchLoop fuel fuel goal (initialSearch start goal) with
  | None => None
  | Some (Some pathCubes) => Some (map (fun c => cubeToPixel c size) pathCubes)
  | Some None => Some [startWorld; endWorld]
  end.

Definition Point_eq_dec (a b : Point) : {a = b} + {a <> b}.
Proof.
  destruct a as [ax ay], b as [bx by_].
  destruct (Req_dec_T ax bx) as [-> | Hx]; [| right; congruence].
  destruct (Req_dec_T ay by_) as [-> | Hy]; [left; reflexivity | right; congruence].
Defined.

(** The loop that drops consecutive equal points. *)
Definition dedup_step (out : list Point) (p : Point) : list Point :=
  match List.last (map Some out) None with
  | Some l => if Point_eq_dec l p then out else out ++ [p]
  | None => out ++ [p]
  end.

(** [createHexPath(ax, ay, bx, by, size)]. *)
Definition createHexPath (fuel : nat) (ax ay bx by_ size : R) : option (list Point) :=
  let start := snapToHexVertex ax ay size in
  let end_ := snapToHexVertex bx by_ size in
  match hexAStar fuel start end_ size with
  | None => None
  | Some path =>
      if (length path =? 0)%nat then Some [start; end_]
      else Some (fold_left dedup_step path [])
  end.


(** *** Invariant and measure of the search

    [start] and [goal] are lattice vertices, [hexSteps] is their distance in
    lattice steps. *)

Definition valid (c : Cube) : Prop := (cq c + cr c + cs c = 0)%Z.

Definition hexSteps (a b : Cube) : Z :=
  ((Z.abs (cq a - cq b) + Z.abs (cr a - cr b) + Z.abs (cs a - cs b)) / 2)%Z.

(** What is still owed to a node that has left [open]: the full invariant
    owes all its neighbours, the state inside the loop over the neighbours
    of [c] owes [c] only those already visited. *)
Definition owes (exc : option (Cube * list Cube)) (n nb : Cube) : Prop :=
  nb ∈ getHexNeighbors n /\
  match exc with
  | Some (c, done) => n = c -> nb ∈ done
  | None => True
  end.

Record search_inv (start goal : Cube) (exc : option (Cube * list Cube)) (st : Search)
    : Prop := {
  si_start : gScore st !! start = Some 0%Z;
  si_range : forall (n : Cube) (v : Z), gScore st !! n = Some v ->
      (0 <= v <= hexSteps start goal + 1)%Z /\ valid n;
  si_f : forall (n : Cube) (v : Z), gScore st !! n = Some v ->
      exists fv : Q, fScore st !! n = Some fv /\
                     (fv == inject_Z v + inject_Z (hexSteps n goal))%Q;
  si_open_in : forall n : Cube, n ∈ open st <-> n ∈ inOpen st;
  si_open_nodup : NoDup (open st);
  si_open_g : forall n : Cube, n ∈ open st -> is_Some (gScore st !! n);
  si_came : forall n m : Cube, came st !! n = Some m ->
      exists vn vm : Z, gScore st !! n = Some vn /\ gScore st !! m = Some vm /\ (vm < vn)%Z;
  si_came_dom : forall (n : Cube) (v : Z), gScore st !! n = Some v ->
      n = start \/ is_Some (came st !! n);
  si_closed : forall (n : Cube) (v : Z), gScore st !! n = Some v -> n ∉ open st ->
      forall nb : Cube, owes exc n nb ->
      exists v' : Z, gScore st !! nb = Some v' /\ (v' <= v + 1)%Z;
  si_goal : goal ∉ open st -> gScore st !! goal = None
}.

(** The measure: over the cubes within [hexSteps start goal] of the goal,
    twice the g-score (or a cap for a node without one) plus one for a node
    in [open]. *)
Definition ball (goal : Cube) (radius : Z) : list Cube :=
  flat_map (fun dq =>
    map (fun dr => ((cq goal + dq)%Z, (cr goal + dr)%Z,
                    (- (cq goal + dq) - (cr goal + dr))%Z))
        (map (fun i => (Z.of_nat i - radius)%Z) (seq 0 (Z.to_nat (2 * radius + 1)))))
    (map (fun i => (Z.of_nat i - radius)%Z) (seq 0 (Z.to_nat (2 * radius + 1)))).

Definition weight (cap : Z) (st : Search) (n : Cube) : nat :=
  (2 * Z.to_nat (match gScore st !! n with Some v => v | None => cap end)
   + (if bool_decide (n ∈ inOpen st) then 1 else 0))%nat.

Definition potential (start goal : Cube) (st : Search) : nat :=
  list_sum (map (weight (hexSteps start goal + 2) st) (ball goal (hexSteps start goal))).

End HexGrid.

(** * Waypoints of a line (lines.js and hexgrid.js)

    The part of the game that [rebuildWaypointsForLine] reads and writes,
    with coordinates in the reals: the router works with [sqrt 3]. *)
Module Router.

Import HexGrid.
Local Open Scope R_scope.

Module RStation.
Record t : Type := mk {
    x : R;
    y : R;
    isInterchange : bool;
    isFinal : bool
  }.
End RStation.

Module RLine.
Record t : Type := mk {
    id : nat;
    stations : list nat;
    waypoints : option (list Point)
  }.
Definition with_waypoints (w : option (list Point)) (l : t) : t :=
  mk (id l) (stations l) w.
End RLine.

(** [config.hexGrid]; the three optional entries are read with [??]. *)
Module HexConfig.
Record t : Type := mk {
    size : R;
    bundleThreshold : option R;
    corridorSpacing : option R;
    terminalBubbleRadius : option R
  }.
End HexConfig.

Module RGame.
(** Modelled from the spec: [hexCache] is the route cache of hexgrid.js.  The
    source of hexgrid.js has neither the cache nor [clearHexCache], which
    lines.js imports from it; the implementation guide gives the cache as a
    map from a key made of the two endpoints to a path. *)
Record t : Type := mk {
    stations : list RStation.t;
    lines : list RLine.t;
    hexGrid : HexConfig.t;
    hexCache : list (Point * Point * list Point)
  }.
Definition with_lines (ls : list RLine.t) (g : t) : t :=
  mk (stations g) ls (hexGrid g) (hexCache g).
Definition with_hexCache (c : list (Point * Point * list Point)) (g : t) : t :=
  mk (stations g) (lines g) (hexGrid g) c.
End RGame.

(** Modelled from the spec: [clearHexCache() { hexCache.clear(); }], as the
    implementation guide has it. *)
Definition clearHexCache (g : RGame.t) : RGame.t := RGame.with_hexCache [] g.

Definition DEFAULT_BUNDLE_THRESHOLD : R := 30.
Definition DEFAULT_CORRIDOR_SPACING : R := 15.

Definition Math_hypot (a b : R) : R := sqrt (a * a + b * b).

(** [Math.atan2(y, x)] (signed zeros apart). *)
Definition Math_atan2 (y x : R) : R :=
  if Rlt_dec 0 x then atan (y / x)
  else if Rlt_dec x 0 then
    if Rlt_dec y 0 then atan (y / x) - PI else atan (y / x) + PI
  else if Rlt_dec 0 y then PI / 2
  else if Rlt_dec y 0 then - (PI / 2)
  else 0.

Definition vec (ax ay bx by_ : R) : Point := mkPoint (bx - ax) (by_ - ay).

(** [Math.hypot(v.x, v.y) || 1]. *)
Definition vlen (v : Point) : R :=
  let h := Math_hypot (px v) (py v) in
  if Req_dec_T h 0 then 1 else h.

Definition vnorm (v : Point) : Point :=
  let l := vlen v in mkPoint (px v / l) (py v / l).

Definition dot (a b : Point) : R := px a * px b + py a * py b.

Definition segmentMid (A B : Point) : Point :=
  mkPoint ((px A + px B) / 2) ((py A + py B) / 2).

Definition perpendicular (u : Point) : Point := mkPoint (- py u) (px u).

Record Parallel : Type := mkParallel { lineId : nat; index : nat; side : R }.

(** [Math.sign(d) || 1]. *)
Definition signOr1 (d : R) : R := if Rlt_dec d 0 then -1 else 1.

Definition findParallelSegments (start end_ : Point) (existingLines : list RLine.t)
    (bundleThreshold angleCosThr : R) : list Parallel :=
  let u := vnorm (vec (px start) (py start) (px end_) (py end_)) in
  let n := perpendicular u in
  let mid := segmentMid start end_ in
  flat_map
    (fun line =>
       match RLine.waypoints line with
       | Some pts =>
           if (2 <=? length pts)%nat then
             flat_map
               (fun i =>
                  match pts !! i, pts !! S i with
                  | Some A, Some B =>
                      let v := vnorm (vec (px A) (py A) (px B) (py B)) in
                      let cosang := Rabs (dot u v) in
                      if Rlt_dec cosang angleCosThr then []
                      else
                        let mid2 := segmentMid A B in
                        let across :=
                          dot (mkPoint (px mid2 - px mid) (py mid2 - py mid)) n in
                        if Rle_dec (Rabs across) bundleThreshold
                        then [mkParallel (RLine.id line) i (signOr1 across)]
                        else []
                  | _, _ => []
                  end)
               (seq 0 (length pts - 1))
           else []
       | None => []
       end)
    existingLines.

Definition applyCorridorBundling (path : list Point) (game : RGame.t)
    (currentLine : RLine.t) : list Point :=
  if (length path <? 2)%nat then path
  else
    let cfg := RGame.hexGrid game in
    let bundleThreshold := default DEFAULT_BUNDLE_THRESHOLD (HexConfig.bundleThreshold cfg) in
    let spacing := default DEFAULT_CORRIDOR_SPACING (HexConfig.corridorSpacing cfg) in
    let angleCosThr := cos (30 * PI / 180) in
    let existing :=
      List.filter (fun l => negb (RLine.id l =? RLine.id currentLine)%nat)
                  (RGame.lines game) in
    flat_map
      (fun i =>
         match path !! i, path !! S i with
         | Some segStart, Some segEnd =>
             let parallels :=
               findParallelSegments segStart segEnd existing bundleThreshold angleCosThr in
             let isLastSegment := (i =? length path - 2)%nat in
             if (0 <? length parallels)%nat then
               let avgSide :=
                 fold_left (fun s p => s + side p) parallels 0 / INR (length parallels) in
               let side := if Rle_dec 0 avgSide then 1 else -1 in
               let u := vnorm (vec (px segStart) (py segStart) (px segEnd) (py segEnd)) in
               let n := perpendicular u in
               let off := spacing * side in
               let sPt := mkPoint (px segStart + px n * off) (py segStart + py n * off) in
               let ePt := mkPoint (px segEnd + px n * off) (py segEnd + py n * off) in
               sPt :: (if isLastSegment then [ePt] else [])
             else segStart :: (if isLastSegment then [segEnd] else [])
         | _, _ => []
         end)
      (seq 0 (length path - 1)).

Definition snapAngleTo30 (rad : R) : R :=
  let step := PI / 6 in IZR (Math_roundR (rad / step)) * step.

Definition pointOnCircle (cx cy r ang : R) : Point :=
  mkPoint (cx + r * cos ang) (cy + r * sin ang).

Definition isHubStation (s : option RStation.t) : bool :=
  match s with
  | Some st => RStation.isInterchange st || RStation.isFinal st
  | None => false
  end.

(** [out.splice(i, 0, p)]. *)
Definition spliceIn (i : nat) (p : Point) (out : list Point) : list Point :=
  take i out ++ p :: drop i out.

Definition applyTerminalBubbles (path : list Point)
    (startStation endStation : option RStation.t) (game : RGame.t) : list Point :=
  if (length path <? 2)%nat then path
  else
    let radius := default 88 (HexConfig.terminalBubbleRadius (RGame.hexGrid game)) in
    let out := path in
    let out1 :=
      match startStation, out !! 1%nat with
      | Some s, Some next =>
          if isHubStation startStation then
            let ang := Math_atan2 (py next - RStation.y s) (px next - RStation.x s) in
            let san := snapAngleTo30 ang in
            spliceIn 1 (pointOnCircle (RStation.x s) (RStation.y s) radius san) out
          else out
      | _, _ => out
      end in
    match endStation, out1 !! (length out1 - 2)%nat with
    | Some e, Some prev =>
        if isHubStation endStation then
          let ang := Math_atan2 (RStation.y e - py prev) (RStation.x e - px prev) in
          let san := snapAngleTo30 ang in
          spliceIn (length out1 - 1)
                   (pointOnCircle (RStation.x e) (RStation.y e) radius san) out1
        else out1
    | _, _ => out1
    end.

(** The points that iteration [i] of the loop of [rebuildWaypointsForLine]
    pushes on [pts]: none when a station is missing ([continue]). *)
Definition segmentPoints (fuel : nat) (game : RGame.t) (line : RLine.t) (i : nat)
    : option (list Point) :=
  match RLine.stations line !! i, RLine.stations line !! S i with
  | Some a, Some b =>
      match RGame.stations game !! a, RGame.stations game !! b with
      | Some A, Some B =>
          match createHexPath fuel (RStation.x A) (RStation.y A)
                  (RStation.x B) (RStation.y B) (HexConfig.size (RGame.hexGrid game)) with
          | None => None
          | Some seg =>
              let isFirst := (i =? 0)%nat in
              let isLast := (i =? length (RLine.stations line) - 2)%nat in
              let startSta := if isFirst then Some A else None in
              let endSta := if isLast then Some B else None in
              let seg1 :=
                if isFirst || isLast
                then applyTerminalBubbles seg startSta endSta game else seg in
              Some (if (0 <? i)%nat && (0 <? length seg1)%nat then tail seg1 else seg1)
          end
      | _, _ => Some []
      end
  | _, _ => Some []
  end.

Definition pushSegment (fuel : nat) (game : RGame.t) (line : RLine.t)
    (pts : option (list Point)) (i : nat) : option (list Point) :=
  match pts with
  | None => None
  | Some ps =>
      match segmentPoints fuel game line i with
      | None => None
      | Some seg => Some (ps ++ seg)
      end
  end.

(** [rebuildWaypointsForLine(game, line)] for the line object at index [k] of
    [game.lines]: the call writes the [waypoints] of that object.  There is
    no result when [line] is undefined (the call throws on
    [line.waypoints = null]) or when the fuel of a search runs out. *)
Definition rebuildWaypointsForLine (fuel : nat) (game : RGame.t) (k : nat)
    : option RGame.t :=
  match RGame.lines game !! k with
  | None => None
  | Some line =>
      let game0 := clearHexCache game in
      if (length (RLine.stations line) <? 2)%nat then
        Some (RGame.with_lines
                (<[k := RLine.with_waypoints None line]> (RGame.lines game0)) game0)
      else
        match fold_left (pushSegment fuel game0 line)
                (seq 0 (length (RLine.stations line) - 1)) (Some []) with
        | None => None
        | Some pts =>
            Some (RGame.with_lines
                    (<[k := RLine.with_waypoints
                              (Some (applyCorridorBundling pts game0 line)) line]>
                       (RGame.lines game0)) game0)
        end
  end.

(** Two stations on the x axis, the second one a hub, and a line between
    them. *)
Definition stationAt (x : R) (hub : bool) : RStation.t := RStation.mk x 0 hub false.

Definition hexGrid0 : HexConfig.t := HexConfig.mk 44 (Some 30) (Some 15) (Some 88).

Definition gameTwoStations : RGame.t :=
  RGame.mk [stationAt 0 false; stationAt 132 true]
           [RLine.mk 0 [0; 1]%nat None] hexGrid0 [].

End Router.


(** * main.js: undo *)

Module Undo.

(** The loop of [undo] that rebuilds the connections: every station starts
    with none and gets the id of a line once for every time the line names
    it. *)
Definition pushConnection (lineId : nat) (stations : list Station.t) (stationIdx : nat)
    : list Station.t :=
  match stations !! stationIdx with
  | Some s =>
      <[stationIdx := Station.with_connections (Station.connections s ++ [lineId]) s]> stations
  | None => stations
  end.

Definition rebuildConnections (lines : list Line.t) (stations : list Station.t)
    : list Station.t :=
  fold_left (fun sts line => fold_left (pushConnection (Line.id line)) (Line.stations line) sts)
            lines (map (Station.with_connections []) stations).

(** [undo()]: pops the newest snapshot and restores the lines, the trains
    and the four counters from it; the result tells whether there was one. *)
Definition undo (g : Game.t) : Game.t * bool :=
  match last (Game.undoStack g) with
  | None => (g, false)
  | Some snapshot =>
      (Game.mk (Game.config g)
         (rebuildConnections (Snapshot.lines snapshot) (Game.stations g))
         (Snapshot.lines snapshot) (Snapshot.trains snapshot)
         (Snapshot.score snapshot) (Game.totalPassengers g)
         (Snapshot.linesAvailable snapshot) (Snapshot.trainsAvailable snapshot)
         (Snapshot.tunnels snapshot) (Game.carriages g) (Game.day g)
         (Game.gameTime g) (Game.gameOver g) (Game.goReason g) (Game.combo g)
         (removelast (Game.undoStack g)),
       true)
  end.

End Undo.

(** * intersections.js: segments and polygons *)

Module Intersections.

Local Open Scope Q_scope.

Record Pt : Type := mkPt { x : Q; y : Q }.

(** The tolerance [1e-9]. *)
Definition tolerance : Q := 1 # 1000000000.

(** [orientation(a, b, c)]: 0 for three points on a line (within the
    tolerance), 1 and 2 for the two senses of rotation. *)
Definition orientation (a b c : Pt) : Z :=
  let val := (y b - y a) * (x c - x b) - (x b - x a) * (y c - y b) in
  if Qltb (Qabs val) tolerance then 0%Z
  else if Qltb 0 val then 1%Z else 2%Z.

Definition onSeg (a b c : Pt) : bool :=
  Qleb (Qmin (x a) (x c) - tolerance) (x b) && Qleb (x b) (Qmax (x a) (x c) + tolerance)
  && Qleb (Qmin (y a) (y c) - tolerance) (y b) && Qleb (y b) (Qmax (y a) (y c) + tolerance).

Definition segSegIntersect (p p2 q q2 : Pt) : bool :=
  let o1 := orientation p p2 q in
  let o2 := orientation p p2 q2 in
  let o3 := orientation q q2 p in
  let o4 := orientation q q2 p2 in
  if negb (o1 =? o2)%Z && negb (o3 =? o4)%Z then true
  else if (o1 =? 0)%Z && onSeg p q p2 then true
  else if (o2 =? 0)%Z && onSeg p q2 p2 then true
  else if (o3 =? 0)%Z && onSeg q p q2 then true
  else if (o4 =? 0)%Z && onSeg q p2 q2 then true
  else false.

(** [segmentCrossesPolygon(A, B, poly)]: some edge of the polygon, the one
    from the last vertex back to the first included, meets the segment. *)
Definition segmentCrossesPolygon (A B : Pt) (poly : list Pt) : bool :=
  let n := length poly in
  existsb (fun i =>
             match poly !! i, poly !! ((i + 1) mod n)%nat with
             | Some C, Some D => segSegIntersect A B C D
             | _, _ => false
             end) (seq 0 n).

End Intersections.

(** * lines.js: finding the line under the pointer *)

Module Picking.

Import HexGrid.
Local Open Scope R_scope.

(** [distanceToLineSegment(px, py, x1, y1, x2, y2)]. *)
Definition distanceToLineSegment (px py x1 y1 x2 y2 : R) : R :=
  let A := px - x1 in
  let B := py - y1 in
  let C := x2 - x1 in
  let D := y2 - y1 in
  let lenSq := C * C + D * D in
  if Req_dec_T lenSq 0 then Router.Math_hypot A B
  else
    let t := Rmax 0 (Rmin 1 ((A * C + B * D) / lenSq)) in
    let projX := x1 + t * C in
    let projY := y1 + t * D in
    Router.Math_hypot (px - projX) (py - projY).

(** [findStationSegmentForWaypoint(line, waypointIndex)]; there is no result
    for a line without waypoints (the source reads the length of [null]). *)
Definition findStationSegmentForWaypoint (line : Router.RLine.t) (waypointIndex : nat)
    : option Z :=
  match Router.RLine.waypoints line with
  | None => None
  | Some waypoints =>
      let stationSegments := (Z.of_nat (length (Router.RLine.stations line)) - 1)%Z in
      let waypointSegments := (Z.of_nat (length waypoints) - 1)%Z in
      let ratio := (inject_Z (Z.of_nat waypointIndex) / inject_Z waypointSegments)%Q in
      Some (Math_floor (ratio * inject_Z stationSegments)%Q)
  end.

End Picking.

(** * Further example data *)

Module MoreExamples.

Local Open Scope Q_scope.

(** The arrival of [Examples.gameArrival] with a train of capacity 10; of
    the two passengers for C that wait at B, the second one has a connection
    time still ahead. *)
Definition trainWide : Train.t :=
  Train.mk 0 0 (4 # 10) 1 [Examples.passengerTo 1 0; Examples.passengerTo 2 0]
           10 (1 # 10) 0 0 0.

Definition stationWideB : Station.t :=
  Station.with_queue [Examples.passengerTo 2 1000; Examples.passengerTo 2 90000]
    (Station.with_connections [0%nat] (Examples.station0 1 "B" 300 400 true)).

Definition stationsWide : list Station.t :=
  [ Station.with_connections [0%nat] (Examples.station0 0 "A" 0 0 false);
    stationWideB;
    Station.with_connections [0%nat] (Examples.station0 2 "C" 600 800 false) ].

Definition lineWide : Line.t := Line.with_trains [0%nat] Examples.lineABC.

Definition gameWide : Game.t :=
  Examples.game0 stationsWide [lineWide] [trainWide] 5 20000.

(** The train and the station B after that arrival: the passenger for B has
    left the train, the first of the two waiting passengers has boarded. *)
Definition trainWideAfter : Train.t :=
  Train.with_passengers [Examples.passengerTo 2 0; Examples.passengerTo 2 1000] trainWide.

Definition stationWideAfter : Station.t :=
  Station.with_queue [Examples.passengerTo 2 90000] stationWideB.

(** A train that dwells at B for another 400 ms. *)
Definition trainDwelling : Train.t :=
  Train.mk 0 0 (1 # 2) 1 [Examples.passengerTo 2 0] 10 (1 # 10) 1 600 400.

Definition gameDwelling : Game.t :=
  Examples.game0 Examples.threeStations [Line.with_trains [0%nat] Examples.lineABC]
                 [trainDwelling] 5 20000.

(** A game whose undo stack holds one snapshot, of a state whose only line
    ran from A to C. *)
Definition snapshotAC : Snapshot.t :=
  Snapshot.mk [Line.mk 0 [0; 2]%nat 0 false [] None 1000] [] 7 3 2 0.

Definition gameWithSnapshot : Game.t :=
  Game.with_undoStack [snapshotAC] Examples.gameABC.

End MoreExamples.

Module RouterExamples.

Import HexGrid Router.
Local Open Scope R_scope.

(** A line with a single station: it has no waypoints to build. *)
Definition gameShortLine : RGame.t :=
  RGame.mk [stationAt 0 false; stationAt 132 true]
           [RLine.mk 0 [0%nat] (Some [mkPoint 0 0; mkPoint 66 0])] hexGrid0 [].

(** A line of three stations with three waypoints. *)
Definition lineThree : RLine.t :=
  RLine.mk 0 [0; 1; 2]%nat (Some [mkPoint 0 0; mkPoint 66 0; mkPoint 132 0]).

End RouterExamples.

(** * Properties *)

(** ** Arithmetic of possibly infinite numbers *)

Section NumFacts.

Local Open Scope Q_scope.

Lemma Qltb_true (a b : Q) : Qltb a b = true <-> a < b.
Proof.
  unfold Qltb. rewrite negb_true_iff. split; intros H.
  - destruct (Qlt_le_dec a b) as [L | L]; [exact L |].
    apply Qle_bool_iff in L. congruence.
  - destruct (Qle_bool b a) eqn:E; [| reflexivity].
    apply Qle_bool_iff in E. lra.
Qed.

Lemma Qltb_false (a b : Q) : Qltb a b = false <-> b <= a.
Proof.
  unfold Qltb. rewrite negb_false_iff. apply Qle_bool_iff.
Qed.

Lemma Qleb_true (a b : Q) : Qleb a b = true <-> a <= b.
Proof. apply Qle_bool_iff. Qed.

Lemma Qleb_false (a b : Q) : Qleb a b = false <-> b < a.
Proof.
  unfold Qleb. split; intros H.
  - destruct (Qlt_le_dec b a) as [L | L]; [exact L |].
    apply Qle_bool_iff in L. congruence.
  - destruct (Qle_bool a b) eqn:E; [| reflexivity].
    apply Qle_bool_iff in E. lra.
Qed.

Lemma nle_refl a : nle a a.
Proof. destruct a; simpl; [lra | exact I]. Qed.

Lemma nle_trans a b c : nle a b -> nle b c -> nle a c.
Proof. destruct a, b, c; simpl; try tauto; lra. Qed.

Lemma neq_nle a b : neq a b -> nle a b.
Proof. destruct a, b; simpl; try tauto; lra. Qed.

Lemma neq_sym a b : neq a b -> neq b a.
Proof. destruct a, b; simpl; try tauto; lra. Qed.

Lemma nltb_false_nle a b : nltb a b = false -> nle b a.
Proof.
  destruct a, b; simpl; try congruence; try tauto.
  apply Qltb_false.
Qed.

Lemma nltb_true_nle a b : nltb a b = true -> nle a b.
Proof.
  destruct a, b; simpl; try congruence; try tauto.
  intros H. apply Qltb_true in H. lra.
Qed.

Lemma nadd_mono a b c d : nle a b -> nle c d -> nle (nadd a c) (nadd b d).
Proof. destruct a, b, c, d; simpl; try tauto; lra. Qed.

Lemma nle_nadd_l a b : nle (Fin 0) a -> nle b (nadd a b).
Proof. destruct a, b; simpl; try tauto; lra. Qed.

End NumFacts.

(** ** The station graph *)

Section GraphFacts.

Lemma set_add_elem (b x : nat) (s : list nat) : x ∈ set_add b s <-> x ∈ s \/ x = b.
Proof.
  unfold set_add. case_bool_decide as Hb.
  - split; [tauto |]. intros [H | ->]; assumption.
  - rewrite elem_of_app, list_elem_of_singleton. tauto.
Qed.

Lemma adj_add_length (a b : nat) (adj : list (list nat)) :
  length (adj_add a b adj) = length adj.
Proof.
  unfold adj_add. destruct (adj !! a); [apply length_insert | reflexivity].
Qed.

Lemma adj_add_has (a b u v : nat) (adj : list (list nat)) :
  (a < length adj)%nat ->
  adj_has (adj_add a b adj) u v <-> adj_has adj u v \/ (u = a /\ v = b).
Proof.
  intros Ha. unfold adj_add, adj_has.
  destruct (lookup_lt_is_Some_2 adj a Ha) as [s Hs]. rewrite Hs.
  destruct (decide (u = a)) as [-> | Hne].
  - rewrite list_lookup_insert_eq by exact Ha. split.
    + intros (s' & E & Hv). injection E as <-. apply set_add_elem in Hv.
      destruct Hv as [Hv | ->]; [left; eauto | right; auto].
    + intros [(s' & E & Hv) | [_ ->]].
      * exists (set_add b s). split; [reflexivity |].
        apply set_add_elem. left. congruence.
      * exists (set_add b s). split; [reflexivity |]. apply set_add_elem. auto.
  - rewrite list_lookup_insert_ne by congruence. split; [auto |].
    intros [H | [E _]]; [exact H | contradiction].
Qed.

Lemma add_line_edges_length (sts : list nat) (adj : list (list nat)) :
  length (add_line_edges sts adj) = length adj.
Proof.
  revert adj. induction sts as [| a rest IH]; intros adj; [reflexivity |].
  destruct rest as [| b rest']; [reflexivity |].
  change (length (add_line_edges (b :: rest') (adj_add b a (adj_add a b adj))) = length adj).
  rewrite IH, !adj_add_length. reflexivity.
Qed.

Lemma consecutive_cons (a : nat) (rest : list nat) (u v : nat) :
  consecutive (a :: rest) u v <->
  (u = a /\ rest !! 0%nat = Some v) \/ consecutive rest u v.
Proof.
  unfold consecutive. split.
  - intros ([| i] & H1 & H2); simpl in *.
    + left. split; congruence.
    + right. eauto.
  - intros [[-> H] | (i & H1 & H2)].
    + exists 0%nat. auto.
    + exists (S i). auto.
Qed.

Lemma add_line_edges_has (sts : list nat) (adj : list (list nat)) (u v : nat) :
  (forall s : nat, s ∈ sts -> (s < length adj)%nat) ->
  adj_has (add_line_edges sts adj) u v <->
  adj_has adj u v \/ consecutive sts u v \/ consecutive sts v u.
Proof.
  revert adj. induction sts as [| a rest IH]; intros adj Hr.
  - simpl. unfold consecutive. split; [auto |].
    intros [H | [(i & H & _) | (i & H & _)]]; [exact H | |]; discriminate.
  - destruct rest as [| b rest'].
    + simpl. unfold consecutive. split; [auto |].
      intros [H | [(i & _ & H) | (i & _ & H)]]; [exact H | |]; discriminate.
    + change (add_line_edges (a :: b :: rest') adj)
        with (add_line_edges (b :: rest') (adj_add b a (adj_add a b adj))).
      assert (Ha : (a < length adj)%nat) by (apply Hr; left).
      assert (Hb : (b < length adj)%nat) by (apply Hr; right; left).
      rewrite IH.
      2:{ intros s Hs. rewrite !adj_add_length. apply Hr. right. exact Hs. }
      rewrite adj_add_has by (rewrite adj_add_length; exact Hb).
      rewrite adj_add_has by exact Ha.
      rewrite (consecutive_cons a (b :: rest') u v).
      rewrite (consecutive_cons a (b :: rest') v u).
      simpl. split.
      * intros [[[H | [-> ->]] | [-> ->]] | [H | H]]; auto 6.
      * intros [H | [[[-> E] | H] | [[-> E] | H]]]; auto 6.
        -- injection E as <-. auto 6.
        -- injection E as <-. auto 6.
Qed.

Lemma add_line_length (adj : list (list nat)) (line : Line.t) :
  length (add_line adj line) = length adj.
Proof.
  unfold add_line. destruct (length (Line.stations line) <? 2)%nat; [reflexivity |].
  apply add_line_edges_length.
Qed.

Lemma add_line_has (adj : list (list nat)) (line : Line.t) (u v : nat) :
  (forall s : nat, s ∈ Line.stations line -> (s < length adj)%nat) ->
  adj_has (add_line adj line) u v <->
  adj_has adj u v \/ consecutive (Line.stations line) u v
                  \/ consecutive (Line.stations line) v u.
Proof.
  intros Hr. unfold add_line.
  destruct (length (Line.stations line) <? 2)%nat eqn:E.
  - apply Nat.ltb_lt in E. split; [auto |].
    assert (Hno : forall a b, ~ consecutive (Line.stations line) a b).
    { intros a b (i & H1 & H2). apply lookup_lt_Some in H2. lia. }
    intros [H | [H | H]]; [exact H | |]; exfalso; eapply Hno; exact H.
  - apply add_line_edges_has. exact Hr.
Qed.

Lemma fold_add_line_length (ls : list Line.t) (adj : list (list nat)) :
  length (fold_left add_line ls adj) = length adj.
Proof.
  revert adj. induction ls as [| l ls IH]; intros adj; [reflexivity |].
  simpl. rewrite IH. apply add_line_length.
Qed.

Lemma fold_add_line_has (ls : list Line.t) (adj : list (list nat)) (u v : nat) :
  (forall line : Line.t, line ∈ ls ->
   forall s : nat, s ∈ Line.stations line -> (s < length adj)%nat) ->
  adj_has (fold_left add_line ls adj) u v <->
  adj_has adj u v \/
  exists line : Line.t, line ∈ ls /\
    (consecutive (Line.stations line) u v \/ consecutive (Line.stations line) v u).
Proof.
  revert adj. induction ls as [| l ls IH]; intros adj Hr.
  - simpl. split; [auto |]. intros [H | (line & Hin & _)]; [exact H |].
    inversion Hin.
  - simpl. rewrite IH.
    2:{ intros line Hin s Hs. rewrite add_line_length. apply (Hr line); [right |]; assumption. }
    rewrite add_line_has by (apply Hr; left).
    split.
    + intros [[H | H] | (line & Hin & H)]; [auto | |].
      * right. exists l. split; [left | exact H].
      * right. exists line. split; [right; exact Hin | exact H].
    + intros [H | (line & Hin & H)]; [auto |].
      apply elem_of_cons in Hin. destruct Hin as [-> | Hin]; [auto |].
      right. exists line. auto.
Qed.

Lemma buildStationGraph_length (g : Game.t) :
  length (buildStationGraph g) = length (Game.stations g).
Proof.
  unfold buildStationGraph. rewrite fold_add_line_length. apply length_replicate.
Qed.

(** The adjacency lists hold exactly the links of the line network. *)
Lemma buildStationGraph_linked (g : Game.t) (u v : nat) :
  lines_in_range g ->
  adj_has (buildStationGraph g) u v <-> linked g u v.
Proof.
  intros Hr. unfold buildStationGraph. rewrite fold_add_line_has.
  - unfold linked. split.
    + intros [(s & Hs & Hv) | H]; [| exact H].
      apply lookup_replicate in Hs. destruct Hs as [-> _]. inversion Hv.
    + auto.
  - intros line Hin s Hs. rewrite length_replicate. exact (Hr line Hin s Hs).
Qed.

Lemma linked_sym (g : Game.t) (u v : nat) : linked g u v -> linked g v u.
Proof. intros (line & Hin & H). exists line. tauto. Qed.

End GraphFacts.

(** ** The ETA table is a table of shortest routes *)

Section EtaFacts.

Local Open Scope Q_scope.

Variable hypot : Q -> Q -> Q.
Hypothesis hypot_nonneg : forall dx dy : Q, 0 <= hypot dx dy.

Lemma edgeTimeMs_nonneg (g : Game.t) (a b : nat) : nle (Fin 0) (edgeTimeMs hypot g a b).
Proof.
  unfold edgeTimeMs.
  destruct (Game.stations g !! a) as [A |]; [| exact I].
  destruct (Game.stations g !! b) as [B |]; [| exact I].
  simpl.
  set (sp := or_default (Config.trainSpeed (Game.config g)) (6 # 100)).
  assert (Hpos : 0 < Qmax (1 # 1000000) sp).
  { apply Qlt_le_trans with (1 # 1000000); [reflexivity | apply Q.le_max_l]. }
  apply Qle_shift_div_l; [exact Hpos |].
  rewrite Qmult_0_l. apply hypot_nonneg.
Qed.

Lemma nodeTransferMs_nonneg (g : Game.t) (u d : nat) :
  mct_nonneg g -> 0 <= nodeTransferMs g u d.
Proof.
  intros Hm. unfold nodeTransferMs.
  destruct (u =? d)%nat; [lra |].
  destruct (Game.stations g !! u) as [s |] eqn:E; [| lra].
  apply (Hm s). eapply list_elem_of_lookup_2. exact E.
Qed.

Lemma step_cost_nonneg (g : Game.t) (d v u : nat) :
  mct_nonneg g -> nle (Fin 0) (step_cost hypot g d v u).
Proof.
  intros Hm. unfold step_cost.
  pose proof (edgeTimeMs_nonneg g v u) as He.
  pose proof (nodeTransferMs_nonneg g u d Hm) as Ht.
  destruct (edgeTimeMs hypot g v u); simpl in *; [lra | exact I].
Qed.

(** *** The selection scan *)

Lemma select_scan (eta : list num) (visited : list bool) (n a : nat)
    (acc : option nat * num) :
  (match fst acc with
   | None => snd acc = Infinity
   | Some k => (k < a)%nat /\ is_visited visited k = false /\
               snd acc = eta_get eta k /\ isFinite (snd acc) = true
   end) ->
  (forall i : nat, (i < a)%nat -> is_visited visited i = false ->
                   nle (snd acc) (eta_get eta i)) ->
  let r := fold_left (select_step eta visited) (seq a n) acc in
  (match fst r with
   | None => snd r = Infinity
   | Some k => (k < a + n)%nat /\ is_visited visited k = false /\
               snd r = eta_get eta k /\ isFinite (snd r) = true
   end) /\
  (forall i : nat, (i < a + n)%nat -> is_visited visited i = false ->
                   nle (snd r) (eta_get eta i)).
Proof.
  revert a acc. induction n as [| n IH]; intros a acc H1 H2; simpl.
  - rewrite Nat.add_0_r. auto.
  - replace (a + S n)%nat with (S a + n)%nat by lia.
    apply IH.
    + unfold select_step. fold (is_visited visited a).
      destruct (is_visited visited a) eqn:Ev; simpl.
      * destruct (fst acc); [| exact H1].
        destruct H1 as (? & ? & ? & ?). repeat split; auto.
      * destruct (nltb (eta_get eta a) (snd acc)) eqn:El; simpl.
        -- repeat split; auto.
           destruct (eta_get eta a); [reflexivity | discriminate].
        -- destruct (fst acc); [| exact H1].
           destruct H1 as (? & ? & ? & ?). repeat split; auto.
    + intros i Hi Hv. unfold select_step. fold (is_visited visited a).
      destruct (decide (i = a)) as [-> | Hne].
      * rewrite Hv. simpl.
        destruct (nltb (eta_get eta a) (snd acc)) eqn:El; simpl.
        -- apply nle_refl.
        -- apply nltb_false_nle. exact El.
      * assert (Hlt : (i < a)%nat) by lia.
        specialize (H2 i Hlt Hv).
        destruct (negb (is_visited visited a) && nltb (eta_get eta a) (snd acc)) eqn:Eb;
          simpl; [| exact H2].
        apply andb_true_iff in Eb. destruct Eb as [_ Eb].
        eapply nle_trans; [apply nltb_true_nle; exact Eb | exact H2].
Qed.

Lemma select_min_Some (N : nat) (eta : list num) (visited : list bool) (u : nat) :
  select_min N eta visited = Some u ->
  (u < N)%nat /\ is_visited visited u = false /\ isFinite (eta_get eta u) = true /\
  forall i : nat, (i < N)%nat -> is_visited visited i = false ->
                  nle (eta_get eta u) (eta_get eta i).
Proof.
  unfold select_min. intros E.
  destruct (select_scan eta visited N 0 (None, Infinity)) as [H1 H2].
  - reflexivity.
  - intros i Hi. lia.
  - simpl in H1, H2. rewrite E in H1. destruct H1 as (Hu & Hv & Hs & Hf).
    rewrite Hs in Hf, H2. auto.
Qed.

Lemma select_min_None (N : nat) (eta : list num) (visited : list bool) :
  select_min N eta visited = None ->
  forall i : nat, (i < N)%nat -> is_visited visited i = false -> eta_get eta i = Infinity.
Proof.
  unfold select_min. intros E i Hi Hv.
  destruct (select_scan eta visited N 0 (None, Infinity)) as [H1 H2].
  - reflexivity.
  - intros j Hj. lia.
  - simpl in H1, H2. rewrite E in H1. specialize (H2 i Hi Hv). rewrite H1 in H2.
    destruct (eta_get eta i); [contradiction | reflexivity].
Qed.


(** *** Relaxation *)

Section Relax.

Variable g : Game.t.
Variables d u : nat.
Hypothesis Hmct : mct_nonneg g.

Lemma eta_get_insert (eta : list num) (v x : nat) (a : num) :
  (v < length eta)%nat ->
  eta_get (<[v := a]> eta) x = if decide (v = x) then a else eta_get eta x.
Proof.
  intros Hv. unfold eta_get. destruct (decide (v = x)) as [-> | Hne].
  - rewrite list_lookup_insert_eq by exact Hv. reflexivity.
  - rewrite list_lookup_insert_ne by exact Hne. reflexivity.
Qed.

Lemma eta_get_out (eta : list num) (v : nat) :
  (length eta <= v)%nat -> eta_get eta v = Infinity.
Proof.
  intros Hv. unfold eta_get. rewrite lookup_ge_None_2 by exact Hv. reflexivity.
Qed.

Lemma relax_length (eta : list num) (v : nat) :
  length (relax hypot g d u eta v) = length eta.
Proof.
  unfold relax. destruct (nltb _ _); [apply length_insert | reflexivity].
Qed.

(** A cell either keeps its content or receives [step_cost + eta[u]], which
    is then strictly below the old content. *)
Lemma relax_cell (eta : list num) (v x : nat) :
  relax hypot g d u eta v !! x = eta !! x \/
  (x = v /\ (v < length eta)%nat /\
   eta_get (relax hypot g d u eta v) x = nadd (step_cost hypot g d v u) (eta_get eta u) /\
   nltb (eta_get (relax hypot g d u eta v) x) (eta_get eta x) = true).
Proof.
  unfold relax. fold (step_cost hypot g d v u).
  destruct (nltb (nadd (step_cost hypot g d v u) (eta_get eta u)) (eta_get eta v)) eqn:E;
    [| left; reflexivity].
  destruct (decide (v = x)) as [<- | Hne].
  - destruct (le_lt_dec (length eta) v) as [Hout | Hin].
    + left. rewrite list_insert_ge by exact Hout. reflexivity.
    + right. rewrite eta_get_insert by exact Hin.
      destruct (decide (v = v)); [| contradiction]. auto.
  - left. apply list_lookup_insert_ne. exact Hne.
Qed.

Lemma nltb_nadd_self (a b : num) : nle (Fin 0) a -> nltb (nadd a b) b = false.
Proof.
  destruct a, b; simpl; try reflexivity; try contradiction.
  intros H. apply Qltb_false. lra.
Qed.

Lemma relax_keeps_u (eta : list num) (v : nat) :
  relax hypot g d u eta v !! u = eta !! u.
Proof.
  destruct (relax_cell eta v u) as [H | (-> & _ & E1 & E2)]; [exact H |].
  rewrite E1 in E2.
  rewrite nltb_nadd_self in E2 by (apply step_cost_nonneg; assumption).
  discriminate.
Qed.

Lemma relax_after (eta : list num) (v : nat) :
  (v < length eta)%nat ->
  nle (eta_get (relax hypot g d u eta v) v)
      (nadd (step_cost hypot g d v u) (eta_get eta u)).
Proof.
  intros Hin. unfold relax. fold (step_cost hypot g d v u).
  destruct (nltb (nadd (step_cost hypot g d v u) (eta_get eta u)) (eta_get eta v)) eqn:E.
  - rewrite eta_get_insert by exact Hin.
    destruct (decide (v = v)); [apply nle_refl | contradiction].
  - apply nltb_false_nle. exact E.
Qed.

Lemma eta_get_ext (eta eta' : list num) (x : nat) :
  eta' !! x = eta !! x -> eta_get eta' x = eta_get eta x.
Proof. unfold eta_get. intros ->. reflexivity. Qed.

Lemma nltb_trans (a b c : num) : nltb a b = true -> nle b c -> nltb a c = true.
Proof.
  destruct a, b, c; simpl; try congruence; try tauto.
  intros H1 H2. apply Qltb_true in H1. apply Qltb_true. lra.
Qed.

(** The whole inner loop, over the adjacency list [vs] of [u]. *)
Lemma relax_all (vs : list nat) (eta : list num) :
  let eta' := fold_left (relax hypot g d u) vs eta in
  length eta' = length eta /\
  eta' !! u = eta !! u /\
  (forall x : nat,
     eta' !! x = eta !! x \/
     (x ∈ vs /\ (x < length eta)%nat /\
      eta_get eta' x = nadd (step_cost hypot g d x u) (eta_get eta u) /\
      nltb (eta_get eta' x) (eta_get eta x) = true)) /\
  (forall v : nat, v ∈ vs -> (v < length eta)%nat ->
     nle (eta_get eta' v) (nadd (step_cost hypot g d v u) (eta_get eta u))).
Proof.
  revert eta. induction vs as [| v vs IH]; intros eta; simpl.
  - repeat split; auto. intros v Hv. inversion Hv.
  - destruct (IH (relax hypot g d u eta v)) as (L & U & C & A).
    pose proof (relax_keeps_u eta v) as Hu.
    pose proof (eta_get_ext _ _ _ Hu) as Hu'.
    split; [rewrite L; apply relax_length |].
    split; [congruence |].
    assert (Hcell : forall x : nat,
      fold_left (relax hypot g d u) vs (relax hypot g d u eta v) !! x = eta !! x \/
      (x ∈ v :: vs /\ (x < length eta)%nat /\
       eta_get (fold_left (relax hypot g d u) vs (relax hypot g d u eta v)) x
         = nadd (step_cost hypot g d x u) (eta_get eta u) /\
       nltb (eta_get (fold_left (relax hypot g d u) vs (relax hypot g d u eta v)) x)
            (eta_get eta x) = true)).
    { intros x. destruct (C x) as [E | (Hin & Hlen & E1 & E2)].
      - destruct (relax_cell eta v x) as [E' | (-> & Hlen & E1 & E2)].
        + left. congruence.
        + right. split; [left |]. split; [exact Hlen |].
          rewrite (eta_get_ext _ _ _ E). auto.
      - right. split; [right; exact Hin |].
        rewrite relax_length in Hlen. split; [exact Hlen |].
        rewrite Hu' in E1. split; [exact E1 |].
        eapply nltb_trans; [exact E2 |].
        destruct (relax_cell eta v x) as [E' | (_ & _ & _ & E3)].
        + rewrite (eta_get_ext _ _ _ E'). apply nle_refl.
        + apply nltb_true_nle. exact E3. }
    split; [exact Hcell |].
    intros w Hw Hlen. apply elem_of_cons in Hw. destruct Hw as [-> | Hw].
    + destruct (C v) as [E | (_ & _ & _ & E2)].
      * rewrite (eta_get_ext _ _ _ E). apply relax_after. exact Hlen.
      * eapply nle_trans; [apply nltb_true_nle; exact E2 | apply relax_after; exact Hlen].
    + rewrite <- Hu'. apply A; [exact Hw |]. rewrite relax_length. exact Hlen.
Qed.

End Relax.


(** *** The invariant holds initially and is kept by every turn *)

Section Invariant.

Variable g : Game.t.
Variable d : nat.
Hypothesis Hrange : lines_in_range g.
Hypothesis Hmct : mct_nonneg g.
Hypothesis Hd : (d < length (Game.stations g))%nat.

Let N := length (Game.stations g).
Let adj := buildStationGraph g.

Lemma consecutive_elem (sts : list nat) (a b : nat) :
  consecutive sts a b -> a ∈ sts /\ b ∈ sts.
Proof.
  intros (i & H1 & H2). split; eapply list_elem_of_lookup_2; eassumption.
Qed.

Lemma linked_in_range (a b : nat) : linked g a b -> (a < N)%nat /\ (b < N)%nat.
Proof.
  intros (line & Hin & [H | H]); apply consecutive_elem in H; destruct H as [H1 H2];
    split; apply (Hrange line Hin); assumption.
Qed.

Lemma is_visited_insert (visited : list bool) (u x : nat) :
  (u < length visited)%nat ->
  is_visited (<[u := true]> visited) x
  = if decide (u = x) then true else is_visited visited x.
Proof.
  intros Hu. unfold is_visited. destruct (decide (u = x)) as [-> | Hne].
  - rewrite list_lookup_insert_eq by exact Hu. reflexivity.
  - rewrite list_lookup_insert_ne by exact Hne. reflexivity.
Qed.

Lemma nltb_nle_absurd (a b : num) : nltb a b = true -> nle b a -> False.
Proof.
  destruct a, b; simpl; try congruence; try tauto.
  intros H1 H2. apply Qltb_true in H1. lra.
Qed.

Lemma inv_init :
  eta_inv hypot g d N adj (eta_set (replicate N Infinity) d (Fin 0)) (replicate N false).
Proof.
  assert (Hset : eta_set (replicate N Infinity) d (Fin 0)
                 = <[d := Fin 0]> (replicate N Infinity)).
  { unfold eta_set. rewrite length_replicate.
    destruct (d <? N)%nat eqn:E; [reflexivity |].
    apply Nat.ltb_ge in E. unfold N in E. lia. }
  rewrite Hset.
  assert (Hnv : forall i : nat, is_visited (replicate N false) i = false).
  { intros i. unfold is_visited. destruct (replicate N false !! i) eqn:E; [| reflexivity].
    apply lookup_replicate in E. destruct E as [-> _]. reflexivity. }
  constructor.
  - rewrite length_insert. apply length_replicate.
  - apply length_replicate.
  - rewrite eta_get_insert by (rewrite length_replicate; exact Hd).
    destruct (decide (d = d)); [| contradiction]. simpl. reflexivity.
  - intros x. rewrite eta_get_insert by (rewrite length_replicate; exact Hd).
    destruct (decide (d = x)); [simpl; lra |].
    destruct (eta_get (replicate N Infinity) x) eqn:E; [| exact I].
    unfold eta_get in E. destruct (replicate N Infinity !! x) eqn:E'; [| discriminate].
    apply lookup_replicate in E'. destruct E' as [-> _]. discriminate.
  - intros v c E. destruct (decide (d = v)) as [<- | Hne].
    + rewrite list_lookup_insert_eq in E by (rewrite length_replicate; exact Hd).
      injection E as <-. exists [d]. simpl. repeat split; reflexivity.
    + rewrite list_lookup_insert_ne in E by exact Hne.
      apply lookup_replicate in E. destruct E as [E _]. discriminate.
  - intros u v Hu. rewrite Hnv in Hu. discriminate.
  - intros x y Hx. rewrite Hnv in Hx. discriminate.
Qed.

Lemma inv_step (eta : list num) (visited : list bool) (u : nat) :
  eta_inv hypot g d N adj eta visited ->
  select_min N eta visited = Some u ->
  eta_inv hypot g d N adj
    (fold_left (relax hypot g d u) (default [] (adj !! u)) eta)
    (<[u := true]> visited).
Proof.
  intros [Hle Hlv Hdest Hnn Hwit Hrel Hmono] Hsel.
  apply select_min_Some in Hsel. destruct Hsel as (HuN & Huv & Hfin & Hmin).
  destruct (relax_all g d u Hmct (default [] (adj !! u)) eta) as (L & U & C & A).
  set (eta' := fold_left (relax hypot g d u) (default [] (adj !! u)) eta) in *.
  assert (Hcost : forall x : nat, nle (eta_get eta u)
                    (nadd (step_cost hypot g d x u) (eta_get eta u))).
  { intros x. apply nle_nadd_l. apply step_cost_nonneg; assumption. }
  assert (Hkeep : forall x : nat, nle (eta_get eta x) (eta_get eta u) ->
                                  eta' !! x = eta !! x).
  { intros x Hx. destruct (C x) as [E | (_ & _ & E1 & E2)]; [exact E |].
    rewrite E1 in E2. exfalso. eapply nltb_nle_absurd; [exact E2 |].
    eapply nle_trans; [exact Hx | apply Hcost]. }
  assert (Hvis : forall x : nat, is_visited (<[u := true]> visited) x = true ->
                                 nle (eta_get eta x) (eta_get eta u)).
  { intros x Hx. rewrite is_visited_insert in Hx by lia.
    destruct (decide (u = x)) as [<- | Hne]; [apply nle_refl |].
    apply Hmono; assumption. }
  constructor.
  - lia.
  - rewrite length_insert. exact Hlv.
  - rewrite (eta_get_ext eta eta' d); [exact Hdest |].
    apply Hkeep. eapply nle_trans; [apply neq_nle; exact Hdest | apply Hnn].
  - intros x. destruct (C x) as [E | (_ & _ & E1 & _)].
    + rewrite (eta_get_ext _ _ _ E). apply Hnn.
    + rewrite E1. eapply nle_trans; [apply Hnn | apply Hcost].
  - intros v c Hv. destruct (C v) as [E | (Hin & Hlen & E1 & _)].
    + apply Hwit. congruence.
    + unfold eta_get at 1 in E1. rewrite Hv in E1. simpl in E1.
      destruct (eta_get eta u) as [cu |] eqn:Eu.
      2:{ destruct (step_cost hypot g d v u); discriminate. }
      destruct (Hwit u cu) as (p & Hhd & Hroute & Hc).
      { unfold eta_get in Eu. destruct (eta !! u) as [e |]; [| discriminate].
        simpl in Eu. congruence. }
      assert (Hadj : adj_has adj u v).
      { destruct (adj !! u) as [s |] eqn:Es; [| inversion Hin].
        exists s. auto. }
      apply (buildStationGraph_linked g u v Hrange) in Hadj.
      apply linked_sym in Hadj.
      exists (v :: p). destruct p as [| u' rest]; [discriminate |].
      injection Hhd as ->.
      split; [reflexivity |]. split; [split; assumption |].
      change (route_cost hypot g d (v :: u :: rest))
        with (nadd (step_cost hypot g d v u) (route_cost hypot g d (u :: rest))).
      destruct (step_cost hypot g d v u) as [sc |]; [| discriminate].
      destruct (route_cost hypot g d (u :: rest)) as [rc |]; [| contradiction].
      simpl in *. injection E1 as ->. rewrite Hc. reflexivity.
  - intros w v Hw Hadj.
    rewrite (eta_get_ext eta eta' w) by (apply Hkeep, Hvis; exact Hw).
    rewrite is_visited_insert in Hw by lia.
    assert (Hv : (v < length eta)%nat).
    { apply (buildStationGraph_linked g w v Hrange) in Hadj.
      apply linked_in_range in Hadj. fold N in Hle. lia. }
    destruct (decide (u = w)) as [<- | Hne].
    + apply A; [| exact Hv]. destruct Hadj as (s & -> & Hin). exact Hin.
    + eapply nle_trans; [| apply Hrel; eassumption].
      destruct (C v) as [E | (_ & _ & _ & E2)].
      * rewrite (eta_get_ext _ _ _ E). apply nle_refl.
      * apply nltb_true_nle. exact E2.
  - intros x y Hx Hy Hyv.
    rewrite (eta_get_ext eta eta' x) by (apply Hkeep, Hvis; exact Hx).
    rewrite is_visited_insert in Hyv by lia.
    destruct (decide (u = y)) as [| Hney]; [discriminate |].
    destruct (C y) as [E | (_ & _ & E1 & _)].
    + rewrite (eta_get_ext _ _ _ E).
      eapply nle_trans; [apply Hvis; exact Hx | apply Hmin; assumption].
    + rewrite E1. eapply nle_trans; [apply Hvis; exact Hx | apply Hcost].
Qed.

Lemma count_unvisited_le (visited : list bool) :
  (count_unvisited visited <= length visited)%nat.
Proof.
  induction visited as [| b rest IH]; simpl; [lia |]. destruct b; lia.
Qed.

Lemma count_unvisited_mark (visited : list bool) (u : nat) :
  (u < length visited)%nat -> is_visited visited u = false ->
  (count_unvisited (<[u := true]> visited) < count_unvisited visited)%nat.
Proof.
  revert u. induction visited as [| b rest IH]; intros u Hu Hv; simpl in *; [lia |].
  destruct u as [| u].
  - unfold is_visited in Hv. simpl in Hv. subst b. simpl. lia.
  - simpl. assert (H : (u < length rest)%nat) by lia.
    specialize (IH u H Hv). lia.
Qed.

(** The loop stops before its fuel runs out, in a state that satisfies the
    invariant and in which every unvisited cell is infinite. *)
Lemma dijkstra_loop_fuel (fuel : nat) (eta : list num) (visited : list bool) :
  eta_inv hypot g d N adj eta visited ->
  (count_unvisited visited < fuel)%nat ->
  exists (r : list num) (visited' : list bool),
    dijkstra_loop hypot fuel g adj N d eta visited = Some r /\
    eta_inv hypot g d N adj r visited' /\
    forall i : nat, (i < N)%nat -> is_visited visited' i = false ->
                    eta_get r i = Infinity.
Proof.
  revert eta visited. induction fuel as [| fuel IH]; intros eta visited Hinv Hc; [lia |].
  simpl. destruct (select_min N eta visited) as [u |] eqn:Es.
  - apply IH.
    + apply inv_step; assumption.
    + apply select_min_Some in Es. destruct Es as (HuN & Huv & _).
      pose proof (inv_len_vis _ _ _ _ _ _ _ Hinv) as Hlv.
      assert (Hu : (u < length visited)%nat) by lia.
      pose proof (count_unvisited_mark visited u Hu Huv). lia.
  - exists eta, visited. split; [reflexivity |]. split; [exact Hinv |].
    apply select_min_None. exact Es.
Qed.

Lemma computeETAs_inv :
  exists visited : list bool,
    eta_inv hypot g d N adj (computeETAs hypot g d) visited /\
    forall i : nat, (i < N)%nat -> is_visited visited i = false ->
                    eta_get (computeETAs hypot g d) i = Infinity.
Proof.
  unfold computeETAs. fold N. fold adj.
  destruct (dijkstra_loop_fuel (S N) _ _ inv_init) as (r & visited' & E & Hinv & Hfin).
  - pose proof (count_unvisited_le (replicate N false)) as H.
    rewrite length_replicate in H. lia.
  - rewrite E. exists visited'. auto.
Qed.

(** In the final state every cell is a lower bound of the cost of every
    route from its station. *)
Lemma final_lower_bound (eta : list num) (visited : list bool) :
  eta_inv hypot g d N adj eta visited ->
  (forall i : nat, (i < N)%nat -> is_visited visited i = false ->
                   eta_get eta i = Infinity) ->
  forall (p : list nat) (x : nat),
    head p = Some x -> route_to g d p ->
    nle (eta_get eta x) (route_cost hypot g d p) /\
    (is_visited visited x = false -> route_cost hypot g d p = Infinity).
Proof.
  intros Hinv Hfin p. induction p as [| x0 rest IH]; intros x Hhd Hroute;
    [discriminate |].
  injection Hhd as ->. destruct rest as [| y rest'].
  - simpl in Hroute. subst x. simpl.
    pose proof (inv_dest _ _ _ _ _ _ _ Hinv) as Hdest.
    split; [apply neq_nle; exact Hdest |].
    intros Hv. rewrite (Hfin d Hd Hv) in Hdest. contradiction.
  - destruct Hroute as [Hl Hroute].
    change (route_cost hypot g d (x :: y :: rest'))
      with (nadd (step_cost hypot g d x y) (route_cost hypot g d (y :: rest'))).
    destruct (IH y eq_refl Hroute) as [IH1 IH2].
    destruct (is_visited visited y) eqn:Ey.
    + assert (Hx : nle (eta_get eta x)
                       (nadd (step_cost hypot g d x y) (route_cost hypot g d (y :: rest')))).
      { eapply nle_trans.
        - apply (inv_rel _ _ _ _ _ _ _ Hinv y x Ey).
          apply (buildStationGraph_linked g y x Hrange). apply linked_sym. exact Hl.
        - apply nadd_mono; [apply nle_refl | exact IH1]. }
      split; [exact Hx |].
      intros Hv. apply linked_in_range in Hl. destruct Hl as [HxN _].
      rewrite (Hfin x HxN Hv) in Hx.
      destruct (nadd _ _); [contradiction | reflexivity].
    + rewrite (IH2 eq_refl).
      destruct (step_cost hypot g d x y); simpl; split; auto;
        destruct (eta_get eta x); exact I.
Qed.


Lemma edgeTimeMs_finite (a b : nat) :
  (a < N)%nat -> (b < N)%nat -> isFinite (edgeTimeMs hypot g a b) = true.
Proof.
  intros Ha Hb. unfold edgeTimeMs.
  destruct (lookup_lt_is_Some_2 (Game.stations g) a Ha) as [A ->].
  destruct (lookup_lt_is_Some_2 (Game.stations g) b Hb) as [B ->].
  reflexivity.
Qed.

Lemma route_cost_finite (p : list nat) :
  route_to g d p -> isFinite (route_cost hypot g d p) = true.
Proof.
  induction p as [| x rest IH]; intros Hroute; [reflexivity |].
  destruct rest as [| y rest']; [reflexivity |].
  destruct Hroute as [Hl Hroute].
  change (route_cost hypot g d (x :: y :: rest'))
    with (nadd (nadd (edgeTimeMs hypot g x y) (Fin (nodeTransferMs g y d)))
               (route_cost hypot g d (y :: rest'))).
  apply linked_in_range in Hl. destruct Hl as [Hx Hy].
  pose proof (edgeTimeMs_finite x y Hx Hy) as He.
  specialize (IH Hroute).
  destruct (edgeTimeMs hypot g x y); [| discriminate].
  destruct (route_cost hypot g d (y :: rest')); [reflexivity | discriminate].
Qed.

End Invariant.


(** C1.  For a well-formed game (line entries are station indices, connection
    times are not negative) and a destination [d], [computeETAs] fills one
    cell per station with the least cost of a route to [d] through the line
    network: the cell is a lower bound of the cost of every route, a finite
    cell is the cost of some route, a station with a route has a finite cell
    and a station without one holds [Infinity].  The cost of a route adds the
    edge time of every step (distance over speed) and, at every node entered
    other than [d], the connection time of the node, times 0.7 at an
    interchange, times the global multiplier. *)
Theorem computeETAs_least_route_cost (g : Game.t) (d : nat) :
  lines_in_range g -> mct_nonneg g -> (d < length (Game.stations g))%nat ->
  length (computeETAs hypot g d) = length (Game.stations g) /\
  (forall s : nat, (s < length (Game.stations g))%nat ->
     (forall p : list nat, head p = Some s -> route_to g d p ->
        nle (estimateETA hypot g s d) (route_cost hypot g d p) /\
        isFinite (estimateETA hypot g s d) = true) /\
     (forall c : Q, estimateETA hypot g s d = Fin c ->
        exists p : list nat,
          head p = Some s /\ route_to g d p /\ neq (route_cost hypot g d p) (Fin c)) /\
     ((forall p : list nat, head p = Some s -> ~ route_to g d p) ->
        estimateETA hypot g s d = Infinity)) /\
  (forall (u : nat) (s : Station.t), Game.stations g !! u = Some s ->
     nodeTransferMs g u d = if (u =? d)%nat then 0 else transfer_penalty g s) /\
  (forall (a b : nat) (A B : Station.t),
     Game.stations g !! a = Some A -> Game.stations g !! b = Some B ->
     edgeTimeMs hypot g a b
     = Fin (hypot (Station.x B - Station.x A) (Station.y B - Station.y A)
            / Qmax (1 # 1000000) (or_default (Config.trainSpeed (Game.config g)) (6 # 100)))).
Proof.
  intros Hrange Hmct Hd.
  destruct (computeETAs_inv g d Hrange Hmct Hd) as (visited & Hinv & Hfin).
  split; [exact (inv_len_eta _ _ _ _ _ _ _ Hinv) |].
  split; [| split].
  - intros s Hs. unfold estimateETA. split; [| split].
    + intros p Hhd Hroute.
      destruct (final_lower_bound g d Hrange Hd _ _ Hinv Hfin p s Hhd Hroute)
        as [Hle _].
      split; [exact Hle |].
      pose proof (route_cost_finite g d Hrange p Hroute) as Hf.
      destruct (route_cost hypot g d p); [| discriminate].
      destruct (eta_get (computeETAs hypot g d) s); [reflexivity | contradiction].
    + intros c Hc. apply (inv_wit _ _ _ _ _ _ _ Hinv).
      unfold eta_get in Hc.
      destruct (computeETAs hypot g d !! s) as [e |]; simpl in Hc; [congruence | discriminate].
    + intros Hno.
      destruct (eta_get (computeETAs hypot g d) s) as [c |] eqn:E; [| reflexivity].
      exfalso.
      destruct (inv_wit _ _ _ _ _ _ _ Hinv s c) as (p & Hhd & Hroute & _).
      * unfold eta_get in E.
        destruct (computeETAs hypot g d !! s) as [e |]; simpl in E; [congruence | discriminate].
      * exact (Hno p Hhd Hroute).
  - intros u s Hu. unfold nodeTransferMs, transfer_penalty. rewrite Hu.
    destruct (u =? d)%nat; reflexivity.
  - intros a b A B Ha Hb. unfold edgeTimeMs. rewrite Ha, Hb. reflexivity.
Qed.

End EtaFacts.

(** Membership in a list that is written out. *)
Ltac elem_cases H :=
  repeat (apply elem_of_cons in H; destruct H as [H | H]; [subst |]);
  try (apply elem_of_nil in H; contradiction).

Lemma hypotQ_nonneg (dx dy : Q) : (0 <= Examples.hypotQ dx dy)%Q.
Proof.
  unfold Examples.hypotQ, Qle. simpl. rewrite Z.mul_1_r. apply Z.sqrt_nonneg.
Qed.

Lemma gameABC_lines_in_range : lines_in_range Examples.gameABC.
Proof.
  intros line Hl s Hs. simpl in Hl. elem_cases Hl. simpl in Hs. elem_cases Hs;
    simpl; lia.
Qed.

Lemma gameABC_mct_nonneg : mct_nonneg Examples.gameABC.
Proof.
  intros s Hs. simpl in Hs. elem_cases Hs; vm_compute; discriminate.
Qed.

Lemma computeETAs_least_route_cost_witness :
  lines_in_range Examples.gameABC /\ mct_nonneg Examples.gameABC /\
  nle (estimateETA Examples.hypotQ Examples.gameABC 0 2)
      (route_cost Examples.hypotQ Examples.gameABC 2 [0; 1; 2]%nat).
Proof.
  split; [exact gameABC_lines_in_range |]. split; [exact gameABC_mct_nonneg |].
  assert (Hd : (2 < length (Game.stations Examples.gameABC))%nat) by (simpl; lia).
  destruct (computeETAs_least_route_cost Examples.hypotQ hypotQ_nonneg Examples.gameABC 2
              gameABC_lines_in_range gameABC_mct_nonneg Hd) as (_ & Hs & _).
  assert (H0 : (0 < length (Game.stations Examples.gameABC))%nat) by (simpl; lia).
  destruct (Hs 0%nat H0) as (Hlow & _).
  apply Hlow; [reflexivity |].
  simpl. split; [| split; [| reflexivity]].
  - exists Examples.lineABC. split; [left |]. left. exists 0%nat. split; reflexivity.
  - exists Examples.lineABC. split; [left |]. left. exists 1%nat. split; reflexivity.
Defined.

(** ** Dwell time at a station *)

Section DwellFacts.

Local Open Scope Q_scope.




End DwellFacts.

(** ** Arrival handling keeps a vehicle within its capacity *)

Section ArrivalFacts.

Variable hypot : Q -> Q -> Q.

Lemma disembark_remaining (g : Game.t) (line : Line.t) (station : Station.t)
    (ps : list Passenger.t) (acc : Disembark) :
  (length (remaining (fold_left (disembark_step g line station) ps acc))
   <= length (remaining acc) + length ps)%nat.
Proof.
  revert acc. induction ps as [| p ps IH]; intros acc; simpl; [lia |].
  etransitivity; [apply IH |].
  unfold disembark_step.
  destruct (Passenger.destStation p =? Station.id station)%nat.
  - destruct (deliveryPoints g (comboNow acc) station p). simpl. lia.
  - destruct (negb (includes (Line.stations line) (Passenger.destStation p))); simpl;
      [lia | rewrite length_app; simpl; lia].
Qed.

Lemma boarding_picked (g : Game.t) (line : Line.t) (station : Station.t) (capacity : Z)
    (queue : list Passenger.t) (acc : Boarding) :
  (picked acc <= capacity)%Z ->
  let b := fold_left (boarding_step hypot g line station capacity) queue acc in
  (picked b <= capacity)%Z /\
  (Z.of_nat (length (aboard b)) - picked b
   = Z.of_nat (length (aboard acc)) - picked acc)%Z.
Proof.
  revert acc. induction queue as [| p queue IH]; intros acc Hacc; simpl; [lia |].
  assert (Hstep : (picked (boarding_step hypot g line station capacity acc p) <= capacity)%Z /\
                  (Z.of_nat (length (aboard (boarding_step hypot g line station capacity acc p)))
                   - picked (boarding_step hypot g line station capacity acc p)
                   = Z.of_nat (length (aboard acc)) - picked acc)%Z).
  { unfold boarding_step.
    destruct (capacity <=? picked acc)%Z eqn:E; [simpl; lia |].
    apply Z.leb_gt in E.
    destruct (Qltb _ _); [simpl; lia |].
    destruct (shouldBoardLineHere hypot g line (Station.id station) p); simpl; [| lia].
    rewrite length_app. simpl. lia. }
  destruct Hstep as [H1 H2].
  destruct (IH _ H1) as [H3 H4]. simpl in H3, H4. split; [exact H3 | lia].
Qed.

Lemma set_train_lookup (g : Game.t) (ti tj : nat) (tr tr' : Train.t) :
  Game.trains (set_train ti tr g) !! tj = Some tr' ->
  (tj = ti /\ tr' = tr /\ (ti < length (Game.trains g))%nat) \/
  (tj <> ti /\ Game.trains g !! tj = Some tr').
Proof.
  unfold set_train. simpl. intros H.
  destruct (decide (ti = tj)) as [-> | Hne].
  - left. destruct (le_lt_dec (length (Game.trains g)) tj) as [Hout | Hin].
    + rewrite list_insert_ge in H by exact Hout.
      apply lookup_lt_Some in H. lia.
    + rewrite list_lookup_insert_eq in H by exact Hin. injection H as <-. auto.
  - right. rewrite list_lookup_insert_ne in H by exact Hne. auto.
Qed.

(** C7.  After [handleStationArrival] every train of the game has the
    capacity it had before, and a train that carried at most its capacity
    before the pass carries at most its capacity after it, whatever the
    station and the contents of its queue. *)
Theorem handleStationArrival_capacity (g : Game.t) (ti si tj : nat) (train' : Train.t) :
  Game.trains (handleStationArrival hypot g ti si) !! tj = Some train' ->
  exists train : Train.t,
    Game.trains g !! tj = Some train /\
    Train.capacity train' = Train.capacity train /\
    ((Z.of_nat (length (Train.passengers train)) <= Train.capacity train)%Z ->
     (Z.of_nat (length (Train.passengers train')) <= Train.capacity train')%Z).
Proof.
  unfold handleStationArrival.
  destruct (Game.trains g !! ti) as [train |] eqn:Et; [| intros H; eauto].
  destruct (Game.stations g !! si) as [station |] eqn:Es; [| intros H; eauto].
  destruct (Game.lines g !! Train.lineId train) as [line |] eqn:El; [| intros H; eauto].
  set (combo0 := default (Combo.mk 0 0 1) (Game.combo g)).
  set (d := fold_left (disembark_step g line station) (Train.passengers train)
              (mkDisembark [] (Station.queue station) (Game.score g) combo0)).
  pose proof (disembark_remaining g line station (Train.passengers train)
                (mkDisembark [] (Station.queue station) (Game.score g) combo0)) as Hrem.
  fold d in Hrem. simpl in Hrem.
  set (station1 := Station.with_queue (stationQueue d) station).
  set (train1 := Train.with_passengers (remaining d) train).
  set (g1 := set_train ti train1
               (set_station si station1
                  (Game.with_combo (comboNow d) (Game.with_score (scoreNow d) g)))).
  assert (Hg1 : forall tr, Game.trains g1 !! tj = Some tr ->
            exists train0, Game.trains g !! tj = Some train0 /\
              Train.capacity tr = Train.capacity train0 /\
              ((Z.of_nat (length (Train.passengers train0)) <= Train.capacity train0)%Z ->
               (Z.of_nat (length (Train.passengers tr)) <= Train.capacity tr)%Z)).
  { intros tr Htr. apply set_train_lookup in Htr.
    destruct Htr as [(-> & -> & _) | (Hne & Htr)].
    - exists train. split; [exact Et |]. split; [reflexivity |]. simpl. lia.
    - exists tr. simpl in Htr. auto. }
  simpl.
  destruct (Train.capacity train - Z.of_nat (length (remaining d)) <=? 0)%Z eqn:Ecap;
    [exact (Hg1 train') |].
  apply Z.leb_gt in Ecap.
  intros Htr. apply set_train_lookup in Htr.
  destruct Htr as [(-> & -> & _) | (Hne & Htr)].
  - exists train. split; [exact Et |]. split; [reflexivity |]. intros _. simpl.
    destruct (boarding_picked g1 line station1
                (Train.capacity train - Z.of_nat (length (remaining d)))
                (Station.queue station1)
                (mkBoarding (remaining d) [] 0%Z)) as [H1 H2]; [simpl; lia |].
    simpl in H1, H2. lia.
  - apply Hg1. exact Htr.
Qed.

End ArrivalFacts.

Lemma handleStationArrival_capacity_witness :
  exists train' : Train.t,
    Game.trains (handleStationArrival Examples.hypotQ Examples.gameArrival 0 1) !! 0%nat
    = Some train' /\
    (Z.of_nat (length (Train.passengers train')) <= Train.capacity train')%Z.
Proof.
  eexists. split; [vm_compute; reflexivity |].
  match goal with
  | |- (Z.of_nat (length (Train.passengers ?t)) <= _)%Z =>
      destruct (handleStationArrival_capacity Examples.hypotQ Examples.gameArrival
                  0 1 0 t eq_refl) as (train & Ht & Hcap & Hle)
  end.
  vm_compute in Ht. injection Ht as <-. apply Hle. vm_compute. discriminate.
Defined.

(** ** Spawning *)

Section SpawnFacts.

Variable random : nat -> Q.

Lemma pick_elem {A : Type} (arr : list A) (r : Q) (a : A) : pick arr r = Some a -> In a arr.
Proof.
  unfold pick. intros H. apply list_elem_of_In. eapply list_elem_of_lookup_2. exact H.
Qed.

Lemma indexed_lookup (g : Game.t) (pos : nat) (s : Station.t) :
  In (pos, s) (indexed g) -> Game.stations g !! pos = Some s.
Proof.
  unfold indexed. intros H. apply list_elem_of_In in H.
  apply list_elem_of_lookup in H. destruct H as [i H].
  apply lookup_zip_with_Some in H.
  destruct H as (a & b & E & Ha & Hb). injection E as <- <-.
  apply lookup_seq in Ha. destruct Ha as [-> _]. exact Hb.
Qed.

(** C10.  A call of [spawnPassenger] either leaves the game as it is or
    appends exactly one new passenger to the queue of its origin station, and
    the destination of that passenger differs from the origin; when the game
    is over or has fewer than two stations, the game is left as it is. *)
Theorem spawnPassenger_dest_differs (k : nat) (g : Game.t) :
  (fst (spawnPassenger random k g) = g \/ spawned g (fst (spawnPassenger random k g))) /\
  (Game.gameOver g = true \/ (length (Game.stations g) < 2)%nat ->
   fst (spawnPassenger random k g) = g).
Proof.
  unfold spawnPassenger. split.
  - destruct (Game.gameOver g); [left; reflexivity |].
    destruct (length (Game.stations g) <? 2)%nat; [left; reflexivity |].
    match goal with |- context [pick ?o (random k)] => set (origins := o) end.
    destruct (pick origins (random k)) as [[originPos origin] |] eqn:Eo;
      [| left; reflexivity].
    assert (Hpos : Game.stations g !! originPos = Some origin).
    { apply indexed_lookup. apply pick_elem in Eo. unfold origins in Eo.
      destruct (length _ =? 0)%nat; [exact Eo |].
      apply List.filter_In in Eo. tauto. }
    match goal with
    | |- context [match ?c with Some _ => _ | None => _ end] =>
        match type of c with
        | option (option Station.t * nat) => set (chosen := c)
        end
    end.
    assert (Hchosen : forall ds k', chosen = Some (Some ds, k') ->
                                    Station.id ds <> Station.id origin).
    { intros ds k' E. unfold chosen in E.
      assert (Hf : forall (l : list Station.t) (f : Station.t -> bool) r,
                 pick (List.filter
                         (fun s => negb (Station.id s =? Station.id origin)%nat && f s) l) r
                 = Some ds -> Station.id ds <> Station.id origin).
      { intros l f r Hp. apply pick_elem in Hp. apply List.filter_In in Hp.
        destruct Hp as [_ Hp]. apply andb_true_iff in Hp. destruct Hp as [Hp _].
        apply negb_true_iff, Nat.eqb_neq in Hp. exact Hp. }
      assert (Hi : forall (l : list Station.t) (f : Station.t -> bool) r,
                 pick (List.filter Station.isInterchange (List.filter
                         (fun s => negb (Station.id s =? Station.id origin)%nat && f s) l)) r
                 = Some ds -> Station.id ds <> Station.id origin).
      { intros l f r Hp. apply pick_elem in Hp. apply List.filter_In in Hp.
        destruct Hp as [Hp _]. apply List.filter_In in Hp.
        destruct Hp as [_ Hp]. apply andb_true_iff in Hp. destruct Hp as [Hp _].
        apply negb_true_iff, Nat.eqb_neq in Hp. exact Hp. }
      repeat match type of E with
             | (if ?b then _ else _) = _ => destruct b
             end;
        try discriminate; injection E as E _;
        first [ eapply Hf; exact E | eapply Hi; exact E ]. }
    destruct chosen as [[[ds |] k'] |] eqn:Ec; [| left; reflexivity | left; reflexivity].
    right. exists originPos, origin. eexists. split; [exact Hpos |].
    split; [reflexivity |]. simpl. split; [reflexivity |].
    eapply Hchosen. reflexivity.
  - intros [H | H].
    + rewrite H. reflexivity.
    + destruct (Game.gameOver g); [reflexivity |].
      apply Nat.ltb_lt in H. rewrite H. reflexivity.
Qed.

End SpawnFacts.

(** On the three-station game a passenger is created. *)
Lemma spawnPassenger_dest_differs_witness :
  spawned Examples.gameABC (fst (spawnPassenger Examples.random0 0 Examples.gameABC)).
Proof.
  destruct (spawnPassenger_dest_differs Examples.random0 0 Examples.gameABC) as [[H | H] _];
    [| exact H].
  vm_compute in H. discriminate.
Defined.

(** ** Line creation *)

Section CreateLineFacts.

Variable hypot : Q -> Q -> Q.

(** C3, as the code has it.  A call of [createLine] with fewer than two
    station ids returns no line and leaves the whole world state as it was:
    no line is added, no connection set and no counter changes. *)
Theorem createLine_too_short (g : Game.t) (stations : list nat) (colorIndex : option Z) :
  (length stations < 2)%nat ->
  createLine hypot g stations colorIndex = (g, None).
Proof.
  intros H. unfold createLine. apply Nat.ltb_lt in H. rewrite H. reflexivity.
Qed.

End CreateLineFacts.

Lemma createLine_too_short_witness :
  (length [0%nat] < 2)%nat /\
  createLine Examples.hypotQ Examples.gameABC [0%nat] None = (Examples.gameABC, None).
Proof.
  assert (H : (length [0%nat] < 2)%nat) by (simpl; lia).
  split; [exact H |].
  exact (createLine_too_short Examples.hypotQ Examples.gameABC [0%nat] None H).
Defined.

(** A list that names the same station twice is accepted: the call returns a
    line, adds it to the game and registers it at the station. *)
Lemma createLine_repeated_station_counterexample :
  ~ (createLine Examples.hypotQ Examples.gameABC [0; 0]%nat None = (Examples.gameABC, None)) /\
  (exists line : Line.t,
     snd (createLine Examples.hypotQ Examples.gameABC [0; 0]%nat None) = Some line /\
     Line.stations line = [0; 0]%nat) /\
  length (Game.lines (fst (createLine Examples.hypotQ Examples.gameABC [0; 0]%nat None)))
  = 2%nat /\
  Station.connections <$>
    (Game.stations (fst (createLine Examples.hypotQ Examples.gameABC [0; 0]%nat None)) !! 0%nat)
  = Some [0; 1]%nat.
Proof.
  split; [intros H; apply (f_equal snd) in H; vm_compute in H; discriminate |].
  split; [eexists; split; vm_compute; reflexivity |].
  split; vm_compute; reflexivity.
Qed.

(** ** Fleet allocation *)

Section FleetFacts.

Local Open Scope Q_scope.





Local Opaque lineStatsOf.


Local Transparent lineStatsOf.

End FleetFacts.



(** ** Vehicle motion keeps the normalized position in range *)

Section MotionFacts.

Local Open Scope Q_scope.

Variable hypot : Q -> Q -> Q.
Hypothesis hypot_nonneg : forall dx dy : Q, 0 <= hypot dx dy.

Lemma set_train_same (g : Game.t) (ti : nat) (tr : Train.t) :
  (ti < length (Game.trains g))%nat -> Game.trains (set_train ti tr g) !! ti = Some tr.
Proof. intros H. unfold set_train. simpl. apply list_lookup_insert_eq. exact H. Qed.

Lemma set_train_length (g : Game.t) (ti : nat) (tr : Train.t) :
  length (Game.trains (set_train ti tr g)) = length (Game.trains g).
Proof. unfold set_train. simpl. apply length_insert. Qed.

(** [handleStationArrival] changes nothing of a train but its passengers. *)
Lemma handleStationArrival_frame (g : Game.t) (ti si tj : nat) (tr' : Train.t) :
  Game.trains (handleStationArrival hypot g ti si) !! tj = Some tr' ->
  exists tr : Train.t,
    Game.trains g !! tj = Some tr /\ tr' = Train.with_passengers (Train.passengers tr') tr.
Proof.
  unfold handleStationArrival.
  assert (Hid : forall tr, Game.trains g !! tj = Some tr ->
            exists tr0, Game.trains g !! tj = Some tr0 /\
                        tr = Train.with_passengers (Train.passengers tr) tr0).
  { intros tr H. exists tr. split; [exact H |]. destruct tr; reflexivity. }
  destruct (Game.trains g !! ti) as [train |] eqn:Et; [| apply Hid].
  destruct (Game.stations g !! si) as [station |] eqn:Es; [| apply Hid].
  destruct (Game.lines g !! Train.lineId train) as [line |] eqn:El; [| apply Hid].
  simpl.
  match goal with |- context [if ?c then _ else _] => destruct c end.
  - intros H. apply set_train_lookup in H.
    destruct H as [(-> & -> & _) | (Hne & H)].
    + exists train. split; [exact Et | reflexivity].
    + apply Hid. exact H.
  - intros H. apply set_train_lookup in H.
    destruct H as [(-> & -> & _) | (Hne & H)].
    + exists train. split; [exact Et | reflexivity].
    + simpl in H. apply set_train_lookup in H.
      destruct H as [(E & _) | (_ & H)]; [contradiction |].
      apply Hid. exact H.
Qed.

Lemma handleStationArrival_length (g : Game.t) (ti si : nat) :
  length (Game.trains (handleStationArrival hypot g ti si)) = length (Game.trains g).
Proof.
  unfold handleStationArrival.
  destruct (Game.trains g !! ti) as [train |]; [| reflexivity].
  destruct (Game.stations g !! si) as [station |]; [| reflexivity].
  destruct (Game.lines g !! Train.lineId train) as [line |]; [| reflexivity].
  simpl.
  match goal with |- context [if ?c then _ else _] => destruct c end;
    simpl; rewrite ?length_insert; reflexivity.
Qed.

Lemma arriveAtStationIdx_position (g : Game.t) (ti : nat) (line : Line.t) (idx : nat)
    (tr tr' : Train.t) :
  Game.trains g !! ti = Some tr ->
  Game.trains (arriveAtStationIdx hypot g ti line idx) !! ti = Some tr' ->
  Train.position tr' = Train.position tr.
Proof.
  intros Ht. unfold arriveAtStationIdx.
  destruct (Line.stations line !! idx) as [stationIndex |]; [| congruence].
  assert (Hh : forall t, Game.trains (handleStationArrival hypot g ti stationIndex) !! ti
                         = Some t -> Train.position t = Train.position tr).
  { intros t H. apply handleStationArrival_frame in H.
    destruct H as (tr0 & H0 & ->). rewrite Ht in H0. injection H0 as <-. reflexivity. }
  destruct (Game.trains (handleStationArrival hypot g ti stationIndex) !! ti)
    as [train |] eqn:E1; [| intros H; congruence].
  destruct (Game.stations (handleStationArrival hypot g ti stationIndex) !! stationIndex)
    as [station |];
    [| intros H; rewrite E1 in H; injection H as <-; apply Hh; reflexivity].
  intros H. rewrite set_train_same in H by (apply lookup_lt_Some in E1; exact E1).
  injection H as <-. rewrite <- (Hh train eq_refl).
  destruct (negb (Line.isLoop line) && _); reflexivity.
Qed.

Lemma last_default_irrelevant (l : list Q) (x c d : Q) :
  List.last (x :: l) c = List.last (x :: l) d.
Proof.
  revert x. induction l as [| y l IH]; intros x; [reflexivity |].
  change (List.last (y :: l) c = List.last (y :: l) d). apply IH.
Qed.

Lemma last_cons (x c : Q) (l : list Q) : List.last (x :: l) c = List.last l x.
Proof.
  destruct l as [| y l]; [reflexivity |].
  change (List.last (y :: l) c = List.last (y :: l) x). apply last_default_irrelevant.
Qed.

Lemma cumulative_bounds (g : Game.t) (sts : list nat) (c : Q) :
  c <= List.last (cumulative hypot g sts c) c /\
  forall p : Q, In p (cumulative hypot g sts c) ->
                c <= p /\ p <= List.last (cumulative hypot g sts c) c.
Proof.
  revert c. induction sts as [| a rest IH]; intros c.
  - simpl. split; [lra | contradiction].
  - destruct rest as [| b rest'].
    + simpl. split; [lra | contradiction].
    + change (cumulative hypot g (a :: b :: rest') c)
        with (match Game.stations g !! a, Game.stations g !! b with
              | Some A, Some B =>
                  let cum' := c + hypot (Station.x B - Station.x A)
                                        (Station.y B - Station.y A) in
                  cum' :: cumulative hypot g (b :: rest') cum'
              | _, _ => cumulative hypot g (b :: rest') c
              end).
      destruct (Game.stations g !! a) as [A |]; [| apply IH].
      destruct (Game.stations g !! b) as [B |]; [| apply IH].
      cbv zeta.
      set (c' := c + hypot (Station.x B - Station.x A) (Station.y B - Station.y A)).
      assert (Hc : c <= c').
      { unfold c'. pose proof (hypot_nonneg (Station.x B - Station.x A)
                                            (Station.y B - Station.y A)). lra. }
      destruct (IH c') as [H1 H2].
      assert (Hlast : List.last (c' :: cumulative hypot g (b :: rest') c') c
                      = List.last (cumulative hypot g (b :: rest') c') c')
        by apply last_cons.
      rewrite Hlast. split; [lra |].
      intros p [<- | Hp]; [lra |].
      destruct (H2 p Hp). lra.
Qed.

Lemma stationParams_range (g : Game.t) (line : Line.t) (sp : Q) :
  In sp (stationParams hypot g line) -> 0 <= sp <= 1.
Proof.
  unfold stationParams. intros [<- | H]; [lra |].
  apply in_map_iff in H. destruct H as (p & <- & Hp).
  destruct (cumulative_bounds g (Line.stations line) 0) as [_ Hb].
  destruct (Hb p Hp) as [H0 H1].
  set (total := Qmax (List.last (cumulative hypot g (Line.stations line) 0) 0) (1 # 1000000)).
  assert (Hpos : 0 < total).
  { apply Qlt_le_trans with (1 # 1000000); [reflexivity | apply Q.le_max_r]. }
  assert (Hle : p <= total).
  { eapply Qle_trans; [exact H1 | apply Q.le_max_l]. }
  split.
  - apply Qle_shift_div_l; [exact Hpos | lra].
  - apply Qle_shift_div_r; [exact Hpos | lra].
Qed.


Lemma checkCrossing_position (g g' : Game.t) (ti : nat) (train tr' : Train.t)
    (line : Line.t) (norm : list Q) (startPos endPos : Q) (dir : Z) :
  (ti < length (Game.trains g))%nat ->
  checkCrossing hypot g ti train line norm startPos endPos dir = Some g' ->
  Game.trains g' !! ti = Some tr' ->
  In (Train.position tr') norm.
Proof.
  intros Hti. unfold checkCrossing.
  destruct (List.find _ _) as [i |] eqn:Ef; [| discriminate].
  intros E. injection E as <-. intros H.
  apply List.find_some in Ef. destruct Ef as [_ Hc].
  unfold crossesAt in Hc. destruct (norm !! i) as [sp |] eqn:En; [| discriminate].
  simpl in H.
  rewrite (arriveAtStationIdx_position _ ti line i (Train.with_position sp train) tr'
             (set_train_same g ti _ Hti) H).
  simpl. apply list_elem_of_In. eapply list_elem_of_lookup_2. exact En.
Qed.

Ltac q_bool :=
  repeat match goal with
         | H : Qleb _ _ = true |- _ => apply Qleb_true in H
         | H : Qleb _ _ = false |- _ => apply Qleb_false in H
         | H : Qltb _ _ = true |- _ => apply Qltb_true in H
         | H : Qltb _ _ = false |- _ => apply Qltb_false in H
         end.

Lemma clamp_range (q : Q) : 0 <= Qmax 0 (Qmin 1 q) <= 1.
Proof.
  split; [apply Q.le_max_l |].
  apply Q.max_lub; [lra | apply Q.le_min_l].
Qed.

(** One update of one train keeps its position between 0 and 1. *)
Lemma updateTrain_position (deltaTime : Q) (g : Game.t) (ti : nat)
    (train train' : Train.t) (line : Line.t) :
  Game.trains g !! ti = Some train ->
  Game.lines g !! Train.lineId train = Some line ->
  0 <= Train.position train <= 1 ->
  (Line.isLoop line = true -> -1 <= tickAdvance deltaTime train line <= 1) ->
  Game.trains (updateTrain hypot deltaTime g ti) !! ti = Some train' ->
  0 <= Train.position train' <= 1.
Proof.
  intros Ht Hl Hpos Hloop. unfold updateTrain. rewrite Ht, Hl.
  assert (Hti : (ti < length (Game.trains g))%nat) by (eapply lookup_lt_Some; exact Ht).
  assert (Hsame : Game.trains g !! ti = Some train' -> 0 <= Train.position train' <= 1).
  { intros H. rewrite Ht in H. injection H as <-. exact Hpos. }
  destruct (length (Line.stations line) <? 2)%nat; [exact Hsame |].
  destruct (negb (forallb _ _)); [exact Hsame |].
  set (train1 := if Qltb 0 (Train.stationCooldown train)
                 then Train.with_stationCooldown (Train.stationCooldown train - deltaTime) train
                 else train).
  assert (H1p : Train.position train1 = Train.position train)
    by (unfold train1; destruct (Qltb 0 _); reflexivity).
  assert (H1d : Train.direction train1 = Train.direction train)
    by (unfold train1; destruct (Qltb 0 _); reflexivity).
  assert (H1s : Train.speed train1 = Train.speed train)
    by (unfold train1; destruct (Qltb 0 _); reflexivity).
  destruct (Qltb 0 (Train.dwellRemaining train1)).
  { (* dwelling *)
    destruct (Qleb (Train.dwellRemaining train1 - deltaTime) 0);
      rewrite set_train_same by exact Hti; intros H; injection H as <-; simpl;
      [| rewrite H1p; exact Hpos].
    destruct (negb (Line.isLoop line)); [| rewrite H1p; exact Hpos].
    destruct (Qleb (1 - (1 # 1000)) (Train.position train1)); [lra |].
    destruct (Qleb (Train.position train1) (1 # 1000)); [lra |].
    rewrite H1p; exact Hpos. }
  assert (Hnorm : forall sp : Q, In sp (stationParams hypot g line) -> 0 <= sp <= 1)
    by (intros sp; apply stationParams_range).
  assert (Hcross : forall (g0 g1 : Game.t) (tr : Train.t) (a b : Q) (dir : Z),
            (ti < length (Game.trains g0))%nat ->
            checkCrossing hypot g0 ti tr line (stationParams hypot g line) a b dir = Some g1 ->
            Game.trains g1 !! ti = Some train' -> 0 <= Train.position train' <= 1).
  { intros g0 g1 tr a b dir Hlen HC H. apply Hnorm.
    eapply checkCrossing_position; eassumption. }
  assert (Hlen2 : forall tr, (ti < length (Game.trains (set_train ti tr g)))%nat)
    by (intros tr; rewrite set_train_length; exact Hti).
  destruct (Line.isLoop line) eqn:Eloop; cbn [negb andb]; cbv zeta.
  - (* loop line *)
    specialize (Hloop eq_refl). unfold tickAdvance in Hloop.
    rewrite <- H1d, <- H1s in Hloop. rewrite <- H1p in Hpos.
    set (adv := Train.speed train1 * deltaTime / Qmax 100 (Line.totalLength line)
                * inject_Z (Train.direction train1)) in *.
    destruct (Qltb 1 (Train.position train1 + adv)) eqn:E1.
    { repeat match goal with
             | |- context [checkCrossing ?a ?b ?c ?d ?e ?f ?h ?i ?j] =>
                 let EC := fresh "EC" in
                 destruct (checkCrossing a b c d e f h i j) eqn:EC;
                   [eapply Hcross; [| exact EC]; apply Hlen2 |]
             end.
      rewrite set_train_same by apply Hlen2. intros H. injection H as <-. simpl.
      q_bool. lra. }
    destruct (Qltb (Train.position train1 + adv) 0) eqn:E2.
    { repeat match goal with
             | |- context [checkCrossing ?a ?b ?c ?d ?e ?f ?h ?i ?j] =>
                 let EC := fresh "EC" in
                 destruct (checkCrossing a b c d e f h i j) eqn:EC;
                   [eapply Hcross; [| exact EC]; apply Hlen2 |]
             end.
      rewrite set_train_same by apply Hlen2. intros H. injection H as <-. simpl.
      q_bool. lra. }
    match goal with
    | |- context [checkCrossing ?a ?b ?c ?d ?e ?f ?h ?i ?j] =>
        let EC := fresh "EC" in
        destruct (checkCrossing a b c d e f h i j) eqn:EC;
          [eapply Hcross; [| exact EC]; apply Hlen2 |]
    end.
    rewrite set_train_same by apply Hlen2. intros H. injection H as <-. simpl.
    destruct (Qleb 1 (Train.position train1 + adv)) eqn:E3; q_bool; lra.
  - (* not a loop *)
    match goal with
    | |- context [checkCrossing ?a ?b ?c ?d ?e ?f ?h ?i ?j] =>
        let EC := fresh "EC" in
        destruct (checkCrossing a b c d e f h i j) eqn:EC;
          [eapply Hcross; [| exact EC]; apply Hlen2 |]
    end.
    match goal with
    | |- context [Qmax 0 (Qmin 1 ?q)] =>
        pose proof (clamp_range q) as Hclamp; set (pos := Qmax 0 (Qmin 1 q)) in *
    end.
    assert (Harr : forall (g0 : Game.t) (tr : Train.t) (idx : nat),
              Game.trains g0 !! ti = Some tr -> 0 <= Train.position tr <= 1 ->
              Game.trains (arriveAtStationIdx hypot g0 ti line idx) !! ti = Some train' ->
              0 <= Train.position train' <= 1).
    { intros g0 tr idx H0 Hr H.
      rewrite (arriveAtStationIdx_position g0 ti line idx tr train' H0 H). exact Hr. }
    destruct (Qleb (1 - (1 # 10000)) pos).
    { match goal with |- context [if ?c then _ else _] => destruct c end.
      - apply (Harr _ _ _ (set_train_same _ ti _ (Hlen2 _))). simpl. exact Hclamp.
      - rewrite set_train_same by (rewrite set_train_length; apply Hlen2).
        intros H. injection H as <-. simpl. lra. }
    destruct (Qleb pos (0 + (1 # 10000))).
    { match goal with |- context [if ?c then _ else _] => destruct c end.
      - apply (Harr _ _ _ (set_train_same _ ti _ (Hlen2 _))). simpl. exact Hclamp.
      - rewrite set_train_same by (rewrite set_train_length; apply Hlen2).
        intros H. injection H as <-. simpl. lra. }
    rewrite set_train_same by apply Hlen2. intros H. injection H as <-. simpl.
    exact Hclamp.
Qed.


(** *** The other trains and the lines are left alone *)

Lemma set_train_other (g : Game.t) (ti tj : nat) (tr : Train.t) :
  tj <> ti -> Game.trains (set_train ti tr g) !! tj = Game.trains g !! tj.
Proof. intros H. unfold set_train. simpl. apply list_lookup_insert_ne. congruence. Qed.

Lemma handleStationArrival_other (g : Game.t) (ti si tj : nat) :
  tj <> ti ->
  Game.trains (handleStationArrival hypot g ti si) !! tj = Game.trains g !! tj /\
  Game.lines (handleStationArrival hypot g ti si) = Game.lines g.
Proof.
  intros Hne. unfold handleStationArrival.
  destruct (Game.trains g !! ti) as [train |]; [| auto].
  destruct (Game.stations g !! si) as [station |]; [| auto].
  destruct (Game.lines g !! Train.lineId train) as [line |]; [| auto].
  simpl.
  match goal with |- context [if ?c then _ else _] => destruct c end; simpl;
    rewrite ?list_lookup_insert_ne by congruence; auto.
Qed.

Lemma arriveAtStationIdx_other (g : Game.t) (ti : nat) (line : Line.t) (idx tj : nat) :
  tj <> ti ->
  Game.trains (arriveAtStationIdx hypot g ti line idx) !! tj = Game.trains g !! tj /\
  Game.lines (arriveAtStationIdx hypot g ti line idx) = Game.lines g.
Proof.
  intros Hne. unfold arriveAtStationIdx.
  destruct (Line.stations line !! idx) as [stationIndex |]; [| auto].
  destruct (handleStationArrival_other g ti stationIndex tj Hne) as [H1 H2].
  destruct (Game.trains (handleStationArrival hypot g ti stationIndex) !! ti);
    [| auto].
  destruct (Game.stations (handleStationArrival hypot g ti stationIndex) !! stationIndex);
    [| auto].
  rewrite set_train_other by exact Hne. auto.
Qed.

Lemma checkCrossing_other (g g' : Game.t) (ti tj : nat) (train : Train.t)
    (line : Line.t) (norm : list Q) (startPos endPos : Q) (dir : Z) :
  tj <> ti ->
  checkCrossing hypot g ti train line norm startPos endPos dir = Some g' ->
  Game.trains g' !! tj = Game.trains g !! tj /\ Game.lines g' = Game.lines g.
Proof.
  intros Hne. unfold checkCrossing.
  destruct (List.find _ _) as [i |]; [| discriminate].
  intros E. injection E as <-.
  destruct (arriveAtStationIdx_other
              (set_train ti (Train.with_position (default 0 (norm !! i)) train) g)
              ti line i tj Hne) as [H1 H2].
  rewrite H1, H2. rewrite set_train_other by exact Hne. auto.
Qed.

Lemma updateTrain_other (deltaTime : Q) (g : Game.t) (ti tj : nat) :
  tj <> ti ->
  Game.trains (updateTrain hypot deltaTime g ti) !! tj = Game.trains g !! tj /\
  Game.lines (updateTrain hypot deltaTime g ti) = Game.lines g.
Proof.
  intros Hne. unfold updateTrain.
  destruct (Game.trains g !! ti) as [train |]; [| auto].
  destruct (Game.lines g !! Train.lineId train) as [line |]; [| auto].
  assert (Hset : forall (g0 : Game.t) (tr : Train.t),
            Game.trains g0 !! tj = Game.trains g !! tj /\ Game.lines g0 = Game.lines g ->
            Game.trains (set_train ti tr g0) !! tj = Game.trains g !! tj /\
            Game.lines (set_train ti tr g0) = Game.lines g).
  { intros g0 tr [H1 H2]. rewrite set_train_other by exact Hne. auto. }
  assert (Harr : forall (g0 : Game.t) (idx : nat),
            Game.trains g0 !! tj = Game.trains g !! tj /\ Game.lines g0 = Game.lines g ->
            Game.trains (arriveAtStationIdx hypot g0 ti line idx) !! tj = Game.trains g !! tj /\
            Game.lines (arriveAtStationIdx hypot g0 ti line idx) = Game.lines g).
  { intros g0 idx [H1 H2].
    destruct (arriveAtStationIdx_other g0 ti line idx tj Hne) as [H3 H4].
    rewrite H3, H4. auto. }
  assert (Hchk : forall (g0 g1 : Game.t) (tr : Train.t) (norm : list Q) (a b : Q) (dir : Z),
            Game.trains g0 !! tj = Game.trains g !! tj /\ Game.lines g0 = Game.lines g ->
            checkCrossing hypot g0 ti tr line norm a b dir = Some g1 ->
            Game.trains g1 !! tj = Game.trains g !! tj /\ Game.lines g1 = Game.lines g).
  { intros g0 g1 tr norm a b dir [H1 H2] HC.
    destruct (checkCrossing_other g0 g1 ti tj tr line norm a b dir Hne HC) as [H3 H4].
    rewrite H3, H4. auto. }
  cbv zeta.
  repeat match goal with
         | |- _ /\ _ => solve [auto]
         | |- context [Game.trains (set_train ti ?tr ?g0) !! tj] =>
             first [ apply Hset | fail 1 ]
         | |- context [Game.trains (arriveAtStationIdx hypot ?g0 ti line ?idx) !! tj] =>
             first [ apply Harr | fail 1 ]
         | |- context [match checkCrossing ?a ?b ?c ?d ?e ?f ?h ?i ?j with _ => _ end] =>
             let EC := fresh "EC" in
             destruct (checkCrossing a b c d e f h i j) eqn:EC;
               [ eapply Hchk; [| exact EC] |]
         | |- context [if ?c then _ else _] => destruct c
         end.
Qed.


Lemma updateTrain_length (deltaTime : Q) (g : Game.t) (ti : nat) (tr' : Train.t) :
  Game.trains (updateTrain hypot deltaTime g ti) !! ti = Some tr' ->
  exists tr : Train.t, Game.trains g !! ti = Some tr.
Proof.
  unfold updateTrain.
  destruct (Game.trains g !! ti) as [train |] eqn:E; [eauto | intros H; congruence].
Qed.

Lemma updateTrains_fold (deltaTime : Q) (g : Game.t) (n a : nat) (gc : Game.t) :
  (forall (ti : nat) (tr : Train.t),
     Game.trains g !! ti = Some tr -> inRange tr /\ moderateTick deltaTime g tr) ->
  Game.lines gc = Game.lines g ->
  (forall (tj : nat) (tr : Train.t),
     (tj < a)%nat -> Game.trains gc !! tj = Some tr -> inRange tr) ->
  (forall tj : nat, (a <= tj)%nat -> Game.trains gc !! tj = Game.trains g !! tj) ->
  forall (tj : nat) (tr : Train.t),
    Game.trains (fold_left (updateTrain hypot deltaTime) (seq a n) gc) !! tj = Some tr ->
    ((tj < a + n)%nat -> inRange tr) /\
    ((a + n <= tj)%nat -> Game.trains g !! tj = Some tr).
Proof.
  intros Hg. revert a gc. induction n as [| n IH]; intros a gc Hlines Hdone Htodo tj tr H.
  - simpl in H. rewrite Nat.add_0_r. split.
    + intros Hlt. exact (Hdone tj tr Hlt H).
    + intros Hge. rewrite <- (Htodo tj Hge). exact H.
  - simpl in H. replace (a + S n)%nat with (S a + n)%nat by lia.
    apply (IH (S a) (updateTrain hypot deltaTime gc a)); [| | | exact H].
    + destruct (decide (a = S a)) as [E | Hne]; [lia |].
      destruct (updateTrain_other deltaTime gc a (S a)) as [_ Hl]; [lia |].
      rewrite Hl. exact Hlines.
    + intros tk trk Hk Hlook. destruct (decide (tk = a)) as [-> | Hne].
      * destruct (updateTrain_length deltaTime gc a trk Hlook) as (tr0 & H0).
        assert (H0g : Game.trains g !! a = Some tr0)
          by (rewrite <- (Htodo a (Nat.le_refl a)); exact H0).
        destruct (Hg a tr0 H0g) as [Hr Hm].
        destruct (Game.lines gc !! Train.lineId tr0) as [line |] eqn:El.
        -- apply (updateTrain_position deltaTime gc a tr0 trk line H0 El Hr);
             [| exact Hlook].
           apply Hm. rewrite <- Hlines. exact El.
        -- unfold updateTrain in Hlook. rewrite H0, El in Hlook.
           rewrite H0 in Hlook. injection Hlook as <-. exact Hr.
      * destruct (updateTrain_other deltaTime gc a tk Hne) as [Ht _].
        rewrite Ht in Hlook. apply (Hdone tk trk); [lia | exact Hlook].
    + intros tk Hk. destruct (updateTrain_other deltaTime gc a tk) as [Ht _]; [lia |].
      rewrite Ht. apply Htodo. lia.
Qed.

(** C6, as the code has it.  If before a tick every train has its normalized
    position in the closed interval from 0 to 1, then so has every train
    after [updateTrains]: on a line that is not a loop without a further
    condition, on a loop line when the tick moves the train by at most one
    lap.  On a loop line the value 1 is not excluded: a train that stops at
    the last station of the line stays at position 1 while it dwells. *)
Theorem updateTrains_positions_in_range (deltaTime : Q) (g : Game.t) :
  (forall (ti : nat) (tr : Train.t),
     Game.trains g !! ti = Some tr -> inRange tr /\ moderateTick deltaTime g tr) ->
  forall (ti : nat) (tr' : Train.t),
    Game.trains (updateTrains hypot g deltaTime) !! ti = Some tr' -> inRange tr'.
Proof.
  intros Hg ti tr' H. unfold updateTrains in H.
  destruct (updateTrains_fold deltaTime g (length (Game.trains g)) 0 g Hg eq_refl)
    with (tj := ti) (tr := tr') as [H1 H2].
  - intros tj tr Hlt. lia.
  - reflexivity.
  - exact H.
  - destruct (le_lt_dec (length (Game.trains g)) ti) as [Hout | Hin].
    + specialize (H2 Hout). apply lookup_lt_Some in H2. lia.
    + apply H1. simpl. exact Hin.
Qed.

End MotionFacts.

Lemma updateTrains_positions_in_range_witness :
  exists tr' : Train.t,
    Game.trains (updateTrains Examples.hypotQ (Examples.gameLoop (95 # 100) 0) 1000) !! 0%nat
    = Some tr' /\ inRange tr'.
Proof.
  eexists. split; [vm_compute; reflexivity |].
  apply (updateTrains_positions_in_range Examples.hypotQ hypotQ_nonneg 1000
           (Examples.gameLoop (95 # 100) 0)) with (ti := 0%nat).
  - intros ti tr H. destruct ti as [| ti]; [| destruct ti; discriminate].
    simpl in H. injection H as <-. split.
    + unfold inRange. simpl. lra.
    + intros line Hl _. simpl in Hl. injection Hl as <-. vm_compute.
      split; discriminate.
  - vm_compute. reflexivity.
Defined.

(** On a loop line a train that reaches the last station of the line is put
    on position 1 and stays there while it dwells; and a tick that covers
    more than one lap leaves the wrapped position, here 2, as it is. *)
Lemma updateTrains_loop_position_counterexample :
  (exists tr : Train.t,
     Game.trains (updateTrains Examples.hypotQ (Examples.gameLoop (95 # 100) 0) 1000) !! 0%nat
     = Some tr /\ (Train.position tr == 1)%Q) /\
  (exists tr : Train.t,
     Game.trains (updateTrains Examples.hypotQ
                    (updateTrains Examples.hypotQ (Examples.gameLoop (95 # 100) 0) 1000) 50)
       !! 0%nat = Some tr /\ (Train.position tr == 1)%Q) /\
  (exists tr : Train.t,
     Game.trains (updateTrains Examples.hypotQ (Examples.gameLoop (1 # 2) 100000) 25000) !! 0%nat
     = Some tr /\ (Train.position tr == 2)%Q).
Proof.
  repeat split; eexists; (split; [vm_compute; reflexivity |]); vm_compute; reflexivity.
Qed.

(** ** The stranded-passenger pass of the sweep *)

Section SweepFacts.

Local Open Scope Q_scope.

Variable hypot : Q -> Q -> Q.
Variable random : nat -> Q.














End SweepFacts.





(** ** The lattice router *)

Section LatticeFacts.

Import HexGrid.

Local Open Scope Z_scope.

Lemma neighbor_elem (n nb : Cube) :
  nb ∈ getHexNeighbors n <->
  exists d : Cube,
    d ∈ [ (1, -1, 0); (1, 0, -1); (0, 1, -1); (-1, 1, 0); (-1, 0, 1); (0, -1, 1) ] /\
    nb = (cq n + cq d, cr n + cr d, cs n + cs d).
Proof.
  unfold getHexNeighbors. rewrite list_elem_of_fmap. split.
  - intros (d & -> & Hd). eauto.
  - intros (d & Hd & ->). eauto.
Qed.

Lemma neighbor_valid (n nb : Cube) : valid n -> nb ∈ getHexNeighbors n -> valid nb.
Proof.
  unfold valid. intros Hn H. apply neighbor_elem in H. destruct H as (d & Hd & ->).
  elem_cases Hd; unfold cq, cr, cs in *; simpl in *; lia.
Qed.

Lemma hexSteps_nonneg (a b : Cube) : 0 <= hexSteps a b.
Proof. unfold hexSteps. apply Z.div_pos; lia. Qed.

Lemma hexSteps_zero (a b : Cube) : valid a -> valid b -> hexSteps a b = 0 -> a = b.
Proof.
  unfold valid, hexSteps. destruct a as [[aq ar] as_], b as [[bq br] bs].
  unfold cq, cr, cs. simpl. intros Ha Hb H.
  assert (Hsmall : Z.abs (aq - bq) + Z.abs (ar - br) + Z.abs (as_ - bs) < 2)
    by (apply Z.div_small_iff in H; lia).
  assert (aq = bq /\ ar = br /\ as_ = bs) as (-> & -> & ->) by lia. reflexivity.
Qed.

Lemma hexSteps_self (a : Cube) : hexSteps a a = 0.
Proof. unfold hexSteps. rewrite !Z.sub_diag. reflexivity. Qed.

(** Every vertex other than the goal has a neighbour one step closer. *)
Lemma neighbor_closer (n t : Cube) :
  valid n -> valid t -> 0 < hexSteps n t ->
  exists nb : Cube, nb ∈ getHexNeighbors n /\ hexSteps nb t = hexSteps n t - 1.
Proof.
  unfold valid. destruct n as [[q r] s], t as [[tq tr] ts].
  unfold cq, cr, cs. simpl. intros Hn Ht Hpos.
  assert (Hcases :
    hexSteps (q + 1, r + -1, s + 0) (tq, tr, ts) = hexSteps (q, r, s) (tq, tr, ts) - 1 \/
    hexSteps (q + 1, r + 0, s + -1) (tq, tr, ts) = hexSteps (q, r, s) (tq, tr, ts) - 1 \/
    hexSteps (q + 0, r + 1, s + -1) (tq, tr, ts) = hexSteps (q, r, s) (tq, tr, ts) - 1 \/
    hexSteps (q + -1, r + 1, s + 0) (tq, tr, ts) = hexSteps (q, r, s) (tq, tr, ts) - 1 \/
    hexSteps (q + -1, r + 0, s + 1) (tq, tr, ts) = hexSteps (q, r, s) (tq, tr, ts) - 1 \/
    hexSteps (q + 0, r + -1, s + 1) (tq, tr, ts) = hexSteps (q, r, s) (tq, tr, ts) - 1).
  { unfold hexSteps in *. unfold cq, cr, cs in *. simpl in *.
    set (sum := Z.abs (q - tq) + Z.abs (r - tr) + Z.abs (s - ts)) in *.
    assert (H2 : 2 <= sum).
    { destruct (Z_lt_le_dec sum 2) as [Hlt | Hle]; [| exact Hle].
      rewrite Z.div_small in Hpos by (unfold sum in *; lia). lia. }
    assert (Hdiv : (sum - 2) / 2 = sum / 2 - 1).
    { replace (sum - 2) with (sum + (-1) * 2) by ring.
      rewrite Z.div_add by lia. ring. }
    rewrite <- Hdiv.
    assert (Hsum :
      Z.abs (q + 1 - tq) + Z.abs (r + -1 - tr) + Z.abs (s + 0 - ts) = sum - 2 \/
      Z.abs (q + 1 - tq) + Z.abs (r + 0 - tr) + Z.abs (s + -1 - ts) = sum - 2 \/
      Z.abs (q + 0 - tq) + Z.abs (r + 1 - tr) + Z.abs (s + -1 - ts) = sum - 2 \/
      Z.abs (q + -1 - tq) + Z.abs (r + 1 - tr) + Z.abs (s + 0 - ts) = sum - 2 \/
      Z.abs (q + -1 - tq) + Z.abs (r + 0 - tr) + Z.abs (s + 1 - ts) = sum - 2 \/
      Z.abs (q + 0 - tq) + Z.abs (r + -1 - tr) + Z.abs (s + 1 - ts) = sum - 2)
      by (unfold sum in *; lia).
    destruct Hsum as [H | [H | [H | [H | [H | H]]]]]; rewrite H; tauto. }
  assert (Hnb : forall d : Cube,
            d ∈ [ (1, -1, 0); (1, 0, -1); (0, 1, -1); (-1, 1, 0); (-1, 0, 1); (0, -1, 1) ] ->
            (q + cq d, r + cr d, s + cs d) ∈ getHexNeighbors (q, r, s)).
  { intros d Hd. apply neighbor_elem. exists d. split; [exact Hd | reflexivity]. }
  destruct Hcases as [H | [H | [H | [H | [H | H]]]]].
  - exists (q + 1, r + -1, s + 0). split; [| exact H]. apply (Hnb (1, -1, 0)). apply list_elem_of_In; simpl; tauto.
  - exists (q + 1, r + 0, s + -1). split; [| exact H]. apply (Hnb (1, 0, -1)). apply list_elem_of_In; simpl; tauto.
  - exists (q + 0, r + 1, s + -1). split; [| exact H]. apply (Hnb (0, 1, -1)). apply list_elem_of_In; simpl; tauto.
  - exists (q + -1, r + 1, s + 0). split; [| exact H]. apply (Hnb (-1, 1, 0)). apply list_elem_of_In; simpl; tauto.
  - exists (q + -1, r + 0, s + 1). split; [| exact H]. apply (Hnb (-1, 0, 1)). apply list_elem_of_In; simpl; tauto.
  - exists (q + 0, r + -1, s + 1). split; [| exact H]. apply (Hnb (0, -1, 1)). apply list_elem_of_In; simpl; tauto.
Qed.

Lemma hexDistance_steps (a b : Cube) :
  valid a -> valid b -> (hexDistance a b == inject_Z (hexSteps a b))%Q.
Proof.
  unfold valid, hexDistance, hexSteps. intros Ha Hb.
  set (sum := Z.abs (cq a - cq b) + Z.abs (cr a - cr b) + Z.abs (cs a - cs b)).
  assert (Heven : exists k : Z, sum = 2 * k).
  { unfold sum.
    destruct (Z.abs_spec (cq a - cq b)) as [[? ->] | [? ->]],
             (Z.abs_spec (cr a - cr b)) as [[? ->] | [? ->]],
             (Z.abs_spec (cs a - cs b)) as [[? ->] | [? ->]];
      first [ exists 0; lia
            | exists (cq a - cq b); lia | exists (cr a - cr b); lia
            | exists (cs a - cs b); lia | exists (- (cq a - cq b)); lia
            | exists (- (cr a - cr b)); lia | exists (- (cs a - cs b)); lia ]. }
  destruct Heven as [k Hk]. rewrite Hk.
  rewrite (Z.mul_comm 2 k), Z.div_mul by lia. rewrite inject_Z_mult. field.
Qed.

Lemma goal_test (c t : Cube) :
  valid c -> valid t -> (Qltb (hexDistance c t) 1 = true <-> c = t).
Proof.
  intros Hc Ht. rewrite Qltb_true, (hexDistance_steps c t Hc Ht). split.
  - intros H. apply hexSteps_zero; [exact Hc | exact Ht |].
    pose proof (hexSteps_nonneg c t).
    assert (hexSteps c t < 1); [| lia].
    rewrite Zlt_Qlt. exact H.
  - intros ->. rewrite hexSteps_self. reflexivity.
Qed.

End LatticeFacts.

(** ** The search reaches the goal *)

Section SearchFacts.

Import HexGrid.

Local Open Scope Z_scope.

Variables start goal : Cube.
Hypothesis start_valid : valid start.
Hypothesis goal_valid : valid goal.

(** *** The node of lowest f-score *)

Lemma lowest_scan (st : Search) (n a idx : nat) :
  (a + n <= length (open st))%nat -> (idx < a)%nat ->
  (forall (j : nat) (cj c : Cube), (j < a)%nat -> open st !! j = Some cj ->
     open st !! idx = Some c -> nle (getF st c) (getF st cj)) ->
  let r := fold_left
             (fun idx i =>
                match open st !! i, open st !! idx with
                | Some ci, Some cidx => if nltb (getF st ci) (getF st cidx) then i else idx
                | _, _ => idx
                end) (seq a n) idx in
  (r < a + n)%nat /\
  (forall (j : nat) (cj c : Cube), (j < a + n)%nat -> open st !! j = Some cj ->
     open st !! r = Some c -> nle (getF st c) (getF st cj)).
Proof.
  revert a idx. induction n as [| n IH]; intros a idx Hlen Hidx Hmin; simpl.
  - rewrite Nat.add_0_r. auto.
  - replace (a + S n)%nat with (S a + n)%nat by lia.
    destruct (lookup_lt_is_Some_2 (open st) a) as [ca Ha]; [lia |].
    destruct (lookup_lt_is_Some_2 (open st) idx) as [ci Hi]; [lia |].
    rewrite Ha, Hi.
    destruct (nltb (getF st ca) (getF st ci)) eqn:E.
    + apply IH; [lia | lia |].
      intros j cj c Hj Hcj Hc. rewrite Ha in Hc. injection Hc as <-.
      destruct (decide (j = a)) as [-> | Hne].
      * rewrite Ha in Hcj. injection Hcj as <-. apply nle_refl.
      * eapply nle_trans; [apply nltb_true_nle; exact E |].
        apply (Hmin j cj ci); [lia | exact Hcj | exact Hi].
    + apply IH; [lia | lia |].
      intros j cj c Hj Hcj Hc. rewrite Hi in Hc. injection Hc as <-.
      destruct (decide (j = a)) as [-> | Hne].
      * rewrite Ha in Hcj. injection Hcj as <-. apply nltb_false_nle. exact E.
      * apply (Hmin j cj ci); [lia | exact Hcj | exact Hi].
Qed.

Lemma lowest_spec (st : Search) :
  open st <> [] ->
  exists c : Cube,
    open st !! lowest st = Some c /\
    forall m : Cube, m ∈ open st -> nle (getF st c) (getF st m).
Proof.
  intros Hne. unfold lowest.
  assert (Hlen : (0 < length (open st))%nat) by (destruct (open st); [contradiction | simpl; lia]).
  destruct (lowest_scan st (length (open st) - 1) 1 0) as [Hr Hmin].
  - lia.
  - lia.
  - intros j cj c Hj Hcj Hc. assert (j = 0%nat) as -> by lia.
    rewrite Hcj in Hc. injection Hc as <-. apply nle_refl.
  - cbv zeta in Hr, Hmin.
    match type of Hr with
    | (?r < _)%nat =>
        destruct (lookup_lt_is_Some_2 (open st) r) as [c Hc]; [lia |]
    end.
    exists c. split; [exact Hc |].
    intros m Hm. apply list_elem_of_lookup in Hm. destruct Hm as [j Hj].
    apply (Hmin j m c); [| exact Hj | exact Hc].
    apply lookup_lt_Some in Hj. lia.
Qed.

(** *** Some node of [open] has an f-score of at most the distance *)

Lemma open_witness (st : Search) :
  search_inv start goal None st ->
  forall (k : nat) (n : Cube) (v : Z),
    gScore st !! n = Some v -> hexSteps n goal = Z.of_nat k ->
    v + Z.of_nat k <= hexSteps start goal ->
    exists (m : Cube) (fv : Q),
      m ∈ open st /\ fScore st !! m = Some fv /\
      (fv <= inject_Z (hexSteps start goal))%Q.
Proof.
  intros Hinv. induction k as [| k IH]; intros n v Hg Hk Hle.
  - destruct (decide (n ∈ open st)) as [Hin | Hout].
    + destruct (si_f _ _ _ _ Hinv n v Hg) as (fv & Hf & Hfv).
      exists n, fv. split; [exact Hin |]. split; [exact Hf |].
      rewrite Hfv, Hk, <- inject_Z_plus, <- Zle_Qle. exact Hle.
    + exfalso. destruct (si_range _ _ _ _ Hinv n v Hg) as [_ Hvn].
      assert (n = goal) as -> by (apply hexSteps_zero; [exact Hvn | exact goal_valid | exact Hk]).
      rewrite (si_goal _ _ _ _ Hinv Hout) in Hg. discriminate.
  - destruct (decide (n ∈ open st)) as [Hin | Hout].
    + destruct (si_f _ _ _ _ Hinv n v Hg) as (fv & Hf & Hfv).
      exists n, fv. split; [exact Hin |]. split; [exact Hf |].
      rewrite Hfv, Hk, <- inject_Z_plus, <- Zle_Qle. exact Hle.
    + destruct (si_range _ _ _ _ Hinv n v Hg) as [_ Hvn].
      destruct (neighbor_closer n goal Hvn goal_valid) as (nb & Hnb & Hcl); [lia |].
      destruct (si_closed _ _ _ _ Hinv n v Hg Hout nb) as (v' & Hg' & Hv').
      { split; [exact Hnb | exact I]. }
      apply (IH nb v' Hg'); lia.
Qed.


(** *** Taking the node out of [open] *)

Lemma delete_elem (l : list Cube) (i : nat) (c n : Cube) :
  NoDup l -> l !! i = Some c -> (n ∈ delete i l <-> n ∈ l /\ n <> c).
Proof.
  intros Hnd Hi. rewrite delete_take_drop.
  pose proof (take_drop_middle l i c Hi) as E.
  set (a := take i l) in *. set (b := drop (S i) l) in *.
  rewrite <- E in Hnd. rewrite <- E.
  apply NoDup_app in Hnd. destruct Hnd as (_ & Hdisj & Hnd2).
  apply NoDup_cons in Hnd2. destruct Hnd2 as [Hc _].
  rewrite !elem_of_app, elem_of_cons. split.
  - intros [H | H].
    + split; [auto |]. intros ->. apply (Hdisj c H). apply elem_of_cons. auto.
    + split; [auto |]. intros ->. contradiction.
  - intros [[H | [-> | H]] Hne]; [auto | contradiction | auto].
Qed.

Lemma pop_inv (st : Search) (c : Cube) :
  search_inv start goal None st ->
  open st !! lowest st = Some c -> c <> goal ->
  search_inv start goal (Some (c, [])) (popped st c) /\ c ∉ open (popped st c).
Proof.
  intros [Hs Hr Hf Hoi Hnd Hog Hc Hcd Hcl Hg] Hlow Hne.
  assert (Hdel : forall n, n ∈ delete (lowest st) (open st) <-> n ∈ open st /\ n <> c)
    by (intros n; apply delete_elem; assumption).
  split; [constructor; simpl |].
  - exact Hs.
  - exact Hr.
  - exact Hf.
  - intros n. rewrite Hdel, elem_of_difference, elem_of_singleton, Hoi. tauto.
  - eapply sublist_NoDup; [exact Hnd | apply sublist_delete].
  - intros n Hn. apply Hog. apply Hdel in Hn. tauto.
  - exact Hc.
  - exact Hcd.
  - intros n v Hn Hout nb [Hnb Hexc].
    destruct (decide (n = c)) as [-> | Hnc].
    + specialize (Hexc eq_refl). inversion Hexc.
    + apply (Hcl n v Hn); [| split; [exact Hnb | exact I]].
      intros Hin. apply Hout. apply Hdel. auto.
  - intros Hout. apply Hg. intros Hin. apply Hout. apply Hdel. auto.
  - simpl. rewrite Hdel. tauto.
Qed.


(** *** Visiting a neighbour *)

Lemma improves_false (tg : Z) (old : option Z) :
  improves tg old = false -> exists v : Z, old = Some v /\ v <= tg.
Proof.
  destruct old as [v |]; simpl; [| discriminate].
  intros H. apply Z.ltb_ge in H. eauto.
Qed.

Lemma improves_true (tg : Z) (old : option Z) :
  improves tg old = true -> forall v : Z, old = Some v -> tg < v.
Proof.
  intros H v ->. simpl in H. apply Z.ltb_lt. exact H.
Qed.

Lemma visit_inv (st : Search) (c nb : Cube) (done : list Cube) (gc : Z) :
  search_inv start goal (Some (c, done)) st ->
  c ∉ open st -> gScore st !! c = Some gc -> gc <= hexSteps start goal ->
  nb ∈ getHexNeighbors c ->
  search_inv start goal (Some (c, done ++ [nb])) (visit goal c st nb) /\
  (c ∉ open (visit goal c st nb)) /\ gScore (visit goal c st nb) !! c = Some gc.
Proof.
  intros [Hs Hr Hf Hoi Hnd Hog Hc Hcd Hcl Hg] Hco Hgc Hle Hnb.
  unfold visit. rewrite Hgc.
  destruct (improves (gc + 1) (gScore st !! nb)) eqn:Eimp.
  - (* the score of [nb] improves *)
    assert (Hnbc : nb <> c).
    { intros ->. pose proof (improves_true _ _ Eimp gc Hgc). lia. }
    assert (Hnbs : nb <> start).
    { intros ->. pose proof (improves_true _ _ Eimp 0 Hs).
      destruct (Hr c gc Hgc). lia. }
    assert (Hopen' : forall n, n ∈ (if bool_decide (nb ∈ inOpen st)
                                    then open st else open st ++ [nb])
                               <-> n ∈ open st \/ n = nb).
    { intros n. case_bool_decide as Hin.
      - split; [auto |]. intros [H | ->]; [exact H | apply Hoi; exact Hin].
      - rewrite elem_of_app, list_elem_of_singleton. tauto. }
    split; [constructor; simpl | split; simpl].
    + rewrite lookup_insert_ne by exact Hnbs. exact Hs.
    + intros n v Hn. destruct (decide (nb = n)) as [<- | Hne].
      * rewrite lookup_insert_eq in Hn. injection Hn as <-.
        destruct (Hr c gc Hgc) as [Hrange Hvc].
        split; [lia | eapply neighbor_valid; eassumption].
      * rewrite lookup_insert_ne in Hn by exact Hne. apply Hr. exact Hn.
    + intros n v Hn. destruct (decide (nb = n)) as [<- | Hne].
      * rewrite lookup_insert_eq in Hn. injection Hn as <-.
        rewrite lookup_insert_eq. eexists. split; [reflexivity |].
        destruct (Hr c gc Hgc) as [_ Hvc].
        rewrite (hexDistance_steps nb goal); [reflexivity | | exact goal_valid].
        eapply neighbor_valid; eassumption.
      * rewrite lookup_insert_ne in Hn by exact Hne.
        rewrite lookup_insert_ne by exact Hne. apply Hf. exact Hn.
    + intros n. rewrite Hopen'. case_bool_decide as Hin.
      * rewrite Hoi. split; [intros [H | ->]; assumption | auto].
      * rewrite elem_of_union, elem_of_singleton, Hoi. tauto.
    + case_bool_decide as Hin; [exact Hnd |].
      apply NoDup_app. split; [exact Hnd |]. split; [| apply NoDup_singleton].
      intros x Hx Hx'. apply list_elem_of_singleton in Hx'. subst x.
      apply Hin, Hoi, Hx.
    + intros n Hn. apply Hopen' in Hn. destruct Hn as [Hn | ->].
      * destruct (decide (nb = n)) as [<- | Hne];
          [rewrite lookup_insert_eq; eauto |].
        rewrite lookup_insert_ne by exact Hne. apply Hog. exact Hn.
      * rewrite lookup_insert_eq. eauto.
    + intros n m Hnm. destruct (decide (nb = n)) as [<- | Hne].
      * rewrite lookup_insert_eq in Hnm. injection Hnm as <-.
        exists (gc + 1), gc. rewrite lookup_insert_eq.
        rewrite lookup_insert_ne by exact Hnbc. split; [reflexivity |].
        split; [exact Hgc | lia].
      * rewrite lookup_insert_ne in Hnm by exact Hne.
        destruct (Hc n m Hnm) as (vn & vm & Hvn & Hvm & Hlt).
        rewrite lookup_insert_ne by exact Hne.
        destruct (decide (nb = m)) as [<- | Hnem].
        -- exists vn, (gc + 1). rewrite lookup_insert_eq.
           pose proof (improves_true _ _ Eimp vm Hvm).
           split; [exact Hvn |]. split; [reflexivity | lia].
        -- exists vn, vm. rewrite lookup_insert_ne by exact Hnem. auto.
    + intros n v Hn. destruct (decide (nb = n)) as [<- | Hne].
      * right. rewrite lookup_insert_eq. eauto.
      * rewrite lookup_insert_ne in Hn by exact Hne.
        rewrite lookup_insert_ne by exact Hne. eapply Hcd. exact Hn.
    + intros n v Hn Hout x [Hx Hexc].
      assert (Hnenb : nb <> n).
      { intros <-. apply Hout. apply Hopen'. auto. }
      rewrite lookup_insert_ne in Hn by exact Hnenb.
      assert (Hout' : n ∉ open st) by (intros H; apply Hout; apply Hopen'; auto).
      destruct (decide (nb = x)) as [<- | Hnex].
      * rewrite lookup_insert_eq. eexists. split; [reflexivity |].
        destruct (decide (n = c)) as [-> | Hnc].
        -- rewrite Hgc in Hn. injection Hn as <-. lia.
        -- destruct (Hcl n v Hn Hout' nb) as (v' & Hv' & Hle').
           { split; [exact Hx |]. intros E. contradiction. }
           pose proof (improves_true _ _ Eimp v' Hv'). lia.
      * rewrite lookup_insert_ne by exact Hnex.
        apply (Hcl n v Hn Hout'). split; [exact Hx |].
        intros E. specialize (Hexc E). apply elem_of_app in Hexc.
        destruct Hexc as [Hexc | Hexc]; [exact Hexc |].
        apply list_elem_of_singleton in Hexc. congruence.
    + intros Hout. assert (Hgnb : nb <> goal).
      { intros <-. apply Hout. apply Hopen'. auto. }
      rewrite lookup_insert_ne by exact Hgnb. apply Hg.
      intros H. apply Hout. apply Hopen'. auto.
    + rewrite Hopen'. intros [H | E]; [contradiction | congruence].
    + rewrite lookup_insert_ne by exact Hnbc. exact Hgc.
  - (* nothing changes *)
    apply improves_false in Eimp. destruct Eimp as (vnb & Hvnb & Hlenb).
    split; [constructor | split]; try assumption.
    intros n v Hn Hout x [Hx Hexc].
    destruct (decide (n = c /\ x = nb)) as [[-> ->] | Hnot].
    + rewrite Hgc in Hn. injection Hn as <-. exists vnb. split; [exact Hvnb | lia].
    + apply (Hcl n v Hn Hout). split; [exact Hx |].
      intros E. specialize (Hexc E). apply elem_of_app in Hexc.
      destruct Hexc as [Hexc | Hexc]; [exact Hexc |].
      apply list_elem_of_singleton in Hexc. tauto.
Qed.


Lemma visit_all_inv (todo done : list Cube) (st : Search) (c : Cube) (gc : Z) :
  (forall nb : Cube, nb ∈ todo -> nb ∈ getHexNeighbors c) ->
  search_inv start goal (Some (c, done)) st ->
  c ∉ open st -> gScore st !! c = Some gc -> gc <= hexSteps start goal ->
  search_inv start goal (Some (c, done ++ todo)) (fold_left (visit goal c) todo st).
Proof.
  revert done st. induction todo as [| nb todo IH]; intros done st Hsub Hinv Hco Hgc Hle.
  - simpl. rewrite app_nil_r. exact Hinv.
  - simpl. destruct (visit_inv st c nb done gc Hinv Hco Hgc Hle) as (Hinv' & Hco' & Hgc').
    { apply Hsub. left. }
    replace (done ++ nb :: todo) with ((done ++ [nb]) ++ todo)
      by (rewrite <- app_assoc; reflexivity).
    apply IH; try assumption.
    intros x Hx. apply Hsub. right. exact Hx.
Qed.

Lemma expand_inv (st : Search) (c : Cube) (gc : Z) :
  search_inv start goal None st ->
  open st !! lowest st = Some c -> c <> goal ->
  gScore st !! c = Some gc -> gc <= hexSteps start goal ->
  search_inv start goal None
    (fold_left (visit goal c) (getHexNeighbors c) (popped st c)).
Proof.
  intros Hinv Hlow Hne Hgc Hle.
  destruct (pop_inv st c Hinv Hlow Hne) as [Hmid Hco].
  pose proof (visit_all_inv (getHexNeighbors c) [] (popped st c) c gc
                (fun nb H => H) Hmid Hco Hgc Hle) as Hall.
  destruct Hall as [Hs Hr Hf Hoi Hnd Hog Hc Hcd Hcl Hg].
  constructor; try assumption.
  intros n v Hn Hout nb [Hnb _]. apply (Hcl n v Hn Hout).
  split; [exact Hnb |]. intros ->. exact Hnb.
Qed.

(** *** The measure decreases *)

Lemma visit_weight (st : Search) (c nb : Cube) (done : list Cube) (gc : Z) (n : Cube) :
  search_inv start goal (Some (c, done)) st ->
  gScore st !! c = Some gc -> gc <= hexSteps start goal ->
  (weight (hexSteps start goal + 2) (visit goal c st nb) n
   <= weight (hexSteps start goal + 2) st n)%nat.
Proof.
  intros [Hs Hr Hf Hoi Hnd Hog Hc Hcd Hcl Hg] Hgc Hle.
  unfold visit. rewrite Hgc.
  destruct (improves (gc + 1) (gScore st !! nb)) eqn:Eimp; [| lia].
  unfold weight. simpl.
  destruct (Hr c gc Hgc) as [Hgcr _].
  destruct (decide (nb = n)) as [<- | Hne].
  - rewrite lookup_insert_eq.
    destruct (gScore st !! nb) as [v |] eqn:Ev.
    + pose proof (improves_true _ _ Eimp v eq_refl).
      repeat case_bool_decide; lia.
    + assert (Hnin : nb ∉ inOpen st).
      { intros Hin. apply Hoi in Hin. apply Hog in Hin. rewrite Ev in Hin.
        destruct Hin as [? ?]. discriminate. }
      rewrite (bool_decide_eq_false_2 _ Hnin).
      case_bool_decide; lia.
  - rewrite lookup_insert_ne by exact Hne.
    assert (Hiff : n ∈ (if bool_decide (nb ∈ inOpen st) then inOpen st
                        else {[nb]} ∪ inOpen st) <-> n ∈ inOpen st).
    { case_bool_decide; [tauto |].
      rewrite elem_of_union, elem_of_singleton. split; [| auto].
      intros [E | Hm]; [congruence | exact Hm]. }
    rewrite (bool_decide_ext _ _ Hiff). lia.
Qed.

Lemma visit_all_weight (todo done : list Cube) (st : Search) (c : Cube) (gc : Z) (n : Cube) :
  (forall nb : Cube, nb ∈ todo -> nb ∈ getHexNeighbors c) ->
  search_inv start goal (Some (c, done)) st ->
  c ∉ open st -> gScore st !! c = Some gc -> gc <= hexSteps start goal ->
  (weight (hexSteps start goal + 2) (fold_left (visit goal c) todo st) n
   <= weight (hexSteps start goal + 2) st n)%nat.
Proof.
  revert done st. induction todo as [| nb todo IH]; intros done st Hsub Hinv Hco Hgc Hle.
  - simpl. lia.
  - simpl. destruct (visit_inv st c nb done gc Hinv Hco Hgc Hle) as (Hinv' & Hco' & Hgc').
    { apply Hsub. left. }
    etransitivity.
    + apply (IH (done ++ [nb])); try assumption.
      intros x Hx. apply Hsub. right. exact Hx.
    + eapply visit_weight; eassumption.
Qed.

Lemma pop_weight (st : Search) (c n : Cube) :
  (weight (hexSteps start goal + 2) (popped st c) n
   <= weight (hexSteps start goal + 2) st n)%nat /\
  (c ∈ inOpen st ->
   (weight (hexSteps start goal + 2) (popped st c) c
    < weight (hexSteps start goal + 2) st c)%nat).
Proof.
  unfold weight, popped. simpl. split.
  - repeat case_bool_decide; try lia.
    exfalso. match goal with H : n ∈ _ ∖ _ |- _ => apply elem_of_difference in H end.
    tauto.
  - intros Hin. rewrite (bool_decide_eq_true_2 _ Hin).
    case_bool_decide as H; [| lia].
    apply elem_of_difference in H. destruct H as [_ H]. exfalso. apply H.
    apply elem_of_singleton. reflexivity.
Qed.

Lemma list_sum_decrease (f f' : Cube -> nat) (l : list Cube) (c : Cube) :
  (forall n : Cube, (f' n <= f n)%nat) -> (f' c < f c)%nat -> In c l ->
  (list_sum (map f' l) < list_sum (map f l))%nat.
Proof.
  intros Hle Hlt. induction l as [| x l IH]; intros Hin; [contradiction |].
  simpl. destruct Hin as [-> | Hin].
  - assert (list_sum (map f' l) <= list_sum (map f l))%nat; [| lia].
    clear IH. induction l as [| y l IHl]; simpl; [lia |]. specialize (Hle y). lia.
  - specialize (IH Hin). specialize (Hle x). lia.
Qed.

Lemma ball_elem (n : Cube) (radius : Z) :
  valid n -> valid goal -> hexSteps n goal <= radius -> In n (ball goal radius).
Proof.
  unfold valid, hexSteps, ball. destruct n as [[q r] s], goal as [[tq tr] ts].
  unfold cq, cr, cs. simpl. intros Hn Ht Hle.
  assert (Hsum : Z.abs (q - tq) + Z.abs (r - tr) + Z.abs (s - ts) <= 2 * radius + 1).
  { destruct (Z_le_gt_dec (Z.abs (q - tq) + Z.abs (r - tr) + Z.abs (s - ts))
                          (2 * radius + 1)) as [H | H]; [exact H |].
    exfalso.
    assert (radius + 1 <= (Z.abs (q - tq) + Z.abs (r - tr) + Z.abs (s - ts)) / 2);
      [| lia].
    apply Z.div_le_lower_bound; lia. }
  assert (Hq : Z.abs (q - tq) <= radius) by lia.
  assert (Hr : Z.abs (r - tr) <= radius) by lia.
  assert (Hrange : forall d : Z, Z.abs d <= radius ->
            In d (map (fun i => Z.of_nat i - radius) (seq 0 (Z.to_nat (2 * radius + 1))))).
  { intros d Hd. apply in_map_iff. exists (Z.to_nat (d + radius)).
    split; [lia |]. apply in_seq. lia. }
  apply in_flat_map. exists (q - tq). split; [apply Hrange; exact Hq |].
  apply in_map_iff. exists (r - tr). split; [| apply Hrange; exact Hr].
  f_equal; [f_equal |]; lia.
Qed.


(** The node taken from [open] has f-score at most the lattice distance from
    start to goal: some node on a shortest route is always in [open]. *)
Lemma popped_bound (st : Search) :
  search_inv start goal None st ->
  exists (c : Cube) (gc : Z),
    open st !! lowest st = Some c /\ gScore st !! c = Some gc /\
    gc + hexSteps c goal <= hexSteps start goal /\ 0 <= gc /\ valid c /\ c ∈ open st.
Proof.
  intros Hinv.
  pose proof (hexSteps_nonneg start goal) as HD.
  destruct (open_witness st Hinv (Z.to_nat (hexSteps start goal)) start 0)
    as (m & fm & Hm & Hfm & Hfmle).
  - apply (si_start _ _ _ _ Hinv).
  - lia.
  - lia.
  - destruct (lowest_spec st) as (c & Hlow & Hmin).
    { intros E. rewrite E in Hm. inversion Hm. }
    assert (Hc : c ∈ open st) by (apply list_elem_of_lookup; eauto).
    destruct (si_open_g _ _ _ _ Hinv c Hc) as [gc Hgc].
    destruct (si_f _ _ _ _ Hinv c gc Hgc) as (fc & Hfc & Hfceq).
    destruct (si_range _ _ _ _ Hinv c gc Hgc) as [Hrange Hv].
    specialize (Hmin m Hm). unfold getF in Hmin. rewrite Hfc, Hfm in Hmin. simpl in Hmin.
    exists c, gc. repeat split; try assumption; try lia.
    rewrite Zle_Qle, inject_Z_plus. lra.
Qed.

Lemma step_decrease (st : Search) (c : Cube) :
  search_inv start goal None st ->
  open st !! lowest st = Some c -> c <> goal ->
  (potential start goal
     (fold_left (visit goal c) (getHexNeighbors c) (popped st c))
   < potential start goal st)%nat.
Proof.
  intros Hinv Hlow Hne.
  destruct (popped_bound st Hinv) as (c' & gc & Hlow' & Hgc & Hle & Hgc0 & Hv & Hin).
  rewrite Hlow in Hlow'. injection Hlow' as <-.
  pose proof (hexSteps_nonneg c goal) as Hh.
  destruct (pop_inv st c Hinv Hlow Hne) as [Hmid Hco].
  assert (Hall : forall n : Cube,
            (weight (hexSteps start goal + 2)
               (fold_left (visit goal c) (getHexNeighbors c) (popped st c)) n
             <= weight (hexSteps start goal + 2) (popped st c) n)%nat).
  { intros n. apply (visit_all_weight (getHexNeighbors c) [] (popped st c) c gc n);
      [auto | exact Hmid | exact Hco | exact Hgc | lia]. }
  unfold potential. apply list_sum_decrease with (c := c).
  - intros n. etransitivity; [apply Hall |]. apply pop_weight.
  - eapply Nat.le_lt_trans; [apply Hall |]. apply (pop_weight st c c).
    apply (proj1 (si_open_in _ _ _ _ Hinv c)). exact Hin.
  - apply ball_elem; [exact Hv | exact goal_valid | lia].
Qed.

(** *** Reconstruction of the path *)

Lemma reconstruct_spec (st : Search) :
  search_inv start goal None st ->
  forall (fuel : nat) (cur : Cube) (v : Z) (acc : list Cube),
    gScore st !! cur = Some v -> v < Z.of_nat fuel -> head acc = Some cur ->
    exists pathCubes : list Cube,
      reconstruct fuel (came st) cur acc = Some pathCubes /\
      head pathCubes = Some start /\ last pathCubes = last acc.
Proof.
  intros Hinv. induction fuel as [| fuel IH]; intros cur v acc Hg Hv Hhead.
  - destruct (si_range _ _ _ _ Hinv cur v Hg) as [? _]. lia.
  - simpl. destruct (came st !! cur) as [prev |] eqn:Ecame.
    + destruct (si_came _ _ _ _ Hinv cur prev Ecame) as (vn & vm & Hvn & Hvm & Hlt).
      rewrite Hg in Hvn. injection Hvn as <-.
      destruct (IH prev vm (prev :: acc) Hvm) as (p & Hp & Hh & Hl); [lia | reflexivity |].
      exists p. split; [exact Hp |]. split; [exact Hh |].
      rewrite Hl. destruct acc; [discriminate | reflexivity].
    + exists acc. split; [reflexivity |]. split; [| reflexivity].
      destruct (si_came_dom _ _ _ _ Hinv cur v Hg) as [-> | [x Hx]]; [exact Hhead |].
      congruence.
Qed.

Lemma initialSearch_inv : search_inv start goal None (initialSearch start goal).
Proof.
  pose proof (hexSteps_nonneg start goal) as HD.
  constructor; simpl.
  - apply lookup_singleton_eq.
  - intros n v H. apply lookup_singleton_Some in H. destruct H as [<- <-].
    split; [lia | exact start_valid].
  - intros n v H. apply lookup_singleton_Some in H. destruct H as [<- <-].
    exists (hexDistance start goal). split; [apply lookup_singleton_eq |].
    rewrite (hexDistance_steps start goal start_valid goal_valid).
    unfold inject_Z. lra.
  - intros n. rewrite list_elem_of_singleton, elem_of_singleton. tauto.
  - apply NoDup_singleton.
  - intros n H. apply list_elem_of_singleton in H. subst n.
    rewrite lookup_singleton_eq. eauto.
  - intros n m H. rewrite lookup_empty in H. discriminate.
  - intros n v H. apply lookup_singleton_Some in H. left. symmetry. tauto.
  - intros n v H Hout. apply lookup_singleton_Some in H. destruct H as [<- _].
    exfalso. apply Hout. apply list_elem_of_singleton. reflexivity.
  - intros Hout. apply lookup_singleton_ne. intros ->. apply Hout.
    apply list_elem_of_singleton. reflexivity.
Qed.

(** *** The search returns a path from start to goal *)

Lemma searchLoop_total (rfuel : nat) :
  hexSteps start goal < Z.of_nat rfuel ->
  forall (fuel : nat) (st : Search),
    search_inv start goal None st ->
    (potential start goal st < fuel)%nat ->
    exists pathCubes : list Cube,
      searchLoop fuel rfuel goal st = Some (Some pathCubes) /\
      head pathCubes = Some start /\ last pathCubes = Some goal.
Proof.
  intros Hrf. induction fuel as [| fuel IH]; intros st Hinv Hpot; [lia |].
  destruct (popped_bound st Hinv) as (c & gc & Hlow & Hgc & Hle & Hgc0 & Hv & Hin).
  pose proof (hexSteps_nonneg c goal) as Hh.
  cbn [searchLoop]. rewrite Hlow.
  destruct (Qltb (hexDistance c goal) 1) eqn:Etest.
  - apply (goal_test c goal Hv goal_valid) in Etest. subst c.
    destruct (reconstruct_spec st Hinv rfuel goal gc [goal] Hgc) as (p & Hp & Hh1 & Hl);
      [lia | reflexivity |].
    cbn [popped came]. rewrite Hp. exists p. auto.
  - assert (Hne : c <> goal).
    { intros ->. rewrite (proj2 (goal_test goal goal goal_valid goal_valid) eq_refl) in Etest.
      discriminate. }
    apply IH.
    + apply (expand_inv st c gc); try assumption. lia.
    + pose proof (step_decrease st c Hinv Hlow Hne). lia.
Qed.

End SearchFacts.

(** ** The router in world coordinates *)

Section RouterFacts.

Import HexGrid.
Local Open Scope R_scope.

Lemma Math_roundR_IZR (z : Z) : Math_roundR (IZR z) = z.
Proof.
  unfold Math_roundR.
  rewrite <- (up_tech (IZR z + / 2) z); [lia | lra | rewrite plus_IZR; lra].
Qed.

Lemma roundCube_valid (q r s : R) : valid (roundCube q r s).
Proof.
  unfold roundCube, valid. cbv zeta.
  repeat destruct (Rlt_dec _ _); unfold cq, cr, cs; simpl; lia.
Qed.

Lemma roundCube_IZR (c : Cube) :
  valid c -> roundCube (IZR (cq c)) (IZR (cr c)) (IZR (cs c)) = c.
Proof.
  unfold valid, roundCube. intros Hv. rewrite !Math_roundR_IZR. cbv zeta.
  replace (IZR (cq c) - IZR (cq c)) with 0 by ring.
  replace (IZR (cr c) - IZR (cr c)) with 0 by ring.
  replace (IZR (cs c) - IZR (cs c)) with 0 by ring.
  rewrite Rabs_R0.
  destruct (Rlt_dec 0 0) as [H | _]; [lra |].
  destruct c as [[q r] s]. unfold cq, cr, cs in *. simpl in *.
  f_equal. lia.
Qed.

(** A lattice vertex snaps to itself. *)
Lemma pixelToCube_cubeToPixel (c : Cube) (size : R) :
  size <> 0 -> valid c ->
  pixelToCube (px (cubeToPixel c size)) (py (cubeToPixel c size)) size = c.
Proof.
  intros Hsize Hv. unfold pixelToCube, cubeToPixel. cbn [px py]. cbv zeta.
  assert (Ht : sqrt 3 * sqrt 3 = 3) by (apply sqrt_sqrt; lra).
  set (t := sqrt 3) in *.
  assert (Hq : 2 / 3 * (size * (15 / 10 * IZR (cq c)) / size) = IZR (cq c))
    by (field; exact Hsize).
  assert (Hr : -1 / 3 * (size * (15 / 10 * IZR (cq c)) / size)
               + t / 3 * (size * (t / 2 * IZR (cq c) + t * IZR (cr c)) / size)
               = IZR (cr c)).
  { replace (-1 / 3 * (size * (15 / 10 * IZR (cq c)) / size)
             + t / 3 * (size * (t / 2 * IZR (cq c) + t * IZR (cr c)) / size))
      with (-1 / 2 * IZR (cq c) + (t * t) / 3 * (IZR (cq c) / 2 + IZR (cr c)))
      by (field; exact Hsize).
    rewrite Ht. field. }
  rewrite Hq, Hr.
  replace (- IZR (cq c) - IZR (cr c)) with (IZR (cs c)).
  - apply roundCube_IZR. exact Hv.
  - unfold valid in Hv. replace (cs c) with (- cq c - cr c)%Z by lia.
    rewrite minus_IZR, opp_IZR. ring.
Qed.

Lemma snapToHexVertex_cube (x y size : R) :
  size <> 0 ->
  pixelToCube (px (snapToHexVertex x y size)) (py (snapToHexVertex x y size)) size
  = pixelToCube x y size.
Proof.
  intros Hsize. unfold snapToHexVertex. apply pixelToCube_cubeToPixel; [exact Hsize |].
  apply roundCube_valid.
Qed.

Lemma last_map_Some (out : list Point) : List.last (map Some out) None = last out.
Proof.
  induction out as [| x [| y out] IH]; [reflexivity | reflexivity |].
  change (List.last (map Some (x :: y :: out)) None)
    with (List.last (map Some (y :: out)) None).
  rewrite IH. reflexivity.
Qed.

Lemma dedup_fold (l out : list Point) :
  out <> [] ->
  head (fold_left dedup_step l out) = head out /\
  last (fold_left dedup_step l out) = last (out ++ l).
Proof.
  revert out. induction l as [| p l IH]; intros out Hne.
  - simpl. rewrite app_nil_r. auto.
  - simpl. unfold dedup_step at 2 4. rewrite last_map_Some.
    destruct (last out) as [l0 |] eqn:El.
    + destruct (Point_eq_dec l0 p) as [-> | Hd].
      * destruct (IH out Hne) as [Hh Hl]. split; [exact Hh |]. rewrite Hl.
        rewrite !last_app, list.last_cons. destruct (last l); [reflexivity |].
        exact El.
      * destruct (IH (out ++ [p])) as [Hh Hl]; [destruct out; discriminate |].
        split.
        -- rewrite Hh. destruct out; [contradiction | reflexivity].
        -- rewrite Hl, <- app_assoc. reflexivity.
    + destruct out; [contradiction |]. rewrite list.last_cons in El.
      destruct (last out); discriminate.
Qed.

Lemma dedup_ends (x : Point) (l : list Point) :
  head (fold_left dedup_step (x :: l) []) = Some x /\
  last (fold_left dedup_step (x :: l) []) = last (x :: l).
Proof.
  change (fold_left dedup_step (x :: l) []) with (fold_left dedup_step l [x]).
  destruct (dedup_fold l [x]) as [Hh Hl]; [discriminate |]. auto.
Qed.

Lemma head_map (A B : Type) (f : A -> B) (l : list A) :
  head (map f l) = option_map f (head l).
Proof. destruct l; reflexivity. Qed.

Lemma last_map (A B : Type) (f : A -> B) (l : list A) :
  last (map f l) = option_map f (last l).
Proof.
  induction l as [| x l IH]; [reflexivity |].
  simpl map. rewrite !list.last_cons, IH. destruct (last l); reflexivity.
Qed.




Lemma createHexPath_found (fuel : nat) (ax ay bx by_ size : R) (pathCubes : list Cube) :
  size <> 0 ->
  searchLoop fuel fuel (pixelToCube bx by_ size)
    (initialSearch (pixelToCube ax ay size) (pixelToCube bx by_ size))
  = Some (Some pathCubes) ->
  pathCubes <> [] ->
  createHexPath fuel ax ay bx by_ size
  = Some (fold_left dedup_step (map (fun c => cubeToPixel c size) pathCubes) []).
Proof.
  intros Hsize Hloop Hne. unfold createHexPath, hexAStar. cbv zeta.
  rewrite !snapToHexVertex_cube by exact Hsize. rewrite Hloop.
  destruct pathCubes; [contradiction | reflexivity].
Qed.

(** More fuel does not change a result. *)
Lemma reconstruct_mono (fuel : nat) :
  forall (cameFrom : gmap Cube Cube) (cur : Cube) (acc pathCubes : list Cube),
    reconstruct fuel cameFrom cur acc = Some pathCubes ->
    forall fuel' : nat, (fuel <= fuel')%nat ->
    reconstruct fuel' cameFrom cur acc = Some pathCubes.
Proof.
  induction fuel as [| fuel IH]; intros cameFrom cur acc p H fuel' Hle; [discriminate |].
  destruct fuel' as [| fuel']; [lia |].
  simpl in *. destruct (cameFrom !! cur); [| exact H].
  apply (IH _ _ _ _ H). lia.
Qed.

Lemma searchLoop_mono (goal : Cube) (fuel : nat) :
  forall (rfuel : nat) (st : Search) (r : option (list Cube)),
    searchLoop fuel rfuel goal st = Some r ->
    forall fuel' rfuel' : nat, (fuel <= fuel')%nat -> (rfuel <= rfuel')%nat ->
    searchLoop fuel' rfuel' goal st = Some r.
Proof.
  induction fuel as [| fuel IH]; intros rfuel st r H fuel' rfuel' Hle Hrle; [discriminate |].
  destruct fuel' as [| fuel']; [lia |].
  cbn [searchLoop] in *. destruct (open st !! lowest st) as [c |]; [| exact H].
  destruct (Qltb (hexDistance c goal) 1).
  - destruct (reconstruct rfuel (came (popped st c)) c [c]) as [p |] eqn:Ep; [| discriminate].
    rewrite (reconstruct_mono rfuel _ _ _ _ Ep rfuel' Hrle). exact H.
  - apply (IH _ _ _ H); lia.
Qed.

Lemma createHexPath_mono (fuel fuel' : nat) (ax ay bx by_ size : R) (path : list Point) :
  createHexPath fuel ax ay bx by_ size = Some path -> (fuel <= fuel')%nat ->
  createHexPath fuel' ax ay bx by_ size = Some path.
Proof.
  unfold createHexPath, hexAStar. cbv zeta. intros H Hle.
  destruct (searchLoop fuel fuel _ _) as [r |] eqn:Es; [| discriminate].
  rewrite (searchLoop_mono _ fuel fuel _ r Es fuel' fuel' Hle Hle). exact H.
Qed.

(** The search ends: with enough fuel [createHexPath] has a result, which
    leads from the vertex of [a] to the vertex of [b]. *)
Lemma createHexPath_returns (ax ay bx by_ size : R) :
  0 < size ->
  exists (fuel0 : nat) (path : list Point),
    (forall fuel : nat, (fuel0 <= fuel)%nat ->
       createHexPath fuel ax ay bx by_ size = Some path) /\
    head path = Some (snapToHexVertex ax ay size) /\
    last path = Some (snapToHexVertex bx by_ size).
Proof.
  intros Hpos. assert (Hsize : size <> 0) by lra.
  set (ca := pixelToCube ax ay size). set (cb := pixelToCube bx by_ size).
  assert (Hva : valid ca) by apply roundCube_valid.
  assert (Hvb : valid cb) by apply roundCube_valid.
  set (fuel0 := S (potential ca cb (initialSearch ca cb) + Z.to_nat (hexSteps ca cb))).
  destruct (searchLoop_total ca cb Hvb fuel0 ltac:(lia) fuel0 (initialSearch ca cb)
              (initialSearch_inv ca cb Hva Hvb) ltac:(lia))
    as (pathCubes & Hloop & Hhead & Hlast).
  destruct pathCubes as [| c0 rest]; [discriminate |].
  injection Hhead as ->.
  pose proof (createHexPath_found fuel0 ax ay bx by_ size (ca :: rest) Hsize Hloop
                ltac:(discriminate)) as Hres.
  cbn [map] in Hres.
  destruct (dedup_ends (cubeToPixel ca size) (map (fun c => cubeToPixel c size) rest))
    as [Hh Hl].
  change (cubeToPixel ca size :: map (fun c => cubeToPixel c size) rest)
    with (map (fun c => cubeToPixel c size) (ca :: rest)) in Hl.
  rewrite last_map, Hlast in Hl. cbn [option_map] in Hl.
  exists fuel0. eexists. split; [| split; [exact Hh | exact Hl]].
  intros fuel Hfuel. apply (createHexPath_mono fuel0); [exact Hres | exact Hfuel].
Qed.



Lemma pixelToCube_origin : pixelToCube 0 0 44 = (0, 0, 0)%Z.
Proof.
  unfold pixelToCube. cbv zeta.
  replace (2 / 3 * (0 / 44)) with (IZR 0) by lra.
  replace (-1 / 3 * (0 / 44) + sqrt 3 / 3 * (0 / 44)) with (IZR 0) by lra.
  replace (- IZR 0 - IZR 0) with (IZR 0) by lra.
  apply (roundCube_IZR (0, 0, 0)%Z). reflexivity.
Qed.


Lemma pixelToCube_132 : pixelToCube 132 0 44 = (2, -1, -1)%Z.
Proof.
  unfold pixelToCube. cbv zeta.
  replace (2 / 3 * (132 / 44)) with (IZR 2) by lra.
  replace (-1 / 3 * (132 / 44) + sqrt 3 / 3 * (0 / 44)) with (IZR (-1)) by lra.
  replace (- IZR 2 - IZR (-1)) with (IZR (-1)) by lra.
  apply (roundCube_IZR (2, -1, -1)%Z). reflexivity.
Qed.

(** From the origin to (132, 0) with cells of size 44 the search goes
    through the cube (1, -1, 0), and the path has three points. *)
Lemma createHexPath_three_points :
  createHexPath 10 0 0 132 0 44
  = Some [mkPoint 0 0; cubeToPixel (1, -1, 0)%Z 44; mkPoint 132 0].
Proof.
  rewrite (createHexPath_found 10 0 0 132 0 44
             [(0, 0, 0)%Z; (1, -1, 0)%Z; (2, -1, -1)%Z]).
  - assert (H0 : cubeToPixel (0, 0, 0)%Z 44 = mkPoint 0 0)
      by (unfold cubeToPixel; cbn [cq cr fst snd]; f_equal; lra).
    assert (H2 : cubeToPixel (2, -1, -1)%Z 44 = mkPoint 132 0)
      by (unfold cubeToPixel; cbn [cq cr fst snd]; f_equal; lra).
    assert (Hx1 : px (cubeToPixel (1, -1, 0)%Z 44) = 66)
      by (unfold cubeToPixel; cbn [cq cr fst snd px]; lra).
    cbn [map]. rewrite H0, H2.
    cbn [fold_left]. unfold dedup_step at 3. cbn [map List.last app].
    unfold dedup_step at 2. cbn [map List.last app].
    destruct (Point_eq_dec (mkPoint 0 0) (cubeToPixel (1, -1, 0)%Z 44)) as [E | _].
    { exfalso. apply (f_equal px) in E. rewrite Hx1 in E. cbn [px] in E. lra. }
    unfold dedup_step. cbn [map List.last app].
    destruct (Point_eq_dec (cubeToPixel (1, -1, 0)%Z 44) (mkPoint 132 0)) as [E | _].
    { exfalso. apply (f_equal px) in E. rewrite Hx1 in E. cbn [px] in E. lra. }
    reflexivity.
  - lra.
  - rewrite pixelToCube_origin, pixelToCube_132. vm_compute. reflexivity.
  - discriminate.
Qed.

End RouterFacts.




(** ** The waypoints of a line *)

Section WaypointFacts.

Import HexGrid Router.
Local Open Scope R_scope.

Lemma filter_insert_same (A : Type) (P : A -> bool) (l : list A) (k : nat) (a b : A) :
  l !! k = Some a -> P a = false -> P b = false ->
  List.filter P (<[k := b]> l) = List.filter P l.
Proof.
  revert k. induction l as [| c l IH]; intros k Hk Ha Hb; [reflexivity |].
  destruct k as [| k].
  - injection Hk as ->. simpl. rewrite Ha, Hb. reflexivity.
  - simpl. rewrite (IH k Hk Ha Hb). reflexivity.
Qed.

Lemma fold_left_pointwise (A B : Type) (f f' : A -> B -> A) (l : list B) (a : A) :
  (forall (x : A) (y : B), f x y = f' x y) -> fold_left f l a = fold_left f' l a.
Proof.
  intros H. revert a. induction l as [| y l IH]; intros a; [reflexivity |].
  simpl. rewrite H. apply IH.
Qed.

(** What the loop body reads: the stations of the game, the configuration of
    the grid and the stations of the line. *)
Lemma applyTerminalBubbles_reads (path : list Point) (s e : option RStation.t)
    (g g' : RGame.t) :
  RGame.hexGrid g = RGame.hexGrid g' ->
  applyTerminalBubbles path s e g = applyTerminalBubbles path s e g'.
Proof. unfold applyTerminalBubbles. intros ->. reflexivity. Qed.

Lemma segmentPoints_reads (fuel : nat) (g g' : RGame.t) (line line' : RLine.t) (i : nat) :
  RGame.stations g = RGame.stations g' -> RGame.hexGrid g = RGame.hexGrid g' ->
  RLine.stations line = RLine.stations line' ->
  segmentPoints fuel g line i = segmentPoints fuel g' line' i.
Proof.
  unfold segmentPoints. intros Hs Hc Hl. rewrite Hs, Hc, Hl.
  destruct (RLine.stations line' !! i); [| reflexivity].
  destruct (RLine.stations line' !! S i); [| reflexivity].
  destruct (RGame.stations g' !! n); [| reflexivity].
  destruct (RGame.stations g' !! n0); [| reflexivity].
  destruct (createHexPath _ _ _ _ _ _); [| reflexivity].
  cbv zeta.
  rewrite (applyTerminalBubbles_reads _ _ _ g g' Hc). reflexivity.
Qed.

(** The bundling reads the configuration and the lines of another id. *)
Lemma applyCorridorBundling_reads (path : list Point) (g g' : RGame.t)
    (line line' : RLine.t) :
  RGame.hexGrid g = RGame.hexGrid g' ->
  List.filter (fun l => negb (RLine.id l =? RLine.id line)%nat) (RGame.lines g)
  = List.filter (fun l => negb (RLine.id l =? RLine.id line')%nat) (RGame.lines g') ->
  applyCorridorBundling path g line = applyCorridorBundling path g' line'.
Proof.
  unfold applyCorridorBundling. intros Hc Hf. cbv zeta. rewrite Hc, Hf. reflexivity.
Qed.

Lemma clearHexCache_lines (g : RGame.t) (ls : list RLine.t) :
  clearHexCache (RGame.with_lines ls (clearHexCache g))
  = RGame.with_lines ls (clearHexCache g).
Proof. reflexivity. Qed.

(** A second call finds the state that the first one has left. *)
Lemma rebuildWaypointsForLine_again (fuel : nat) (g g1 : RGame.t) (k : nat) :
  rebuildWaypointsForLine fuel g k = Some g1 ->
  rebuildWaypointsForLine fuel g1 k = Some g1.
Proof.
  unfold rebuildWaypointsForLine.
  destruct (RGame.lines g !! k) as [line |] eqn:Ek; [| discriminate].
  assert (Hk : (k < length (RGame.lines g))%nat) by (eapply lookup_lt_Some; exact Ek).
  cbv zeta.
  destruct (length (RLine.stations line) <? 2)%nat eqn:Elen.
  - intros H. injection H as <-.
    cbn [RGame.lines RGame.with_lines clearHexCache RGame.with_hexCache].
    rewrite list_lookup_insert_eq by exact Hk.
    cbn [RLine.stations RLine.with_waypoints]. rewrite Elen.
    rewrite list_insert_insert_eq. reflexivity.
  - destruct (fold_left _ _ _) as [pts |] eqn:Efold; [| discriminate].
    intros H. injection H as <-.
    set (line1 := RLine.with_waypoints
                    (Some (applyCorridorBundling pts (clearHexCache g) line)) line).
    set (g1 := RGame.with_lines (<[k := line1]> (RGame.lines g)) (clearHexCache g)).
    assert (Hl1 : RGame.lines g1 !! k = Some line1)
      by (apply list_lookup_insert_eq; exact Hk).
    rewrite Hl1. change (RLine.stations line1) with (RLine.stations line). rewrite Elen.
    assert (Hfold : fold_left (pushSegment fuel (clearHexCache g1) line1)
                      (seq 0 (length (RLine.stations line) - 1)) (Some []) = Some pts).
    { rewrite <- Efold. apply fold_left_pointwise. intros acc i.
      unfold pushSegment. destruct acc; [| reflexivity].
      rewrite (segmentPoints_reads fuel (clearHexCache g1) (clearHexCache g) line1 line i);
        reflexivity. }
    rewrite Hfold.
    assert (Hb : applyCorridorBundling pts (clearHexCache g1) line1
                 = applyCorridorBundling pts (clearHexCache g) line).
    { apply applyCorridorBundling_reads; [reflexivity |].
      change (RLine.id line1) with (RLine.id line).
      apply (filter_insert_same _ _ _ k line line1 Ek).
      - rewrite Nat.eqb_refl. reflexivity.
      - change (RLine.id line1) with (RLine.id line). rewrite Nat.eqb_refl. reflexivity. }
    rewrite Hb.
    change (RLine.with_waypoints
              (Some (applyCorridorBundling pts (clearHexCache g) line)) line1)
      with line1.
    unfold g1. cbn [RGame.lines RGame.with_lines clearHexCache RGame.with_hexCache
                    RGame.stations RGame.hexGrid RGame.hexCache].
    rewrite list_insert_insert_eq. reflexivity.
Qed.

Lemma segmentPoints_mono (fuel fuel' : nat) (g : RGame.t) (line : RLine.t) (i : nat)
    (seg : list Point) :
  segmentPoints fuel g line i = Some seg -> (fuel <= fuel')%nat ->
  segmentPoints fuel' g line i = Some seg.
Proof.
  unfold segmentPoints. intros H Hle.
  destruct (RLine.stations line !! i); [| exact H].
  destruct (RLine.stations line !! S i); [| exact H].
  destruct (RGame.stations g !! n); [| exact H].
  destruct (RGame.stations g !! n0); [| exact H].
  destruct (createHexPath fuel _ _ _ _ _) as [p |] eqn:Ep; [| discriminate].
  rewrite (createHexPath_mono fuel fuel' _ _ _ _ _ p Ep Hle). exact H.
Qed.

Lemma segmentPoints_returns (g : RGame.t) (line : RLine.t) (i : nat) :
  0 < HexConfig.size (RGame.hexGrid g) ->
  exists (fuel0 : nat) (seg : list Point), segmentPoints fuel0 g line i = Some seg.
Proof.
  intros Hpos. unfold segmentPoints.
  destruct (RLine.stations line !! i); [| exists 0%nat; eauto].
  destruct (RLine.stations line !! S i); [| exists 0%nat; eauto].
  destruct (RGame.stations g !! n) as [A |]; [| exists 0%nat; eauto].
  destruct (RGame.stations g !! n0) as [B |]; [| exists 0%nat; eauto].
  destruct (createHexPath_returns (RStation.x A) (RStation.y A) (RStation.x B)
              (RStation.y B) _ Hpos) as (fuel0 & p & Hp & _).
  exists fuel0. rewrite (Hp fuel0 (Nat.le_refl _)). eauto.
Qed.

Lemma pushSegment_fold_mono (g : RGame.t) (line : RLine.t) (l : list nat) :
  forall (fuel fuel' : nat) (acc : option (list Point)) (pts : list Point),
    fold_left (pushSegment fuel g line) l acc = Some pts -> (fuel <= fuel')%nat ->
    fold_left (pushSegment fuel' g line) l acc = Some pts.
Proof.
  induction l as [| i l IH]; intros fuel fuel' acc pts H Hle; [exact H |].
  simpl in *. destruct acc as [ps |].
  - unfold pushSegment at 2 in H. unfold pushSegment at 2.
    destruct (segmentPoints fuel g line i) as [seg |] eqn:Es.
    + rewrite (segmentPoints_mono fuel fuel' g line i seg Es Hle).
      apply (IH fuel fuel' _ _ H Hle).
    + exfalso. clear -H. induction l as [| j l IHl]; [discriminate |].
      apply IHl. exact H.
  - exfalso. clear -H. change (pushSegment fuel g line None i) with (@None (list Point)) in H.
    induction l as [| j l IHl]; [discriminate |]. apply IHl. exact H.
Qed.

Lemma pushSegment_fold_returns (g : RGame.t) (line : RLine.t) (l : list nat) :
  0 < HexConfig.size (RGame.hexGrid g) ->
  exists fuel0 : nat, forall acc : list Point,
    exists pts : list Point, fold_left (pushSegment fuel0 g line) l (Some acc) = Some pts.
Proof.
  intros Hpos. induction l as [| i l IH].
  - exists 0%nat. intros acc. exists acc. reflexivity.
  - destruct IH as [fuel1 IH].
    destruct (segmentPoints_returns g line i Hpos) as (fuel2 & seg & Hseg).
    exists (Nat.max fuel1 fuel2). intros acc. simpl.
    rewrite (segmentPoints_mono fuel2 (Nat.max fuel1 fuel2) g line i seg Hseg) by lia.
    destruct (IH (acc ++ seg)) as [pts Hpts]. exists pts.
    apply (pushSegment_fold_mono g line l fuel1); [exact Hpts | lia].
Qed.

Lemma rebuildWaypointsForLine_mono (fuel fuel' : nat) (g g1 : RGame.t) (k : nat) :
  rebuildWaypointsForLine fuel g k = Some g1 -> (fuel <= fuel')%nat ->
  rebuildWaypointsForLine fuel' g k = Some g1.
Proof.
  unfold rebuildWaypointsForLine. intros H Hle.
  destruct (RGame.lines g !! k) as [line |]; [| discriminate].
  cbv zeta in *. destruct (length (RLine.stations line) <? 2)%nat; [exact H |].
  destruct (fold_left (pushSegment fuel _ _) _ _) as [pts |] eqn:Ef; [| discriminate].
  rewrite (pushSegment_fold_mono _ _ _ fuel fuel' _ pts Ef Hle). exact H.
Qed.

Lemma rebuildWaypointsForLine_returns (g : RGame.t) (k : nat) :
  0 < HexConfig.size (RGame.hexGrid g) -> (k < length (RGame.lines g))%nat ->
  exists (fuel0 : nat) (g1 : RGame.t), rebuildWaypointsForLine fuel0 g k = Some g1.
Proof.
  intros Hpos Hk. unfold rebuildWaypointsForLine.
  destruct (lookup_lt_is_Some_2 _ _ Hk) as [line ->]. cbv zeta.
  destruct (length (RLine.stations line) <? 2)%nat; [exists 0%nat; eauto |].
  destruct (pushSegment_fold_returns (clearHexCache g) line
              (seq 0 (length (RLine.stations line) - 1)) Hpos) as [fuel0 Hf].
  destruct (Hf []) as [pts Hpts]. exists fuel0. rewrite Hpts. eauto.
Qed.

(** C9.  For a line of the game and a positive cell size, a call of
    [rebuildWaypointsForLine] returns (every search ends), and a second call
    right after it leaves the game as the first call has left it: the
    waypoints of the line, and of every other line, are point for point
    those of the first call. *)
Theorem rebuildWaypointsForLine_idempotent (g : RGame.t) (k : nat) :
  0 < HexConfig.size (RGame.hexGrid g) -> (k < length (RGame.lines g))%nat ->
  exists (fuel0 : nat) (g1 : RGame.t),
    forall fuel : nat, (fuel0 <= fuel)%nat ->
      rebuildWaypointsForLine fuel g k = Some g1 /\
      rebuildWaypointsForLine fuel g1 k = Some g1 /\
      RLine.waypoints <$> (RGame.lines g1 !! k)
      = RLine.waypoints <$>
          (RGame.lines (default g1 (rebuildWaypointsForLine fuel g1 k)) !! k).
Proof.
  intros Hpos Hk.
  destruct (rebuildWaypointsForLine_returns g k Hpos Hk) as (fuel0 & g1 & H0).
  exists fuel0, g1. intros fuel Hfuel.
  pose proof (rebuildWaypointsForLine_mono fuel0 fuel g g1 k H0 Hfuel) as H1.
  pose proof (rebuildWaypointsForLine_again fuel g g1 k H1) as H2.
  split; [exact H1 |]. split; [exact H2 |]. rewrite H2. reflexivity.
Qed.

End WaypointFacts.

Lemma rebuildWaypointsForLine_idempotent_witness :
  (0 < Router.HexConfig.size (Router.RGame.hexGrid Router.gameTwoStations))%R /\
  (0 < length (Router.RGame.lines Router.gameTwoStations))%nat /\
  exists (fuel0 : nat) (g1 : Router.RGame.t),
    forall fuel : nat, (fuel0 <= fuel)%nat ->
      Router.rebuildWaypointsForLine fuel Router.gameTwoStations 0 = Some g1 /\
      Router.rebuildWaypointsForLine fuel g1 0 = Some g1 /\
      Router.RLine.waypoints <$> (Router.RGame.lines g1 !! 0%nat)
      = Router.RLine.waypoints <$>
          (Router.RGame.lines
             (default g1 (Router.rebuildWaypointsForLine fuel g1 0)) !! 0%nat).
Proof.
  assert (H1 : (0 < Router.HexConfig.size (Router.RGame.hexGrid Router.gameTwoStations))%R)
    by (simpl; lra).
  assert (H2 : (0 < length (Router.RGame.lines Router.gameTwoStations))%nat)
    by (simpl; lia).
  split; [exact H1 |]. split; [exact H2 |].
  exact (rebuildWaypointsForLine_idempotent Router.gameTwoStations 0 H1 H2).
Defined.

(** * Further properties of the code *)


(** * Further properties of the code *)

(** ** routing.js *)

Section GraphShape.

Lemma set_add_NoDup (b : nat) (s : list nat) : NoDup s -> NoDup (set_add b s).
Proof.
  intros Hs. unfold set_add. case_bool_decide as Hb; [exact Hs |].
  apply NoDup_app. split; [exact Hs |]. split.
  - intros x Hx Hx'. apply list_elem_of_singleton in Hx'. subst x. contradiction.
  - apply NoDup_singleton.
Qed.

Lemma adj_add_NoDup (a b : nat) (adj : list (list nat)) :
  Forall NoDup adj -> Forall NoDup (adj_add a b adj).
Proof.
  intros H. unfold adj_add. destruct (adj !! a) as [s |] eqn:E; [| exact H].
  apply Forall_insert; [exact H |]. apply set_add_NoDup.
  exact (proj1 (Forall_lookup _ _) H a s E).
Qed.

Lemma add_line_edges_NoDup (sts : list nat) (adj : list (list nat)) :
  Forall NoDup adj -> Forall NoDup (add_line_edges sts adj).
Proof.
  revert adj. induction sts as [| a [| b rest] IH]; intros adj H; [exact H | exact H |].
  change (add_line_edges (a :: b :: rest) adj)
    with (add_line_edges (b :: rest) (adj_add b a (adj_add a b adj))).
  apply IH. apply adj_add_NoDup, adj_add_NoDup, H.
Qed.

Lemma fold_add_line_NoDup (ls : list Line.t) (adj : list (list nat)) :
  Forall NoDup adj -> Forall NoDup (fold_left add_line ls adj).
Proof.
  revert adj. induction ls as [| line ls IH]; intros adj H; [exact H |].
  simpl. apply IH. unfold add_line.
  destruct (length (Line.stations line) <? 2)%nat; [exact H |].
  apply add_line_edges_NoDup, H.
Qed.

(** X1.  [buildStationGraph] returns an undirected graph: for a game whose
    line entries are station indices, [v] is in the adjacency list of [u]
    exactly when [u] is in the adjacency list of [v]. *)
Theorem buildStationGraph_symmetric (g : Game.t) (u v : nat) :
  lines_in_range g ->
  (adj_has (buildStationGraph g) u v <-> adj_has (buildStationGraph g) v u).
Proof.
  intros Hr. rewrite !(buildStationGraph_linked g) by exact Hr.
  split; apply linked_sym.
Qed.

(** X2.  [buildStationGraph] returns one adjacency list per station; a list
    names no station twice, and, for a game whose line entries are station
    indices, it names stations of the game only. *)
Theorem buildStationGraph_lists (g : Game.t) :
  lines_in_range g ->
  length (buildStationGraph g) = length (Game.stations g) /\
  forall (u : nat) (s : list nat), buildStationGraph g !! u = Some s ->
    NoDup s /\ forall v : nat, v ∈ s -> (v < length (Game.stations g))%nat.
Proof.
  intros Hr. split; [apply buildStationGraph_length |].
  intros u s Hu. split.
  - assert (H : Forall NoDup (buildStationGraph g)).
    { unfold buildStationGraph. apply fold_add_line_NoDup.
      apply Forall_replicate. apply NoDup_nil_2. }
    exact (proj1 (Forall_lookup _ _) H u s Hu).
  - intros v Hv.
    assert (Hl : linked g u v).
    { apply (buildStationGraph_linked g u v Hr). exists s. auto. }
    exact (proj2 (linked_in_range g Hr u v Hl)).
Qed.

End GraphShape.

Lemma buildStationGraph_symmetric_witness :
  lines_in_range Examples.gameABC /\
  (adj_has (buildStationGraph Examples.gameABC) 0 1
   <-> adj_has (buildStationGraph Examples.gameABC) 1 0).
Proof.
  split; [exact gameABC_lines_in_range |].
  exact (buildStationGraph_symmetric Examples.gameABC 0 1 gameABC_lines_in_range).
Defined.

Lemma buildStationGraph_lists_witness :
  lines_in_range Examples.gameABC /\
  length (buildStationGraph Examples.gameABC) = length (Game.stations Examples.gameABC) /\
  forall (u : nat) (s : list nat), buildStationGraph Examples.gameABC !! u = Some s ->
    NoDup s /\ forall v : nat, v ∈ s -> (v < length (Game.stations Examples.gameABC))%nat.
Proof.
  split; [exact gameABC_lines_in_range |].
  exact (buildStationGraph_lists Examples.gameABC gameABC_lines_in_range).
Defined.

Section EtaShape.

Local Open Scope Q_scope.

Variable hypot : Q -> Q -> Q.
Hypothesis hypot_nonneg : forall dx dy : Q, 0 <= hypot dx dy.

(** X3.  In the table of [computeETAs] the cell of the destination is 0 and
    no cell is negative. *)
Theorem computeETAs_destination_zero (g : Game.t) (d : nat) :
  lines_in_range g -> mct_nonneg g -> (d < length (Game.stations g))%nat ->
  neq (estimateETA hypot g d d) (Fin 0) /\
  forall s : nat, nle (Fin 0) (estimateETA hypot g s d).
Proof.
  intros Hr Hm Hd.
  destruct (computeETAs_inv hypot hypot_nonneg g d Hr Hm Hd) as (visited & Hinv & _).
  split; [exact (inv_dest _ _ _ _ _ _ _ Hinv) |].
  intros s. exact (inv_nonneg _ _ _ _ _ _ _ Hinv s).
Qed.

(** X4.  A step that [stepReducesETA] accepts goes to a station whose ETA is
    finite and lower than the ETA of the station it leaves, by more than
    one millisecond. *)
Theorem stepReducesETA_lowers (g : Game.t) (fromIdx viaIdx destIdx : nat) :
  stepReducesETA hypot g fromIdx viaIdx destIdx = true ->
  exists etaFrom etaVia : Q,
    estimateETA hypot g fromIdx destIdx = Fin etaFrom /\
    estimateETA hypot g viaIdx destIdx = Fin etaVia /\
    etaVia + 1 < etaFrom.
Proof.
  unfold stepReducesETA. cbv zeta. intros H.
  apply andb_true_iff in H. destruct H as [H Hlt].
  apply andb_true_iff in H. destruct H as [Hf Hv].
  pose proof (edgeTimeMs_nonneg hypot hypot_nonneg g fromIdx viaIdx) as Hstep.
  destruct (estimateETA hypot g fromIdx destIdx) as [a |]; [| discriminate].
  destruct (estimateETA hypot g viaIdx destIdx) as [b |]; [| discriminate].
  exists a, b. split; [reflexivity |]. split; [reflexivity |].
  destruct (edgeTimeMs hypot g fromIdx viaIdx) as [s |]; simpl in *; [| discriminate].
  apply Qltb_true in Hlt. lra.
Qed.

(** X5.  At the destination no step is accepted: [stepReducesETA] from
    [destIdx] towards [destIdx] is false for every next station. *)
Theorem stepReducesETA_not_at_destination (g : Game.t) (viaIdx destIdx : nat) :
  lines_in_range g -> mct_nonneg g -> (destIdx < length (Game.stations g))%nat ->
  stepReducesETA hypot g destIdx viaIdx destIdx = false.
Proof.
  intros Hr Hm Hd.
  destruct (computeETAs_inv hypot hypot_nonneg g destIdx Hr Hm Hd) as (visited & Hinv & _).
  pose proof (inv_dest _ _ _ _ _ _ _ Hinv) as H0.
  pose proof (inv_nonneg _ _ _ _ _ _ _ Hinv viaIdx) as Hv.
  pose proof (edgeTimeMs_nonneg hypot hypot_nonneg g destIdx viaIdx) as Hstep.
  unfold stepReducesETA, estimateETA. cbv zeta.
  destruct (eta_get (computeETAs hypot g destIdx) destIdx) as [a |];
    [| reflexivity].
  destruct (eta_get (computeETAs hypot g destIdx) viaIdx) as [b |];
    [| simpl; reflexivity].
  destruct (edgeTimeMs hypot g destIdx viaIdx) as [s |]; simpl in *.
  - apply Qltb_false. lra.
  - reflexivity.
Qed.

End EtaShape.

Lemma computeETAs_destination_zero_witness :
  lines_in_range Examples.gameABC /\ mct_nonneg Examples.gameABC /\
  (2 < length (Game.stations Examples.gameABC))%nat /\
  neq (estimateETA Examples.hypotQ Examples.gameABC 2 2) (Fin 0) /\
  forall s : nat, nle (Fin 0) (estimateETA Examples.hypotQ Examples.gameABC s 2).
Proof.
  assert (Hd : (2 < length (Game.stations Examples.gameABC))%nat) by (simpl; lia).
  split; [exact gameABC_lines_in_range |]. split; [exact gameABC_mct_nonneg |].
  split; [exact Hd |].
  exact (computeETAs_destination_zero Examples.hypotQ hypotQ_nonneg Examples.gameABC 2
           gameABC_lines_in_range gameABC_mct_nonneg Hd).
Defined.

Lemma stepReducesETA_lowers_witness :
  stepReducesETA Examples.hypotQ Examples.gameABC 0 1 2 = true /\
  exists etaFrom etaVia : Q,
    estimateETA Examples.hypotQ Examples.gameABC 0 2 = Fin etaFrom /\
    estimateETA Examples.hypotQ Examples.gameABC 1 2 = Fin etaVia /\
    (etaVia + 1 < etaFrom)%Q.
Proof.
  assert (H : stepReducesETA Examples.hypotQ Examples.gameABC 0 1 2 = true)
    by (vm_compute; reflexivity).
  split; [exact H |].
  exact (stepReducesETA_lowers Examples.hypotQ hypotQ_nonneg Examples.gameABC 0 1 2 H).
Defined.

Lemma stepReducesETA_not_at_destination_witness :
  lines_in_range Examples.gameABC /\ mct_nonneg Examples.gameABC /\
  (2 < length (Game.stations Examples.gameABC))%nat /\
  stepReducesETA Examples.hypotQ Examples.gameABC 2 1 2 = false.
Proof.
  assert (Hd : (2 < length (Game.stations Examples.gameABC))%nat) by (simpl; lia).
  split; [exact gameABC_lines_in_range |]. split; [exact gameABC_mct_nonneg |].
  split; [exact Hd |].
  exact (stepReducesETA_not_at_destination Examples.hypotQ hypotQ_nonneg Examples.gameABC
           1 2 gameABC_lines_in_range gameABC_mct_nonneg Hd).
Defined.


Section NeighboursOnLine.

Lemma neighborsOnLineFrom_aux_spec (sts pre : list nat) (prev : option nat) (s v : nat) :
  prev = last pre ->
  v ∈ neighborsOnLineFrom_aux prev sts s ->
  consecutive (pre ++ sts) s v \/ consecutive (pre ++ sts) v s.
Proof.
  revert pre prev. induction sts as [| s0 rest IH]; intros pre prev Hprev Hv.
  - inversion Hv.
  - simpl in Hv. destruct (s0 =? s)%nat eqn:E.
    + apply Nat.eqb_eq in E. subst s0.
      apply elem_of_app in Hv. destruct Hv as [Hv | Hv].
      * right. destruct prev as [p |]; [| inversion Hv].
        apply list_elem_of_singleton in Hv. subst v.
        symmetry in Hprev. apply last_Some in Hprev. destruct Hprev as [pre' ->].
        exists (length pre'). rewrite <- !app_assoc. simpl. split.
        -- rewrite lookup_app_r by lia. rewrite Nat.sub_diag. reflexivity.
        -- rewrite lookup_app_r by lia.
           replace (S (length pre') - length pre')%nat with 1%nat by lia. reflexivity.
      * left. destruct rest as [| n rest']; [inversion Hv |].
        apply list_elem_of_singleton in Hv. subst v.
        exists (length pre). split.
        -- rewrite lookup_app_r by lia. rewrite Nat.sub_diag. reflexivity.
        -- rewrite lookup_app_r by lia.
           replace (S (length pre) - length pre)%nat with 1%nat by lia. reflexivity.
    + replace (pre ++ s0 :: rest) with ((pre ++ [s0]) ++ rest)
        by (rewrite <- app_assoc; reflexivity).
      apply (IH (pre ++ [s0]) (Some s0)); [| exact Hv].
      rewrite last_snoc. reflexivity.
Qed.

Lemma neighborsOnLineFrom_aux_length (sts : list nat) (prev : option nat) (s : nat) :
  (length (neighborsOnLineFrom_aux prev sts s) <= 2)%nat.
Proof.
  revert prev. induction sts as [| s0 rest IH]; intros prev; simpl; [lia |].
  destruct (s0 =? s)%nat; [| apply IH].
  destruct prev, rest; simpl; lia.
Qed.

Lemma neighborsOnLineFrom_aux_absent (sts : list nat) (prev : option nat) (s : nat) :
  s ∉ sts -> neighborsOnLineFrom_aux prev sts s = [].
Proof.
  revert prev. induction sts as [| s0 rest IH]; intros prev Hs; [reflexivity |].
  simpl. destruct (s0 =? s)%nat eqn:E.
  - apply Nat.eqb_eq in E. subst s0. exfalso. apply Hs. left.
  - apply IH. intros H. apply Hs. right. exact H.
Qed.

Lemma neighborsOnLineFrom_aux_present (sts : list nat) (prev : option nat) (s : nat) :
  s ∈ sts -> (is_Some prev \/ 2 <= length sts)%nat ->
  neighborsOnLineFrom_aux prev sts s <> [].
Proof.
  revert prev. induction sts as [| s0 rest IH]; intros prev Hs Hlen; [inversion Hs |].
  simpl. destruct (s0 =? s)%nat eqn:E.
  - destruct prev as [p |]; [discriminate |].
    destruct Hlen as [[x Hx] | Hlen]; [discriminate |].
    destruct rest; [simpl in Hlen; lia | discriminate].
  - apply IH; [| left; eauto].
    apply elem_of_cons in Hs. destruct Hs as [-> | Hs]; [| exact Hs].
    rewrite Nat.eqb_refl in E. discriminate.
Qed.

(** X6.  [neighborsOnLineFrom] returns at most two stations, each of them
    next to [stationIdx] on the line; it returns none when the station is
    not on the line, and at least one when the station is on a line of two
    entries or more. *)
Theorem neighborsOnLineFrom_adjacent (line : Line.t) (stationIdx : nat) :
  (length (neighborsOnLineFrom line stationIdx) <= 2)%nat /\
  (forall v : nat, v ∈ neighborsOnLineFrom line stationIdx ->
     consecutive (Line.stations line) stationIdx v \/
     consecutive (Line.stations line) v stationIdx) /\
  (stationIdx ∉ Line.stations line -> neighborsOnLineFrom line stationIdx = []) /\
  (stationIdx ∈ Line.stations line -> (2 <= length (Line.stations line))%nat ->
   neighborsOnLineFrom line stationIdx <> []).
Proof.
  unfold neighborsOnLineFrom. split; [apply neighborsOnLineFrom_aux_length |].
  split; [| split].
  - intros v Hv.
    exact (neighborsOnLineFrom_aux_spec (Line.stations line) [] None stationIdx v eq_refl Hv).
  - apply neighborsOnLineFrom_aux_absent.
  - intros Hs Hlen. apply neighborsOnLineFrom_aux_present; auto.
Qed.

End NeighboursOnLine.


(** ** trains.js *)

Section FleetConservation.

Local Open Scope Z_scope.

(** What the allocator keeps: the trains of before stay where they are, every
    train added is paid with one vehicle of the pool, the pool does not
    become negative, a line changes in its list of trains only, and the
    stations, the score and the undo stack do not change. *)
Let keeps (g g' : Game.t) : Prop :=
  Game.trains g `prefix_of` Game.trains g' /\
  Game.trainsAvailable g' + Z.of_nat (length (Game.trains g'))
  = Game.trainsAvailable g + Z.of_nat (length (Game.trains g)) /\
  (0 <= Game.trainsAvailable g -> 0 <= Game.trainsAvailable g') /\
  Game.stations g' = Game.stations g /\
  length (Game.lines g') = length (Game.lines g) /\
  (forall (i : nat) (line' : Line.t), Game.lines g' !! i = Some line' ->
     exists line : Line.t,
       Game.lines g !! i = Some line /\
       line' = Line.with_trains (Line.trains line') line) /\
  Game.undoStack g' = Game.undoStack g /\
  Game.score g' = Game.score g /\
  Game.linesAvailable g' = Game.linesAvailable g /\
  Game.tunnels g' = Game.tunnels g.

Lemma keeps_refl (g : Game.t) : keeps g g.
Proof.
  unfold keeps. repeat split; auto.
  intros i line' H. exists line'. split; [exact H |]. destruct line'; reflexivity.
Qed.

Lemma keeps_trans (g1 g2 g3 : Game.t) : keeps g1 g2 -> keeps g2 g3 -> keeps g1 g3.
Proof.
  unfold keeps.
  intros (Hp1 & He1 & Hn1 & Hs1 & Hl1 & Hi1 & Hu1 & Hc1 & Ha1 & Ht1)
         (Hp2 & He2 & Hn2 & Hs2 & Hl2 & Hi2 & Hu2 & Hc2 & Ha2 & Ht2).
  split; [etransitivity; eassumption |]. split; [lia |]. split; [auto |].
  split; [congruence |]. split; [congruence |]. split; [| repeat split; congruence].
  intros i l3 H3. destruct (Hi2 i l3 H3) as (l2 & H2 & E2).
  destruct (Hi1 i l2 H2) as (l1 & H1 & E1). exists l1. split; [exact H1 |].
  rewrite E2, E1. reflexivity.
Qed.

Lemma createTrain_keeps (g g1 : Game.t) (lineId : nat) (t : Train.t) :
  createTrain g lineId = (g1, Some t) ->
  keeps g (Game.with_trainsAvailable (Game.trainsAvailable g1 - 1) g1) \/
  Game.trainsAvailable g <= 0.
Proof.
  unfold createTrain. destruct (Game.lines g !! lineId) as [line |] eqn:El; [| discriminate].
  destruct (length (Line.stations line) <? 2)%nat; [discriminate |].
  intros H. injection H as <- <-.
  destruct (Z_le_gt_dec (Game.trainsAvailable g) 0) as [Hle | Hgt]; [right; exact Hle |].
  left. unfold keeps. simpl. rewrite length_insert, length_app. simpl.
  split; [apply prefix_app_r; reflexivity |]. split; [lia |]. split; [lia |].
  split; [reflexivity |]. split; [reflexivity |]. split; [| auto 10].
  intros i line' H. destruct (decide (i = lineId)) as [-> | Hne].
  - rewrite list_lookup_insert_eq in H by (eapply lookup_lt_Some; exact El).
    injection H as <-. exists line. split; [exact El | reflexivity].
  - rewrite list_lookup_insert_ne in H by congruence.
    exists line'. split; [exact H |]. destruct line'; reflexivity.
Qed.

Lemma createTrain_none (g g1 : Game.t) (lineId : nat) :
  createTrain g lineId = (g1, None) -> g1 = g.
Proof.
  unfold createTrain. destruct (Game.lines g !! lineId) as [line |]; [| congruence].
  destruct (length (Line.stations line) <? 2)%nat; [congruence | discriminate].
Qed.

Lemma addTrains_keeps (n : nat) (lineId : nat) (g : Game.t) :
  keeps g (addTrains n lineId g).
Proof.
  revert g. induction n as [| n IH]; intros g; [apply keeps_refl |].
  simpl. destruct (Game.trainsAvailable g <=? 0) eqn:Eav; [apply keeps_refl |].
  apply Z.leb_gt in Eav.
  destruct (createTrain g lineId) as [g1 [t |]] eqn:Ec.
  - eapply keeps_trans; [| apply IH].
    destruct (createTrain_keeps g g1 lineId t Ec) as [H | H]; [exact H | lia].
  - apply createTrain_none in Ec. subst g1. apply IH.
Qed.

Lemma allocate_step_keeps (g : Game.t) (stats : LineStats) : keeps g (allocate_step g stats).
Proof.
  unfold allocate_step. destruct (Game.trainsAvailable g <=? 0); [apply keeps_refl |].
  destruct (deficit stats <=? 0); [apply keeps_refl |]. apply addTrains_keeps.
Qed.

Lemma optimizeTrainAllocation_keeps (g : Game.t) : keeps g (optimizeTrainAllocation g).
Proof.
  unfold optimizeTrainAllocation.
  destruct (Game.trainsAvailable g <=? 0); [apply keeps_refl |].
  generalize (sortByPriority (map (lineStatsOf g) (Game.lines g))).
  intros stats. assert (H : forall g0, keeps g g0 -> keeps g (fold_left allocate_step stats g0)).
  { induction stats as [| s stats IH]; intros g0 H0; [exact H0 |].
    simpl. apply IH. eapply keeps_trans; [exact H0 | apply allocate_step_keeps]. }
  apply H, keeps_refl.
Qed.

(** X7.  [optimizeTrainAllocation] only adds trains: the trains of before
    keep their places in [game.trains], every train added takes one vehicle
    from the pool ([trainsAvailable] plus the number of trains is the same
    before and after), a pool that is not negative stays so, a line changes
    in its list of trains only, and the stations are left alone. *)
Theorem optimizeTrainAllocation_conserves (g : Game.t) :
  Game.trains g `prefix_of` Game.trains (optimizeTrainAllocation g) /\
  Game.trainsAvailable (optimizeTrainAllocation g)
  + Z.of_nat (length (Game.trains (optimizeTrainAllocation g)))
  = Game.trainsAvailable g + Z.of_nat (length (Game.trains g)) /\
  (0 <= Game.trainsAvailable g -> 0 <= Game.trainsAvailable (optimizeTrainAllocation g)) /\
  Game.stations (optimizeTrainAllocation g) = Game.stations g /\
  length (Game.lines (optimizeTrainAllocation g)) = length (Game.lines g) /\
  (forall (i : nat) (line' : Line.t),
     Game.lines (optimizeTrainAllocation g) !! i = Some line' ->
     exists line : Line.t,
       Game.lines g !! i = Some line /\
       line' = Line.with_trains (Line.trains line') line).
Proof.
  destruct (optimizeTrainAllocation_keeps g) as (H1 & H2 & H3 & H4 & H5 & H6 & _).
  auto 10.
Qed.

(** What [optimizeTrainAllocation] leaves alone, for the callers below. *)
Lemma optimizeTrainAllocation_frame (g : Game.t) :
  Game.stations (optimizeTrainAllocation g) = Game.stations g /\
  length (Game.lines (optimizeTrainAllocation g)) = length (Game.lines g) /\
  (forall (i : nat) (line' : Line.t),
     Game.lines (optimizeTrainAllocation g) !! i = Some line' ->
     exists line : Line.t,
       Game.lines g !! i = Some line /\
       line' = Line.with_trains (Line.trains line') line) /\
  Game.undoStack (optimizeTrainAllocation g) = Game.undoStack g.
Proof.
  destruct (optimizeTrainAllocation_keeps g) as (H1 & H2 & H3 & H4 & H5 & H6 & H7 & _).
  auto 10.
Qed.

End FleetConservation.


Section ArrivalConservation.

Variable hypot : Q -> Q -> Q.

Lemma disembark_count (g : Game.t) (line : Line.t) (station : Station.t)
    (ps : list Passenger.t) (acc : Disembark) :
  let d := fold_left (disembark_step g line station) ps acc in
  (length (remaining d) + length (stationQueue d)
   + length (List.filter (fun p => Passenger.destStation p =? Station.id station) ps)
   = length (remaining acc) + length (stationQueue acc) + length ps)%nat.
Proof.
  revert acc. induction ps as [| p ps IH]; intros acc; simpl; [lia |].
  specialize (IH (disembark_step g line station acc p)). simpl in IH.
  assert (Hstep :
    (length (remaining (disembark_step g line station acc p))
     + length (stationQueue (disembark_step g line station acc p))
     + (if Passenger.destStation p =? Station.id station then 1 else 0)
     = length (remaining acc) + length (stationQueue acc) + 1)%nat).
  { unfold disembark_step.
    destruct (Passenger.destStation p =? Station.id station)%nat.
    - destruct (deliveryPoints g (comboNow acc) station p). simpl. lia.
    - destruct (negb (includes (Line.stations line) (Passenger.destStation p)));
        simpl; rewrite ?length_app; simpl; lia. }
  destruct (Passenger.destStation p =? Station.id station)%nat; simpl; lia.
Qed.

Lemma boarding_count (g : Game.t) (line : Line.t) (station : Station.t) (capacity : Z)
    (queue : list Passenger.t) (acc : Boarding) :
  let b := fold_left (boarding_step hypot g line station capacity) queue acc in
  (length (aboard b) + length (keep b)
   = length (aboard acc) + length (keep acc) + length queue)%nat.
Proof.
  revert acc. induction queue as [| p queue IH]; intros acc; simpl; [lia |].
  specialize (IH (boarding_step hypot g line station capacity acc p)). simpl in IH.
  rewrite IH. unfold boarding_step.
  destruct (capacity <=? picked acc)%Z; [simpl; rewrite length_app; simpl; lia |].
  destruct (Qltb _ _); [simpl; rewrite length_app; simpl; lia |].
  destruct (shouldBoardLineHere hypot g line (Station.id station) p);
    simpl; rewrite length_app; simpl; lia.
Qed.

(** X8.  [handleStationArrival] loses no passenger: the passengers aboard the
    train and in the queue of the station after the call are as many as
    before it, less the passengers aboard whose destination is the station
    (they are delivered). *)
Theorem handleStationArrival_conserves (g : Game.t) (ti si : nat)
    (train : Train.t) (station : Station.t) (line : Line.t) :
  Game.trains g !! ti = Some train -> Game.stations g !! si = Some station ->
  Game.lines g !! Train.lineId train = Some line ->
  exists (train' : Train.t) (station' : Station.t),
    Game.trains (handleStationArrival hypot g ti si) !! ti = Some train' /\
    Game.stations (handleStationArrival hypot g ti si) !! si = Some station' /\
    (length (Train.passengers train') + length (Station.queue station')
     + length (List.filter (fun p => Passenger.destStation p =? Station.id station)
                           (Train.passengers train))
     = length (Train.passengers train) + length (Station.queue station))%nat.
Proof.
  intros Et Es El. unfold handleStationArrival. rewrite Et, Es, El.
  assert (Hti : (ti < length (Game.trains g))%nat) by (eapply lookup_lt_Some; eauto).
  assert (Hsi : (si < length (Game.stations g))%nat) by (eapply lookup_lt_Some; eauto).
  set (combo0 := default (Combo.mk 0 0 1) (Game.combo g)).
  set (d := fold_left (disembark_step g line station) (Train.passengers train)
              (mkDisembark [] (Station.queue station) (Game.score g) combo0)).
  pose proof (disembark_count g line station (Train.passengers train)
                (mkDisembark [] (Station.queue station) (Game.score g) combo0)) as Hd.
  fold d in Hd. simpl in Hd.
  set (station1 := Station.with_queue (stationQueue d) station).
  set (train1 := Train.with_passengers (remaining d) train).
  set (g1 := set_train ti train1
               (set_station si station1
                  (Game.with_combo (comboNow d) (Game.with_score (scoreNow d) g)))).
  cbv zeta.
  destruct (Train.capacity train1 - Z.of_nat (length (Train.passengers train1)) <=? 0)%Z.
  - exists train1, station1. unfold g1, set_train, set_station. simpl.
    rewrite !list_lookup_insert_eq by assumption. split; [reflexivity |].
    split; [reflexivity |]. lia.
  - set (b := fold_left _ _ _).
    pose proof (boarding_count g1 line station1
                  (Train.capacity train1 - Z.of_nat (length (Train.passengers train1)))
                  (Station.queue station1)
                  (mkBoarding (Train.passengers train1) [] 0%Z)) as Hb.
    fold b in Hb. simpl in Hb.
    exists (Train.with_passengers (aboard b) train1), (Station.with_queue (keep b) station1).
    unfold g1, set_train, set_station. simpl.
    rewrite !list_lookup_insert_eq by (rewrite ?length_insert; assumption).
    split; [reflexivity |]. split; [reflexivity |]. lia.
Qed.

Lemma shouldBoardLineHere_direct (g : Game.t) (line : Line.t) (stationIdx : nat)
    (p : Passenger.t) :
  (2 <= length (Line.stations line))%nat ->
  Passenger.destStation p ∈ Line.stations line ->
  shouldBoardLineHere hypot g line stationIdx p = true.
Proof.
  intros Hlen Hin. unfold shouldBoardLineHere.
  destruct (length (Line.stations line) <? 2)%nat eqn:E;
    [apply Nat.ltb_lt in E; lia |].
  cbv zeta. unfold includes. rewrite (bool_decide_eq_true_2 _ Hin). reflexivity.
Qed.

Lemma boarding_left (g : Game.t) (line : Line.t) (station : Station.t) (capacity : Z)
    (queue : list Passenger.t) (acc : Boarding) :
  (2 <= length (Line.stations line))%nat ->
  let b := fold_left (boarding_step hypot g line station capacity) queue acc in
  (picked acc <= picked b)%Z /\
  (Z.of_nat (length (aboard b)) - picked b
   = Z.of_nat (length (aboard acc)) - picked acc)%Z /\
  ((picked b < capacity)%Z ->
   forall p : Passenger.t, p ∈ keep b ->
     p ∈ keep acc \/
     (Passenger.destStation p ∈ Line.stations line ->
      (Game.gameTime g < or_default (Passenger.transferReadyAt p) 0)%Q)).
Proof.
  intros Hlen. revert acc. induction queue as [| p0 queue IH]; intros acc; simpl.
  - split; [lia |]. split; [lia |]. auto.
  - destruct (IH (boarding_step hypot g line station capacity acc p0)) as (Hm & Hc & Hk).
    simpl in Hm, Hc, Hk.
    set (b := fold_left _ _ _) in *.
    assert (Hstep : (picked acc <= picked (boarding_step hypot g line station capacity acc p0))%Z /\
                    (Z.of_nat (length (aboard (boarding_step hypot g line station capacity acc p0)))
                     - picked (boarding_step hypot g line station capacity acc p0)
                     = Z.of_nat (length (aboard acc)) - picked acc)%Z).
    { unfold boarding_step.
      destruct (capacity <=? picked acc)%Z; [simpl; lia |].
      destruct (Qltb _ _); [simpl; lia |].
      destruct (shouldBoardLineHere hypot g line (Station.id station) p0); simpl; [| lia].
      rewrite length_app. simpl. lia. }
    destruct Hstep as [Hs1 Hs2].
    split; [lia |]. split; [lia |].
    intros Hroom p Hp. destruct (Hk Hroom p Hp) as [Hin | Hlate]; [| right; exact Hlate].
    revert Hin. unfold boarding_step.
    destruct (capacity <=? picked acc)%Z eqn:E1.
    { apply Z.leb_le in E1. lia. }
    destruct (Qltb (Game.gameTime g) (or_default (Passenger.transferReadyAt p0) 0)) eqn:E2.
    { simpl. intros Hin. apply elem_of_app in Hin. destruct Hin as [Hin | Hin]; [auto |].
      apply list_elem_of_singleton in Hin. subst p. right. intros _.
      apply Qltb_true. exact E2. }
    destruct (shouldBoardLineHere hypot g line (Station.id station) p0) eqn:E3.
    { simpl. auto. }
    simpl. intros Hin. apply elem_of_app in Hin. destruct Hin as [Hin | Hin]; [auto |].
    apply list_elem_of_singleton in Hin. subst p. right. intros Hdest.
    rewrite (shouldBoardLineHere_direct g line (Station.id station) p0 Hlen Hdest) in E3.
    discriminate.
Qed.

(** X9.  [handleStationArrival] leaves no one behind while there is room: if
    the train is not full after the call (and its line has two stations or
    more), every passenger still in the queue of the station whose
    destination is on the line of the train is one whose connection time
    [transferReadyAt] is still ahead. *)
Theorem handleStationArrival_room_left (g : Game.t) (ti si : nat)
    (train train' : Train.t) (station station' : Station.t) (line : Line.t) :
  Game.trains g !! ti = Some train -> Game.stations g !! si = Some station ->
  Game.lines g !! Train.lineId train = Some line ->
  (2 <= length (Line.stations line))%nat ->
  Game.trains (handleStationArrival hypot g ti si) !! ti = Some train' ->
  Game.stations (handleStationArrival hypot g ti si) !! si = Some station' ->
  (Z.of_nat (length (Train.passengers train')) < Train.capacity train')%Z ->
  forall p : Passenger.t, p ∈ Station.queue station' ->
    Passenger.destStation p ∈ Line.stations line ->
    (Game.gameTime g < or_default (Passenger.transferReadyAt p) 0)%Q.
Proof.
  intros Et Es El Hlen. unfold handleStationArrival. rewrite Et, Es, El.
  assert (Hti : (ti < length (Game.trains g))%nat) by (eapply lookup_lt_Some; eauto).
  assert (Hsi : (si < length (Game.stations g))%nat) by (eapply lookup_lt_Some; eauto).
  set (combo0 := default (Combo.mk 0 0 1) (Game.combo g)).
  set (d := fold_left (disembark_step g line station) (Train.passengers train)
              (mkDisembark [] (Station.queue station) (Game.score g) combo0)).
  set (station1 := Station.with_queue (stationQueue d) station).
  set (train1 := Train.with_passengers (remaining d) train).
  set (g1 := set_train ti train1
               (set_station si station1
                  (Game.with_combo (comboNow d) (Game.with_score (scoreNow d) g)))).
  cbv zeta.
  destruct (Train.capacity train1 - Z.of_nat (length (Train.passengers train1)) <=? 0)%Z
    eqn:Ecap.
  - apply Z.leb_le in Ecap. unfold g1, set_train, set_station. simpl.
    rewrite !list_lookup_insert_eq by assumption.
    intros Ht' Hs'. injection Ht' as <-. intros Hroom. lia.
  - apply Z.leb_gt in Ecap.
    set (capacity := (Train.capacity train1 - Z.of_nat (length (Train.passengers train1)))%Z)
      in *.
    set (b := fold_left (boarding_step hypot g1 line station1 capacity)
                (Station.queue station1) (mkBoarding (Train.passengers train1) [] 0%Z)).
    pose proof (boarding_left g1 line station1 capacity (Station.queue station1)
                  (mkBoarding (Train.passengers train1) [] 0%Z) Hlen) as Hb.
    cbv zeta in Hb. fold b in Hb. destruct Hb as (Hm & Hc & Hk).
    assert (Hl1 : (ti < length (Game.trains g1))%nat)
      by (unfold g1, set_train; simpl; rewrite length_insert; exact Hti).
    assert (Hl2 : (si < length (Game.stations g1))%nat)
      by (unfold g1, set_train, set_station; simpl; rewrite length_insert; exact Hsi).
    unfold set_train, set_station.
    cbn [Game.trains Game.stations Game.with_trains Game.with_stations].
    rewrite !list_lookup_insert_eq by assumption.
    intros Ht' Hs'. injection Ht' as <-. injection Hs' as <-.
    cbn [Train.passengers Train.capacity Train.with_passengers
         Station.queue Station.with_queue].
    intros Hroom p Hp Hdest.
    assert (Hpicked : (picked b < capacity)%Z).
    { unfold capacity. cbn [picked aboard Train.passengers Train.with_passengers] in Hc.
      fold train1 in Hroom. simpl in Hc. unfold train1 in *. simpl in *. lia. }
    destruct (Hk Hpicked p Hp) as [Hnil | Hlate].
    + inversion Hnil.
    + exact (Hlate Hdest).
Qed.

End ArrivalConservation.


Section DwellingTrain.

Local Open Scope Q_scope.

Variable hypot : Q -> Q -> Q.

Lemma updateTrain_dwelling (deltaTime : Q) (g : Game.t) (ti : nat) (train : Train.t) :
  Game.trains g !! ti = Some train ->
  0 < Train.dwellRemaining train -> deltaTime < Train.dwellRemaining train ->
  exists tr' : Train.t,
    Game.trains (updateTrain hypot deltaTime g ti) !! ti = Some tr' /\
    Train.position tr' = Train.position train /\
    Train.direction tr' = Train.direction train /\
    Train.passengers tr' = Train.passengers train /\
    Train.lastStationVisited tr' = Train.lastStationVisited train.
Proof.
  intros Et Hpos Hdt. unfold updateTrain. rewrite Et.
  assert (Hti : (ti < length (Game.trains g))%nat) by (eapply lookup_lt_Some; eauto).
  assert (Hsame : exists tr' : Train.t,
            Game.trains g !! ti = Some tr' /\
            Train.position tr' = Train.position train /\
            Train.direction tr' = Train.direction train /\
            Train.passengers tr' = Train.passengers train /\
            Train.lastStationVisited tr' = Train.lastStationVisited train)
    by (exists train; auto).
  destruct (Game.lines g !! Train.lineId train) as [line |]; [| exact Hsame].
  destruct (length (Line.stations line) <? 2)%nat; [exact Hsame |].
  destruct (negb (forallb _ _)); [exact Hsame |].
  cbv zeta.
  set (train1 := if Qltb 0 (Train.stationCooldown train)
                 then Train.with_stationCooldown (Train.stationCooldown train - deltaTime) train
                 else train).
  assert (H1 : Train.dwellRemaining train1 = Train.dwellRemaining train
               /\ Train.position train1 = Train.position train
               /\ Train.direction train1 = Train.direction train
               /\ Train.passengers train1 = Train.passengers train
               /\ Train.lastStationVisited train1 = Train.lastStationVisited train)
    by (unfold train1; destruct (Qltb 0 (Train.stationCooldown train)); auto).
  destruct H1 as (Hd & Hp & Hdir & Hpas & Hlast).
  rewrite Hd.
  rewrite (proj2 (Qltb_true 0 (Train.dwellRemaining train)) Hpos).
  assert (Hleb : Qleb (Train.dwellRemaining train - deltaTime) 0 = false)
    by (apply Qleb_false; lra).
  rewrite Hleb.
  eexists. split; [apply list_lookup_insert_eq; exact Hti |].
  simpl. auto.
Qed.

Lemma updateTrain_others_fold (deltaTime : Q) (l : list nat) (gc : Game.t) (ti : nat) :
  ti ∉ l ->
  Game.trains (fold_left (updateTrain hypot deltaTime) l gc) !! ti = Game.trains gc !! ti.
Proof.
  revert gc. induction l as [| j l IH]; intros gc Hout; [reflexivity |].
  simpl. rewrite IH by (intros H; apply Hout; right; exact H).
  apply (updateTrain_other hypot deltaTime gc j ti).
  intros ->. apply Hout. left.
Qed.

(** X10.  A train that dwells at a station for longer than the tick is not
    moved by [updateTrains]: after the call it has the position, the
    direction, the passengers and the last station it had before, whatever
    the other trains do during the tick. *)
Theorem updateTrains_dwelling_train_stays (deltaTime : Q) (g : Game.t) (ti : nat)
    (train : Train.t) :
  Game.trains g !! ti = Some train ->
  0 < Train.dwellRemaining train -> deltaTime < Train.dwellRemaining train ->
  exists tr' : Train.t,
    Game.trains (updateTrains hypot g deltaTime) !! ti = Some tr' /\
    Train.position tr' = Train.position train /\
    Train.direction tr' = Train.direction train /\
    Train.passengers tr' = Train.passengers train /\
    Train.lastStationVisited tr' = Train.lastStationVisited train.
Proof.
  intros Et Hpos Hdt.
  assert (Hti : (ti < length (Game.trains g))%nat) by (eapply lookup_lt_Some; eauto).
  unfold updateTrains.
  assert (Hsplit : seq 0 (length (Game.trains g))
                   = seq 0 ti ++ ti :: seq (S ti) (length (Game.trains g) - S ti)).
  { replace (length (Game.trains g)) with (ti + S (length (Game.trains g) - S ti))%nat
      at 1 by lia.
    rewrite seq_app. reflexivity. }
  rewrite Hsplit, fold_left_app. simpl.
  rewrite updateTrain_others_fold
    by (rewrite list_elem_of_In, in_seq; lia).
  apply updateTrain_dwelling; [| exact Hpos | exact Hdt].
  rewrite updateTrain_others_fold by (rewrite list_elem_of_In, in_seq; lia).
  exact Et.
Qed.

End DwellingTrain.


Section MotionFrame.

Local Open Scope Q_scope.

Variable hypot : Q -> Q -> Q.

(** The parts of a train that the motion never writes. *)
Let fixedPart (tr : Train.t) : nat * nat * Z * Q :=
  (Train.id tr, Train.lineId tr, Train.capacity tr, Train.speed tr).

Let sameFleet (g g' : Game.t) : Prop :=
  Game.lines g' = Game.lines g /\
  length (Game.trains g') = length (Game.trains g) /\
  forall (tj : nat) (tr' : Train.t), Game.trains g' !! tj = Some tr' ->
    exists tr : Train.t, Game.trains g !! tj = Some tr /\ fixedPart tr' = fixedPart tr.

Lemma sameFleet_refl (g : Game.t) : sameFleet g g.
Proof. unfold sameFleet. repeat split; eauto. Qed.

Lemma sameFleet_trans (g1 g2 g3 : Game.t) :
  sameFleet g1 g2 -> sameFleet g2 g3 -> sameFleet g1 g3.
Proof.
  intros (Hl1 & Hn1 & Ht1) (Hl2 & Hn2 & Ht2).
  split; [congruence |]. split; [congruence |].
  intros tj tr3 H3. destruct (Ht2 tj tr3 H3) as (tr2 & H2 & E2).
  destruct (Ht1 tj tr2 H2) as (tr1 & H1 & E1). exists tr1. split; [exact H1 | congruence].
Qed.

Lemma set_train_sameFleet (g g0 : Game.t) (ti : nat) (tr : Train.t) :
  sameFleet g g0 ->
  (forall t0 : Train.t, Game.trains g !! ti = Some t0 -> fixedPart tr = fixedPart t0) ->
  sameFleet g (set_train ti tr g0).
Proof.
  intros (Hl & Hn & Ht) Hfix. unfold set_train. split; [exact Hl |].
  split; [simpl; rewrite length_insert; exact Hn |].
  intros tj tr' H. apply set_train_lookup in H.
  destruct H as [(-> & -> & Hlt) | (Hne & H)].
  - rewrite Hn in Hlt. destruct (lookup_lt_is_Some_2 _ _ Hlt) as [t0 H0].
    exists t0. split; [exact H0 | exact (Hfix t0 H0)].
  - exact (Ht tj tr' H).
Qed.

Lemma handleStationArrival_sameFleet (g : Game.t) (ti si : nat) :
  sameFleet g (handleStationArrival hypot g ti si).
Proof.
  split; [| split].
  - destruct (handleStationArrival_other hypot g ti si (S ti)) as [_ H]; [lia | exact H].
  - apply handleStationArrival_length.
  - intros tj tr' H.
    destruct (handleStationArrival_frame hypot g ti si tj tr' H) as (tr & Htr & E).
    exists tr. split; [exact Htr |]. rewrite E. reflexivity.
Qed.

Lemma arriveAtStationIdx_sameFleet (g g0 : Game.t) (ti : nat) (line : Line.t) (idx : nat) :
  sameFleet g g0 -> sameFleet g (arriveAtStationIdx hypot g0 ti line idx).
Proof.
  intros H0. unfold arriveAtStationIdx.
  destruct (Line.stations line !! idx) as [stationIndex |]; [| exact H0].
  assert (H1 : sameFleet g (handleStationArrival hypot g0 ti stationIndex))
    by (eapply sameFleet_trans; [exact H0 | apply handleStationArrival_sameFleet]).
  cbv zeta.
  destruct (Game.trains (handleStationArrival hypot g0 ti stationIndex) !! ti)
    as [train |] eqn:Et; [| exact H1].
  destruct (Game.stations (handleStationArrival hypot g0 ti stationIndex) !! stationIndex)
    as [station |]; [| exact H1].
  apply set_train_sameFleet; [exact H1 |].
  intros t0 Ht0. destruct H1 as (_ & _ & H1). destruct (H1 ti train Et) as (tr & Htr & E).
  rewrite Htr in Ht0. injection Ht0 as <-. rewrite <- E.
  destruct (negb (Line.isLoop line) && _); reflexivity.
Qed.

Lemma checkCrossing_sameFleet (g g0 g1 : Game.t) (ti : nat) (train : Train.t)
    (line : Line.t) (norm : list Q) (startPos endPos : Q) (dir : Z) :
  sameFleet g g0 ->
  (forall t0 : Train.t, Game.trains g !! ti = Some t0 -> fixedPart train = fixedPart t0) ->
  checkCrossing hypot g0 ti train line norm startPos endPos dir = Some g1 ->
  sameFleet g g1.
Proof.
  intros H0 Hfix. unfold checkCrossing.
  destruct (List.find _ _) as [i |]; [| discriminate].
  intros E. injection E as <-.
  apply arriveAtStationIdx_sameFleet, set_train_sameFleet; [exact H0 |].
  intros t0 Ht0. rewrite <- (Hfix t0 Ht0). reflexivity.
Qed.

Lemma updateTrain_sameFleet (deltaTime : Q) (g : Game.t) (ti : nat) :
  sameFleet g (updateTrain hypot deltaTime g ti).
Proof.
  unfold updateTrain.
  destruct (Game.trains g !! ti) as [train0 |] eqn:Et; [| apply sameFleet_refl].
  destruct (Game.lines g !! Train.lineId train0) as [line |]; [| apply sameFleet_refl].
  assert (Hfix : forall tr : Train.t, fixedPart tr = fixedPart train0 ->
            forall t0 : Train.t, Game.trains g !! ti = Some t0 -> fixedPart tr = fixedPart t0).
  { intros tr E t0 Ht0. rewrite Et in Ht0. injection Ht0 as <-. exact E. }
  cbv zeta.
  repeat match goal with
         | |- sameFleet g g => apply sameFleet_refl
         | |- sameFleet g (set_train ti _ _) =>
             apply set_train_sameFleet;
               [| apply Hfix; repeat match goal with
                                     | |- context [if ?c then _ else _] => destruct c
                                     end; reflexivity]
         | |- sameFleet g (arriveAtStationIdx hypot _ ti line _) =>
             apply arriveAtStationIdx_sameFleet
         | |- sameFleet g (match checkCrossing ?a ?b ?c ?d ?e ?f ?h ?i ?j with _ => _ end) =>
             let EC := fresh "EC" in
             destruct (checkCrossing a b c d e f h i j) eqn:EC;
               [ eapply (checkCrossing_sameFleet g _ _ ti _ line _ _ _ _);
                   [| | exact EC];
                   [| apply Hfix; repeat match goal with
                                         | |- context [if ?c then _ else _] => destruct c
                                         end; reflexivity]
               |]
         | |- sameFleet g (if ?c then _ else _) => destruct c
         end.
Qed.

(** X11.  [updateTrains] moves trains and nothing else: the lines are as
    before, the trains are as many as before, and every train keeps its id,
    its line, its capacity and its speed. *)
Theorem updateTrains_frame (deltaTime : Q) (g : Game.t) :
  Game.lines (updateTrains hypot g deltaTime) = Game.lines g /\
  length (Game.trains (updateTrains hypot g deltaTime)) = length (Game.trains g) /\
  forall (tj : nat) (tr' : Train.t),
    Game.trains (updateTrains hypot g deltaTime) !! tj = Some tr' ->
    exists tr : Train.t,
      Game.trains g !! tj = Some tr /\
      Train.id tr' = Train.id tr /\ Train.lineId tr' = Train.lineId tr /\
      Train.capacity tr' = Train.capacity tr /\ Train.speed tr' = Train.speed tr.
Proof.
  assert (H : sameFleet g (updateTrains hypot g deltaTime)).
  { unfold updateTrains. generalize (seq 0 (length (Game.trains g))). intros l.
    assert (Hgen : forall g0, sameFleet g g0 ->
              sameFleet g (fold_left (updateTrain hypot deltaTime) l g0)).
    { induction l as [| ti l IH]; intros g0 H0; [exact H0 |].
      simpl. apply IH. eapply sameFleet_trans; [exact H0 | apply updateTrain_sameFleet]. }
    apply Hgen, sameFleet_refl. }
  destruct H as (Hl & Hn & Ht). split; [exact Hl |]. split; [exact Hn |].
  intros tj tr' Htr. destruct (Ht tj tr' Htr) as (tr & H0 & E).
  exists tr. split; [exact H0 |]. unfold fixedPart in E. injection E as E1 E2 E3 E4. auto.
Qed.

End MotionFrame.


Section DemandBounds.

Local Open Scope Z_scope.

Lemma fold_left_bounded (A : Type) (f : Z -> A -> Z) (l : list A) (d : Z) :
  (forall (x : Z) (a : A), x <= f x a <= x + 2) ->
  d <= fold_left f l d <= d + 2 * Z.of_nat (length l).
Proof.
  intros Hf. revert d. induction l as [| a l IH]; intros d; simpl length; [simpl; lia |].
  simpl. specialize (IH (f d a)). specialize (Hf d a). lia.
Qed.

Lemma demand_fold_bounded (g : Game.t) (f : Z -> Passenger.t -> Z) (sts : list nat) (d : Z) :
  (forall (x : Z) (a : Passenger.t), x <= f x a <= x + 2) ->
  d <= fold_left
         (fun demand stationId =>
            match Game.stations g !! stationId with
            | None => demand
            | Some station => fold_left f (Station.queue station) demand
            end) sts d
  <= d + 2 * Z.of_nat (length (flat_map
                                 (fun stationId =>
                                    match Game.stations g !! stationId with
                                    | Some station => Station.queue station
                                    | None => []
                                    end) sts)).
Proof.
  intros Hf. revert d. induction sts as [| si sts IH]; intros d; [simpl; lia |].
  simpl fold_left. simpl flat_map. rewrite length_app, Nat2Z.inj_add.
  destruct (Game.stations g !! si) as [station |].
  - pose proof (fold_left_bounded _ f (Station.queue station) d Hf) as Hin.
    specialize (IH (fold_left f (Station.queue station) d)). lia.
  - specialize (IH d). simpl length. lia.
Qed.

(** X12.  [calculateLineDemand] is not negative and counts at most 2 for
    every passenger waiting at a station of the line (a station that occurs
    twice on the line is counted twice). *)
Theorem calculateLineDemand_bounds (g : Game.t) (line : Line.t) :
  0 <= calculateLineDemand g line
  <= 2 * Z.of_nat (length (flat_map
                             (fun stationId =>
                                match Game.stations g !! stationId with
                                | Some station => Station.queue station
                                | None => []
                                end) (Line.stations line))).
Proof.
  unfold calculateLineDemand.
  match goal with
  | |- _ <= fold_left ?F ?l 0 <= ?rhs =>
      change (0 <= fold_left F l 0 <= 0 + rhs)
  end.
  apply demand_fold_bounded.
  intros x a. cbv beta zeta.
  repeat match goal with
         | |- context [if ?c then _ else _] => destruct c
         end; lia.
Qed.

End DemandBounds.


(** ** passengers.js *)

Section SpawnRoom.

Variable random : nat -> Q.

Lemma indexed_elem (g : Game.t) (pos : nat) (s : Station.t) :
  Game.stations g !! pos = Some s -> In (pos, s) (indexed g).
Proof.
  intros H. unfold indexed. apply list_elem_of_In.
  apply list_elem_of_lookup. exists pos.
  apply lookup_zip_with_Some. exists pos, s. split; [reflexivity |].
  split; [| exact H]. apply lookup_seq. split; [reflexivity |].
  eapply lookup_lt_Some. exact H.
Qed.

(** X13.  While some station has room for two more passengers,
    [spawnPassenger] fills no station up to its capacity: a station whose
    queue it extends has, after the call, still fewer passengers than its
    [dynamicCap]; every other station is as before. *)
Theorem spawnPassenger_keeps_room (k : nat) (g : Game.t) :
  (exists (i : nat) (s : Station.t),
     Game.stations g !! i = Some s /\
     (Z.of_nat (length (Station.queue s)) < dynamicCap g s - 1)%Z) ->
  forall (i : nat) (s' : Station.t),
    Game.stations (fst (spawnPassenger random k g)) !! i = Some s' ->
    exists s : Station.t,
      Game.stations g !! i = Some s /\
      (s' = s \/
       exists p : Passenger.t,
         s' = Station.with_queue (Station.queue s ++ [p]) s /\
         (Z.of_nat (length (Station.queue s')) < dynamicCap g s)%Z).
Proof.
  intros (i0 & s0 & Hs0 & Hroom0) i s'. unfold spawnPassenger.
  assert (Hsame : Game.stations g !! i = Some s' ->
                  exists s : Station.t,
                    Game.stations g !! i = Some s /\
                    (s' = s \/
                     exists p : Passenger.t,
                       s' = Station.with_queue (Station.queue s ++ [p]) s /\
                       (Z.of_nat (length (Station.queue s')) < dynamicCap g s)%Z))
    by (intros H; exists s'; auto).
  destruct (Game.gameOver g); [exact Hsame |].
  destruct (length (Game.stations g) <? 2)%nat; [exact Hsame |].
  cbv zeta.
  set (origins0 := List.filter
                     (fun c => (Z.of_nat (length (Station.queue (snd c)))
                                <? dynamicCap g (snd c) - 1)%Z) (indexed g)).
  assert (Hne : (length origins0 =? 0)%nat = false).
  { apply Nat.eqb_neq. intros E. apply length_zero_iff_nil in E.
    assert (Hin : In (i0, s0) origins0).
    { unfold origins0. apply List.filter_In. split; [apply indexed_elem; exact Hs0 |].
      simpl. apply Z.ltb_lt. exact Hroom0. }
    rewrite E in Hin. exact Hin. }
  rewrite Hne.
  destruct (pick origins0 (random k)) as [[originPos origin] |] eqn:Eo; [| exact Hsame].
  apply pick_elem in Eo. unfold origins0 in Eo. apply List.filter_In in Eo.
  destruct Eo as [Hidx Hroom]. simpl in Hroom. apply Z.ltb_lt in Hroom.
  apply indexed_lookup in Hidx.
  match goal with
  | |- context [match ?c with Some _ => _ | None => _ end] =>
      match type of c with
      | option (option Station.t * nat) => destruct c as [[[ds |] k'] |]
      end
  end; [| exact Hsame | exact Hsame].
  simpl. intros H.
  destruct (decide (i = originPos)) as [-> | Hneq].
  - rewrite list_lookup_insert_eq in H by (eapply lookup_lt_Some; exact Hidx).
    injection H as <-. exists origin. split; [exact Hidx |]. right.
    eexists. split; [reflexivity |]. simpl. rewrite length_app. simpl. lia.
  - rewrite list_lookup_insert_ne in H by congruence. apply Hsame. exact H.
Qed.

End SpawnRoom.


Section EmergencyConservation.

Variable random : nat -> Q.

Lemma flat_map_insert_length (A B : Type) (f : A -> list B) (l : list A) (i : nat) (x y : A) :
  l !! i = Some x ->
  (length (flat_map f (<[i := y]> l)) + length (f x)
   = length (flat_map f l) + length (f y))%nat.
Proof.
  revert i. induction l as [| a l IH]; intros i H; [discriminate |].
  destruct i as [| i].
  - injection H as ->. simpl. rewrite !length_app. lia.
  - simpl in *. rewrite !length_app. specialize (IH i H). lia.
Qed.

Lemma set_station_total (g : Game.t) (si : nat) (s s' : Station.t) :
  Game.stations g !! si = Some s ->
  (length (flat_map Station.queue (Game.stations (set_station si s' g)))
   + length (Station.queue s)
   = length (flat_map Station.queue (Game.stations g)) + length (Station.queue s'))%nat.
Proof. intros H. unfold set_station. simpl. apply flat_map_insert_length. exact H. Qed.

Lemma emergencyMove_total (si : nat) (alternatives : list nat)
    (g : Game.t) (k moved pos : nat) :
  (forall a : nat, a ∈ alternatives -> (a < length (Game.stations g))%nat) ->
  let g' := fst (fst (emergencyMove random si alternatives (g, k, moved) pos)) in
  length (flat_map Station.queue (Game.stations g'))
  = length (flat_map Station.queue (Game.stations g)) /\
  length (Game.stations g') = length (Game.stations g) /\
  Game.score g' = Game.score g.
Proof.
  intros Halt. unfold emergencyMove.
  destruct (pick alternatives (random k)) as [alt |] eqn:Ep; [| simpl; auto].
  destruct (Game.stations g !! si) as [station |] eqn:Es; [| simpl; auto].
  destruct (Station.queue station !! (pos - moved)%nat) as [p |] eqn:Eq; [| simpl; auto].
  cbv zeta.
  set (g1 := set_station si
               (Station.with_queue (delete (pos - moved)%nat (Station.queue station)) station)
               g).
  assert (Hlen1 : length (Game.stations g1) = length (Game.stations g))
    by (unfold g1, set_station; simpl; apply length_insert).
  assert (Halt1 : (alt < length (Game.stations g1))%nat).
  { rewrite Hlen1. apply Halt. apply list_elem_of_In. eapply pick_elem. exact Ep. }
  destruct (lookup_lt_is_Some_2 _ _ Halt1) as [altStation EaltS]. rewrite EaltS.
  cbv zeta.
  pose proof (set_station_total g si station
                (Station.with_queue (delete (pos - moved)%nat (Station.queue station)) station)
                Es) as H1.
  fold g1 in H1. cbn [Station.queue Station.with_queue] in H1.
  rewrite length_delete in H1 by eauto.
  match goal with
  | |- context [set_station alt ?s' g1] =>
      pose proof (set_station_total g1 alt altStation s' EaltS) as H2
  end.
  cbn [Station.queue Station.with_queue] in H2. rewrite length_app in H2.
  cbn [length] in H2.
  assert (Hq : (0 < length (Station.queue station))%nat)
    by (apply lookup_lt_Some in Eq; lia).
  cbn [fst]. split; [lia |]. split; [| reflexivity].
  unfold set_station. simpl. rewrite length_insert. exact Hlen1.
Qed.

Lemma emergencyMove_fold_total (si : nat) (alternatives : list nat) (cands : list nat) :
  forall (g : Game.t) (k moved : nat),
    (forall a : nat, a ∈ alternatives -> (a < length (Game.stations g))%nat) ->
    let g' := fst (fst (fold_left (emergencyMove random si alternatives) cands
                                  (g, k, moved))) in
    length (flat_map Station.queue (Game.stations g'))
    = length (flat_map Station.queue (Game.stations g)) /\
    Game.score g' = Game.score g.
Proof.
  induction cands as [| pos cands IH]; intros g k moved Halt; [simpl; auto |].
  cbn [fold_left].
  pose proof (emergencyMove_total si alternatives g k moved pos Halt) as H.
  cbv zeta in H.
  destruct (emergencyMove random si alternatives (g, k, moved) pos) as [[g1 k1] m1].
  cbn [fst] in H. destruct H as (H1 & H2 & H3).
  destruct (IH g1 k1 m1) as [H4 H5].
  - intros a Ha. rewrite H2. exact (Halt a Ha).
  - cbv zeta. split; [rewrite H4; exact H1 | rewrite H5; exact H3].
Qed.

(** X14.  [handleEmergencyOvercrowding] loses no passenger without paying
    for it: a passenger it takes from the queue of the station is put into
    the queue of another station, or is delivered for 5 points, so that five
    times the number of queued passengers plus the score is the same before
    and after the call. *)
Theorem handleEmergencyOvercrowding_conserves (k : nat) (g : Game.t) (si : nat) :
  (5 * Z.of_nat (length (flat_map Station.queue
                           (Game.stations (fst (handleEmergencyOvercrowding random k g si)))))
   + Game.score (fst (handleEmergencyOvercrowding random k g si))
   = 5 * Z.of_nat (length (flat_map Station.queue (Game.stations g))) + Game.score g)%Z.
Proof.
  unfold handleEmergencyOvercrowding.
  destruct (Game.stations g !! si) as [station |] eqn:Es; [| reflexivity].
  cbv zeta.
  destruct (length (Station.queue station) =? 0)%nat; [reflexivity |].
  match goal with
  | |- context [if negb ?c then _ else _] => destruct (negb c); [reflexivity |]
  end.
  match goal with
  | |- context [let '(g1, k1) := ?e in _] =>
      assert (Hmove :
        length (flat_map Station.queue (Game.stations (fst e)))
        = length (flat_map Station.queue (Game.stations g)) /\
        Game.score (fst e) = Game.score g);
      [| destruct e as [g1 k1]]
  end.
  { match goal with
    | |- context [if ?c then _ else _] => destruct c; [| simpl; auto]
    end.
    match goal with
    | |- context [if (length ?alts =? 0)%nat then _ else _] =>
        set (alternativeStations := alts);
        destruct (length alternativeStations =? 0)%nat; [simpl; auto |]
    end.
    match goal with
    | |- context [fold_left ?f ?cands ?init] =>
        pose proof (emergencyMove_fold_total si alternativeStations cands g k 0%nat) as Hf;
        destruct (fold_left f cands init) as [[g' k'] m']
    end.
    simpl in Hf. simpl. apply Hf.
    intros a Ha. unfold alternativeStations in Ha.
    apply list_elem_of_In, in_map_iff in Ha. destruct Ha as ([a' s'] & E & Hin).
    simpl in E. subst a'. apply List.filter_In in Hin. destruct Hin as [Hin _].
    apply indexed_lookup in Hin. eapply lookup_lt_Some. exact Hin. }
  simpl in Hmove. destruct Hmove as [Ht Hs].
  destruct (Game.stations g1 !! si) as [station1 |] eqn:Es1; [| simpl; lia].
  destruct (Station.isFinal station1 && _); [| simpl; lia].
  match goal with
  | |- context [(length ?d =? 0)%nat] => destruct (length d =? 0)%nat; [simpl; lia |]
  end.
  simpl fst.
  match goal with
  | |- context [set_station si ?s' ?g0] =>
      pose proof (set_station_total g0 si station1 s' Es1) as H2
  end.
  simpl in H2.
  pose proof (List.filter_length
                (fun p => (Passenger.destStation p =? Station.id station1)%nat)
                (Station.queue station1)) as Hfl.
  simpl.
  unfold set_station in H2. simpl in H2.
  match type of Hfl with
  | (length ?a + length ?b)%nat = _ =>
      match goal with
      | |- context [length (flat_map Station.queue ?l)] =>
          match type of H2 with
          | context [length (flat_map Station.queue l)] => idtac
          end
      end
  end.
  lia.
Qed.

End EmergencyConservation.


(** ** lines.js *)

Section ColourChoice.

Local Open Scope Z_scope.

(** X15.  With at least one colour configured, [pickAvailableColorIndex]
    returns an index of the colour list, and an index that no line uses
    whenever there is one. *)
Theorem pickAvailableColorIndex_unused (g : Game.t) :
  (0 < length (Config.lineColors (Game.config g)))%nat ->
  0 <= pickAvailableColorIndex g < Z.of_nat (length (Config.lineColors (Game.config g))) /\
  ((exists c : Z,
      0 <= c < Z.of_nat (length (Config.lineColors (Game.config g))) /\
      c ∉ map Line.colorIndex (Game.lines g)) ->
   pickAvailableColorIndex g ∉ map Line.colorIndex (Game.lines g)).
Proof.
  intros Hpos. unfold pickAvailableColorIndex. cbv zeta.
  set (used := map Line.colorIndex (Game.lines g)).
  set (n := length (Config.lineColors (Game.config g))) in *.
  set (start := Z.of_nat (length (Game.lines g)) mod Z.of_nat n).
  set (tries := map (fun i : nat => (start + Z.of_nat i) mod Z.of_nat n) (seq 0 n)).
  destruct (List.find (fun c => negb (bool_decide (c ∈ used))) tries) as [c |] eqn:Ef.
  - apply List.find_some in Ef. destruct Ef as [Hin Hc]. split.
    + unfold tries in Hin. apply in_map_iff in Hin. destruct Hin as (i & <- & _).
      apply Z.mod_pos_bound. lia.
    + intros _. apply negb_true_iff, bool_decide_eq_false in Hc. exact Hc.
  - split; [apply Z.mod_pos_bound; lia |].
    intros (c & Hc & Hunused). exfalso.
    assert (Hin : In c tries).
    { unfold tries. apply in_map_iff.
      exists (Z.to_nat ((c - start) mod Z.of_nat n)).
      pose proof (Z.mod_pos_bound (c - start) (Z.of_nat n) ltac:(lia)) as Hb.
      split; [| apply in_seq; lia].
      rewrite Z2Nat.id by lia.
      rewrite Zplus_mod_idemp_r. replace (start + (c - start)) with c by lia.
      apply Z.mod_small. lia. }
    pose proof (List.find_none _ _ Ef c Hin) as Hn. simpl in Hn.
    apply negb_false_iff, bool_decide_eq_true in Hn. contradiction.
Qed.

End ColourChoice.

Lemma pickAvailableColorIndex_unused_witness :
  (0 < length (Config.lineColors (Game.config Examples.gameABC)))%nat /\
  (0 <= pickAvailableColorIndex Examples.gameABC
   < Z.of_nat (length (Config.lineColors (Game.config Examples.gameABC))))%Z /\
  ((exists c : Z,
      (0 <= c < Z.of_nat (length (Config.lineColors (Game.config Examples.gameABC))))%Z /\
      c ∉ map Line.colorIndex (Game.lines Examples.gameABC)) ->
   pickAvailableColorIndex Examples.gameABC
   ∉ map Line.colorIndex (Game.lines Examples.gameABC)).
Proof.
  assert (H : (0 < length (Config.lineColors (Game.config Examples.gameABC)))%nat)
    by (simpl; lia).
  split; [exact H |].
  exact (pickAvailableColorIndex_unused Examples.gameABC H).
Defined.

Section LineCreation.

Variable hypot : Q -> Q -> Q.

Lemma addConnection_stations (lineId : nat) (g : Game.t) (idx : nat) :
  length (Game.stations (addConnection lineId g idx)) = length (Game.stations g) /\
  Game.lines (addConnection lineId g idx) = Game.lines g /\
  Game.undoStack (addConnection lineId g idx) = Game.undoStack g /\
  Game.trains (addConnection lineId g idx) = Game.trains g /\
  (forall (i : nat) (s' : Station.t),
     Game.stations (addConnection lineId g idx) !! i = Some s' ->
     exists s : Station.t,
       Game.stations g !! i = Some s /\
       (forall c : nat, c ∈ Station.connections s -> c ∈ Station.connections s') /\
       (i = idx -> lineId ∈ Station.connections s')).
Proof.
  unfold addConnection.
  assert (Hsame : forall (i : nat) (s' : Station.t),
            Game.stations g !! i = Some s' ->
            (i = idx -> lineId ∈ Station.connections s') ->
            exists s : Station.t,
              Game.stations g !! i = Some s /\
              (forall c : nat, c ∈ Station.connections s -> c ∈ Station.connections s') /\
              (i = idx -> lineId ∈ Station.connections s'))
    by (intros i s' H Hi; exists s'; auto).
  destruct (Game.stations g !! idx) as [s |] eqn:Es.
  - unfold includes. case_bool_decide as Hin.
    + repeat split; auto. intros i s' H. apply (Hsame i s' H).
      intros ->. rewrite Es in H. injection H as <-. exact Hin.
    + unfold set_station. simpl. rewrite length_insert. repeat split; auto.
      intros i s' H. destruct (decide (i = idx)) as [-> | Hne].
      * rewrite list_lookup_insert_eq in H by (eapply lookup_lt_Some; exact Es).
        injection H as <-. exists s. split; [exact Es |]. simpl. split.
        -- intros c Hc. apply elem_of_app. auto.
        -- intros _. apply elem_of_app. right. apply list_elem_of_singleton. reflexivity.
      * rewrite list_lookup_insert_ne in H by congruence.
        apply (Hsame i s' H). intros E. contradiction.
  - repeat split; auto. intros i s' H. apply (Hsame i s' H).
    intros ->. rewrite Es in H. discriminate.
Qed.

Lemma addConnection_fold (lineId : nat) (sts : list nat) (g : Game.t) :
  let g' := fold_left (addConnection lineId) sts g in
  length (Game.stations g') = length (Game.stations g) /\
  Game.lines g' = Game.lines g /\
  Game.undoStack g' = Game.undoStack g /\
  Game.trains g' = Game.trains g /\
  (forall (i : nat) (s' : Station.t), Game.stations g' !! i = Some s' ->
     exists s : Station.t,
       Game.stations g !! i = Some s /\
       (forall c : nat, c ∈ Station.connections s -> c ∈ Station.connections s') /\
       (i ∈ sts -> lineId ∈ Station.connections s')).
Proof.
  revert g. induction sts as [| idx sts IH]; intros g; cbv zeta.
  - simpl. repeat split; auto. intros i s' H. exists s'. split; [exact H |].
    split; [auto |]. intros Hin. inversion Hin.
  - simpl fold_left.
    destruct (addConnection_stations lineId g idx) as (A1 & A2 & A3 & A4 & A5).
    destruct (IH (addConnection lineId g idx)) as (B1 & B2 & B3 & B4 & B5).
    split; [congruence |]. split; [congruence |]. split; [congruence |].
    split; [congruence |].
    intros i s' H. destruct (B5 i s' H) as (s1 & H1 & Hsub1 & Hin1).
    destruct (A5 i s1 H1) as (s & H0 & Hsub0 & Hin0).
    exists s. split; [exact H0 |]. split; [auto |].
    intros Hi. apply elem_of_cons in Hi. destruct Hi as [-> | Hi]; auto.
Qed.

(** X16.  A call of [createLine] with two or more station indices of the
    game adds one line at the end of [game.lines]; its id is its position
    there (the number of lines before the call), its stations are the ones
    given, and after the call every one of these stations lists the id among
    its connections, next to the connections it had. *)
Theorem createLine_registers (g : Game.t) (stations : list nat) (colorIndex : option Z) :
  (2 <= length stations)%nat ->
  (forall idx : nat, idx ∈ stations -> (idx < length (Game.stations g))%nat) ->
  exists line : Line.t,
    snd (createLine hypot g stations colorIndex) = Some line /\
    Line.id line = length (Game.lines g) /\
    Line.stations line = stations /\
    Game.lines (fst (createLine hypot g stations colorIndex)) !! length (Game.lines g)
    = Some line /\
    length (Game.lines (fst (createLine hypot g stations colorIndex)))
    = S (length (Game.lines g)) /\
    forall (i : nat) (s : Station.t), Game.stations g !! i = Some s ->
      exists s' : Station.t,
        Game.stations (fst (createLine hypot g stations colorIndex)) !! i = Some s' /\
        (forall c : nat, c ∈ Station.connections s -> c ∈ Station.connections s') /\
        (i ∈ stations -> length (Game.lines g) ∈ Station.connections s').
Proof.
  intros Hlen Hrange. unfold createLine.
  destruct (length stations <? 2)%nat eqn:E; [apply Nat.ltb_lt in E; lia |].
  cbv zeta.
  set (g1 := Game.saveGameState g).
  assert (Hg1 : Game.lines g1 = Game.lines g /\ Game.stations g1 = Game.stations g)
    by (split; reflexivity).
  destruct Hg1 as [Hl1 Hs1].
  match goal with
  | |- context [Line.with_totalLength ?len ?l0] =>
      set (line := Line.with_totalLength len l0)
  end.
  set (g2 := Game.with_lines (Game.lines g1 ++ [line]) g1).
  set (g3 := fold_left (addConnection (Line.id line)) (Line.stations line) g2).
  destruct (addConnection_fold (Line.id line) (Line.stations line) g2)
    as (C1 & C2 & C3 & C4 & C5).
  fold g3 in C1, C2, C3, C4, C5.
  destruct (optimizeTrainAllocation_frame g3) as (O1 & O2 & O3 & O4).
  assert (Hid : Line.id line = length (Game.lines g)) by reflexivity.
  assert (Hl3 : Game.lines g3 !! length (Game.lines g) = Some line).
  { rewrite C2. unfold g2. simpl.
    rewrite lookup_app_r by lia. rewrite Nat.sub_diag. reflexivity. }
  assert (Hn3 : length (Game.lines g3) = S (length (Game.lines g))).
  { rewrite C2. unfold g2. simpl. rewrite length_app. simpl. lia. }
  assert (Hlt : (length (Game.lines g) < length (Game.lines (optimizeTrainAllocation g3)))%nat)
    by (rewrite O2, Hn3; lia).
  destruct (lookup_lt_is_Some_2 _ _ Hlt) as [line4 H4].
  destruct (O3 _ _ H4) as (line3 & H3 & E4).
  rewrite Hl3 in H3. injection H3 as <-.
  exists line4. cbn [fst snd]. rewrite Hid, H4. split; [reflexivity |].
  split; [rewrite E4; exact Hid |]. split; [rewrite E4; reflexivity |].
  split; [reflexivity |]. split; [rewrite O2; exact Hn3 |].
  intros i s Hs. rewrite O1.
  assert (Hi : (i < length (Game.stations g3))%nat).
  { rewrite C1. unfold g2. simpl. eapply lookup_lt_Some. exact Hs. }
  destruct (lookup_lt_is_Some_2 _ _ Hi) as [s' Hs'].
  exists s'. split; [exact Hs' |].
  destruct (C5 i s' Hs') as (s2 & H2 & Hsub & Hin).
  unfold g2 in H2. simpl in H2. rewrite Hs in H2. injection H2 as <-.
  split; [exact Hsub |]. intros Hmem. rewrite <- Hid. apply Hin. exact Hmem.
Qed.

End LineCreation.


(** ** main.js: undo *)

Section UndoFacts.

Variable hypot : Q -> Q -> Q.

Lemma undoStack_saveGameState (g : Game.t) :
  Game.undoStack (Game.saveGameState g)
  = (if (5 <=? length (Game.undoStack g))%nat then tail (Game.undoStack g)
     else Game.undoStack g)
    ++ [Snapshot.mk (Game.lines g) (Game.trains g) (Game.linesAvailable g)
                    (Game.trainsAvailable g) (Game.tunnels g) (Game.score g)].
Proof. reflexivity. Qed.

Lemma undo_snoc (g : Game.t) (stack : list Snapshot.t) (snapshot : Snapshot.t) :
  Game.undoStack g = stack ++ [snapshot] ->
  snd (Undo.undo g) = true /\
  Game.lines (fst (Undo.undo g)) = Snapshot.lines snapshot /\
  Game.trains (fst (Undo.undo g)) = Snapshot.trains snapshot /\
  Game.linesAvailable (fst (Undo.undo g)) = Snapshot.linesAvailable snapshot /\
  Game.trainsAvailable (fst (Undo.undo g)) = Snapshot.trainsAvailable snapshot /\
  Game.tunnels (fst (Undo.undo g)) = Snapshot.tunnels snapshot /\
  Game.score (fst (Undo.undo g)) = Snapshot.score snapshot /\
  Game.undoStack (fst (Undo.undo g)) = stack.
Proof.
  intros E. unfold Undo.undo. rewrite E, last_snoc. simpl.
  rewrite removelast_last. auto 10.
Qed.

(** X17.  [saveGameState] keeps at most five snapshots (it drops the oldest
    one of five), and an [undo] right after it succeeds and restores the
    lines, the trains, the two pools, the tunnels and the score that were
    saved; the stack is then the one of before, less the snapshot dropped. *)
Theorem undo_after_saveGameState (g : Game.t) :
  ((length (Game.undoStack g) <= 5)%nat ->
   (length (Game.undoStack (Game.saveGameState g)) <= 5)%nat) /\
  snd (Undo.undo (Game.saveGameState g)) = true /\
  Game.lines (fst (Undo.undo (Game.saveGameState g))) = Game.lines g /\
  Game.trains (fst (Undo.undo (Game.saveGameState g))) = Game.trains g /\
  Game.linesAvailable (fst (Undo.undo (Game.saveGameState g))) = Game.linesAvailable g /\
  Game.trainsAvailable (fst (Undo.undo (Game.saveGameState g))) = Game.trainsAvailable g /\
  Game.tunnels (fst (Undo.undo (Game.saveGameState g))) = Game.tunnels g /\
  Game.score (fst (Undo.undo (Game.saveGameState g))) = Game.score g /\
  Game.undoStack (fst (Undo.undo (Game.saveGameState g)))
  = (if (5 <=? length (Game.undoStack g))%nat then tail (Game.undoStack g)
     else Game.undoStack g).
Proof.
  split.
  - intros Hlen. rewrite undoStack_saveGameState, length_app. cbn [length].
    destruct (5 <=? length (Game.undoStack g))%nat eqn:E.
    + apply Nat.leb_le in E. destruct (Game.undoStack g); cbn [tail length] in *; lia.
    + apply Nat.leb_gt in E. lia.
  - exact (undo_snoc (Game.saveGameState g) _ _ (undoStack_saveGameState g)).
Qed.

(** X18.  An [undo] right after a successful [createLine] removes the line
    again: the lines, the trains (with the ones the allocator has put on the
    new line), the two pools, the tunnels and the score are those of before
    the call of [createLine]. *)
Theorem undo_after_createLine (g : Game.t) (stations : list nat) (colorIndex : option Z) :
  (2 <= length stations)%nat ->
  (forall idx : nat, idx ∈ stations -> (idx < length (Game.stations g))%nat) ->
  snd (Undo.undo (fst (createLine hypot g stations colorIndex))) = true /\
  Game.lines (fst (Undo.undo (fst (createLine hypot g stations colorIndex)))) = Game.lines g /\
  Game.trains (fst (Undo.undo (fst (createLine hypot g stations colorIndex))))
  = Game.trains g /\
  Game.linesAvailable (fst (Undo.undo (fst (createLine hypot g stations colorIndex))))
  = Game.linesAvailable g /\
  Game.trainsAvailable (fst (Undo.undo (fst (createLine hypot g stations colorIndex))))
  = Game.trainsAvailable g /\
  Game.tunnels (fst (Undo.undo (fst (createLine hypot g stations colorIndex))))
  = Game.tunnels g /\
  Game.score (fst (Undo.undo (fst (createLine hypot g stations colorIndex))))
  = Game.score g.
Proof.
  intros Hlen _.
  assert (Hstack : Game.undoStack (fst (createLine hypot g stations colorIndex))
                   = Game.undoStack (Game.saveGameState g)).
  { unfold createLine.
    destruct (length stations <? 2)%nat eqn:E; [apply Nat.ltb_lt in E; lia |].
    cbv zeta. cbn [fst].
    match goal with
    | |- Game.undoStack (optimizeTrainAllocation ?g3) = _ =>
        destruct (optimizeTrainAllocation_frame g3) as (_ & _ & _ & O4)
    end.
    etransitivity; [exact O4 |].
    match goal with
    | |- Game.undoStack (fold_left (addConnection ?id) ?sts ?g2) = _ =>
        destruct (addConnection_fold id sts g2) as (_ & _ & C3 & _)
    end.
    etransitivity; [exact C3 |]. reflexivity. }
  rewrite undoStack_saveGameState in Hstack.
  destruct (undo_snoc _ _ _ Hstack) as (H1 & H2 & H3 & H4 & H5 & H6 & H7 & _).
  simpl in H2, H3, H4, H5, H6, H7. auto 10.
Qed.

Lemma pushConnection_spec (lineId : nat) (sts : list Station.t) (idx : nat) :
  length (Undo.pushConnection lineId sts idx) = length sts /\
  forall (i : nat) (s' : Station.t), Undo.pushConnection lineId sts idx !! i = Some s' ->
    exists s : Station.t,
      sts !! i = Some s /\
      forall c : nat, c ∈ Station.connections s' <->
                      c ∈ Station.connections s \/ (c = lineId /\ i = idx).
Proof.
  unfold Undo.pushConnection.
  assert (Hsame : forall (i : nat) (s' : Station.t), sts !! i = Some s' -> i <> idx ->
            exists s : Station.t,
              sts !! i = Some s /\
              forall c : nat, c ∈ Station.connections s' <->
                              c ∈ Station.connections s \/ (c = lineId /\ i = idx)).
  { intros i s' H Hne. exists s'. split; [exact H |]. intros c. tauto. }
  destruct (sts !! idx) as [s |] eqn:Es.
  - rewrite length_insert. split; [reflexivity |]. intros i s' H.
    destruct (decide (i = idx)) as [-> | Hne].
    + rewrite list_lookup_insert_eq in H by (eapply lookup_lt_Some; exact Es).
      injection H as <-. exists s. split; [exact Es |]. intros c. simpl.
      rewrite elem_of_app, list_elem_of_singleton. tauto.
    + rewrite list_lookup_insert_ne in H by congruence. apply Hsame; assumption.
  - split; [reflexivity |]. intros i s' H. apply Hsame; [exact H |].
    intros ->. rewrite Es in H. discriminate.
Qed.

Lemma pushConnection_fold (lineId : nat) (idxs : list nat) (sts : list Station.t) :
  length (fold_left (Undo.pushConnection lineId) idxs sts) = length sts /\
  forall (i : nat) (s' : Station.t),
    fold_left (Undo.pushConnection lineId) idxs sts !! i = Some s' ->
    exists s : Station.t,
      sts !! i = Some s /\
      forall c : nat, c ∈ Station.connections s' <->
                      c ∈ Station.connections s \/ (c = lineId /\ i ∈ idxs).
Proof.
  revert sts. induction idxs as [| idx idxs IH]; intros sts.
  - simpl. split; [reflexivity |]. intros i s' H. exists s'. split; [exact H |].
    intros c. split; [auto |]. intros [H1 | [_ H1]]; [exact H1 | inversion H1].
  - simpl fold_left.
    destruct (pushConnection_spec lineId sts idx) as [A1 A2].
    destruct (IH (Undo.pushConnection lineId sts idx)) as [B1 B2].
    split; [congruence |]. intros i s' H.
    destruct (B2 i s' H) as (s1 & H1 & E1). destruct (A2 i s1 H1) as (s & H0 & E0).
    exists s. split; [exact H0 |]. intros c. rewrite E1, E0, elem_of_cons. tauto.
Qed.

Lemma rebuild_fold (lines : list Line.t) (sts : list Station.t) :
  let out := fold_left (fun sts line =>
                          fold_left (Undo.pushConnection (Line.id line))
                                    (Line.stations line) sts) lines sts in
  length out = length sts /\
  forall (i : nat) (s' : Station.t), out !! i = Some s' ->
    exists s : Station.t,
      sts !! i = Some s /\
      forall c : nat, c ∈ Station.connections s' <->
        c ∈ Station.connections s \/
        exists line : Line.t, line ∈ lines /\ Line.id line = c /\ i ∈ Line.stations line.
Proof.
  revert sts. induction lines as [| line lines IH]; intros sts; cbv zeta.
  - simpl. split; [reflexivity |]. intros i s' H. exists s'. split; [exact H |].
    intros c. split; [auto |]. intros [H1 | (l & Hl & _)]; [exact H1 | inversion Hl].
  - simpl fold_left.
    destruct (pushConnection_fold (Line.id line) (Line.stations line) sts) as [A1 A2].
    destruct (IH (fold_left (Undo.pushConnection (Line.id line)) (Line.stations line) sts))
      as [B1 B2].
    split; [congruence |]. intros i s' H.
    destruct (B2 i s' H) as (s1 & H1 & E1). destruct (A2 i s1 H1) as (s & H0 & E0).
    exists s. split; [exact H0 |]. intros c. rewrite E1, E0. split.
    + intros [[Hc | [-> Hi]] | (l & Hl & Hid & Hi)]; [auto | |].
      * right. exists line. split; [left |]. auto.
      * right. exists l. split; [right; exact Hl |]. auto.
    + intros [Hc | (l & Hl & Hid & Hi)]; [auto |].
      apply elem_of_cons in Hl. destruct Hl as [-> | Hl].
      * left. right. auto.
      * right. exists l. auto.
Qed.

(** X19.  After a successful [undo] the connections of the stations are
    rebuilt from the restored lines: a station lists a line id exactly when
    a restored line of that id names the station; the stations are as many
    as before. *)
Theorem undo_rebuilds_connections (g : Game.t) (snapshot : Snapshot.t) :
  last (Game.undoStack g) = Some snapshot ->
  length (Game.stations (fst (Undo.undo g))) = length (Game.stations g) /\
  forall (i : nat) (s' : Station.t),
    Game.stations (fst (Undo.undo g)) !! i = Some s' ->
    forall c : nat,
      c ∈ Station.connections s' <->
      exists line : Line.t,
        line ∈ Snapshot.lines snapshot /\ Line.id line = c /\ i ∈ Line.stations line.
Proof.
  intros E. unfold Undo.undo. rewrite E. cbn [fst Game.stations].
  unfold Undo.rebuildConnections.
  destruct (rebuild_fold (Snapshot.lines snapshot)
              (map (Station.with_connections []) (Game.stations g))) as [H1 H2].
  split; [rewrite H1; apply length_map |].
  intros i s' H c. destruct (H2 i s' H) as (s & Hs & Hc). rewrite Hc.
  apply list_lookup_fmap_Some in Hs.
  destruct Hs as (s0 & -> & _). simpl. split.
  - intros [Hnil | Hex]; [inversion Hnil | exact Hex].
  - auto.
Qed.

End UndoFacts.


(** ** intersections.js: segments *)

Section SegmentFacts.

Import Intersections.
Local Open Scope Q_scope.

Lemma segSegIntersect_swap_aux (p p2 q q2 : Pt) :
  segSegIntersect p p2 q q2 = segSegIntersect q q2 p p2.
Proof.
  unfold segSegIntersect. cbv zeta.
  generalize (orientation p p2 q) (orientation p p2 q2)
             (orientation q q2 p) (orientation q q2 p2).
  intros o1 o2 o3 o4.
  destruct (o1 =? o2)%Z, (o3 =? o4)%Z, (o1 =? 0)%Z, (o2 =? 0)%Z, (o3 =? 0)%Z, (o4 =? 0)%Z,
           (onSeg p q p2), (onSeg p q2 p2), (onSeg q p q2), (onSeg q p2 q2);
    reflexivity.
Qed.

Lemma orientation_shared (q q2 : Pt) : orientation q q2 q = 0%Z.
Proof.
  unfold orientation. cbv zeta.
  assert (H : Qltb (Qabs ((y q2 - y q) * (x q - x q2) - (x q2 - x q) * (y q - y q2)))
                   tolerance = true).
  { apply Qltb_true.
    assert (E : (y q2 - y q) * (x q - x q2) - (x q2 - x q) * (y q - y q2) == 0) by ring.
    rewrite E. reflexivity. }
  rewrite H. reflexivity.
Qed.

Lemma onSeg_first (q q2 : Pt) : onSeg q q q2 = true.
Proof.
  unfold onSeg, tolerance.
  repeat (apply andb_true_iff; split); apply Qleb_true.
  - pose proof (Q.le_min_l (x q) (x q2)). lra.
  - pose proof (Q.le_max_l (x q) (x q2)). lra.
  - pose proof (Q.le_min_l (y q) (y q2)). lra.
  - pose proof (Q.le_max_l (y q) (y q2)). lra.
Qed.

Lemma segSegIntersect_shared (p p2 q2 : Pt) : segSegIntersect p p2 p q2 = true.
Proof.
  unfold segSegIntersect. cbv zeta.
  rewrite (orientation_shared p q2), (onSeg_first p q2). simpl.
  repeat match goal with
         | |- (if ?c then true else _) = true => destruct c; [reflexivity |]
         end.
  reflexivity.
Qed.

(** X20.  Touching counts as crossing: two segments that start at the same
    point intersect, and a segment that starts at a vertex of the polygon
    crosses the polygon. *)
Theorem segmentCrossesPolygon_at_vertex (A B : Pt) (poly : list Pt) (i : nat) :
  poly !! i = Some A ->
  segmentCrossesPolygon A B poly = true /\
  forall D : Pt, segSegIntersect A B A D = true.
Proof.
  intros Hi. split; [| intros D; apply segSegIntersect_shared].
  unfold segmentCrossesPolygon. cbv zeta. apply existsb_exists.
  assert (Hlt : (i < length poly)%nat) by (eapply lookup_lt_Some; exact Hi).
  exists i. split; [apply in_seq; lia |].
  rewrite Hi.
  assert (Hnext : ((i + 1) mod length poly < length poly)%nat)
    by (apply Nat.mod_upper_bound; lia).
  destruct (lookup_lt_is_Some_2 _ _ Hnext) as [D HD]. rewrite HD.
  apply segSegIntersect_shared.
Qed.

End SegmentFacts.

Lemma segmentCrossesPolygon_at_vertex_witness :
  [Intersections.mkPt 0 0; Intersections.mkPt 4 0; Intersections.mkPt 0 3] !! 1%nat
  = Some (Intersections.mkPt 4 0) /\
  Intersections.segmentCrossesPolygon (Intersections.mkPt 4 0) (Intersections.mkPt 9 9)
    [Intersections.mkPt 0 0; Intersections.mkPt 4 0; Intersections.mkPt 0 3] = true /\
  forall D : Intersections.Pt,
    Intersections.segSegIntersect (Intersections.mkPt 4 0) (Intersections.mkPt 9 9)
      (Intersections.mkPt 4 0) D = true.
Proof.
  split; [reflexivity |].
  exact (segmentCrossesPolygon_at_vertex (Intersections.mkPt 4 0) (Intersections.mkPt 9 9)
           [Intersections.mkPt 0 0; Intersections.mkPt 4 0; Intersections.mkPt 0 3] 1
           eq_refl).
Defined.


Section SegmentDirection.

Import Intersections.
Local Open Scope Q_scope.

Lemma orientation_reverse (a b c : Pt) :
  orientation b a c
  = match orientation a b c with 0%Z => 0%Z | 1%Z => 2%Z | _ => 1%Z end.
Proof.
  unfold orientation. cbv zeta.
  set (v := (y b - y a) * (x c - x b) - (x b - x a) * (y c - y b)).
  set (v' := (y a - y b) * (x c - x a) - (x a - x b) * (y c - y a)).
  assert (E : v' == - v) by (unfold v, v'; ring).
  assert (Ha : Qabs v' == Qabs v) by (rewrite E; apply Qabs_opp).
  assert (Ht : 0 < tolerance) by reflexivity.
  destruct (Qltb (Qabs v) tolerance) eqn:E1.
  - apply Qltb_true in E1. rewrite <- Ha in E1. apply Qltb_true in E1. rewrite E1.
    reflexivity.
  - apply Qltb_false in E1. pose proof E1 as E1'. rewrite <- Ha in E1'.
    apply Qltb_false in E1'. rewrite E1'.
    assert (Hv : v < 0 \/ 0 < v).
    { destruct (Qlt_le_dec v 0) as [H | H]; [left; exact H |].
      right. rewrite (Qabs_pos v H) in E1. lra. }
    destruct Hv as [Hv | Hv].
    + rewrite (proj2 (Qltb_true 0 v')) by lra.
      rewrite (proj2 (Qltb_false 0 v)) by lra. reflexivity.
    + rewrite (proj2 (Qltb_false 0 v')) by lra.
      rewrite (proj2 (Qltb_true 0 v)) by lra. reflexivity.
Qed.

Lemma orientation_cases (a b c : Pt) :
  orientation a b c = 0%Z \/ orientation a b c = 1%Z \/ orientation a b c = 2%Z.
Proof.
  unfold orientation. cbv zeta.
  destruct (Qltb _ tolerance); [auto |]. destruct (Qltb 0 _); auto.
Qed.

Lemma onSeg_reverse (a b c : Pt) : onSeg c b a = onSeg a b c.
Proof.
  unfold onSeg.
  assert (Hle : forall u v w : Q, u == v -> Qleb u w = Qleb v w).
  { intros u v w E. destruct (Qleb v w) eqn:Ev.
    - apply Qleb_true. apply Qleb_true in Ev. lra.
    - apply Qleb_false. apply Qleb_false in Ev. lra. }
  assert (Hge : forall u v w : Q, u == v -> Qleb w u = Qleb w v).
  { intros u v w E. destruct (Qleb w v) eqn:Ev.
    - apply Qleb_true. apply Qleb_true in Ev. lra.
    - apply Qleb_false. apply Qleb_false in Ev. lra. }
  rewrite (Hle (Qmin (x c) (x a) - tolerance) (Qmin (x a) (x c) - tolerance))
    by (rewrite Q.min_comm; reflexivity).
  rewrite (Hge (Qmax (x c) (x a) + tolerance) (Qmax (x a) (x c) + tolerance))
    by (rewrite Q.max_comm; reflexivity).
  rewrite (Hle (Qmin (y c) (y a) - tolerance) (Qmin (y a) (y c) - tolerance))
    by (rewrite Q.min_comm; reflexivity).
  rewrite (Hge (Qmax (y c) (y a) + tolerance) (Qmax (y a) (y c) + tolerance))
    by (rewrite Q.max_comm; reflexivity).
  reflexivity.
Qed.

(** X21.  [segSegIntersect] depends neither on the order in which the two
    segments are given nor on the direction of either segment, and
    [segmentCrossesPolygon] gives the same answer for a segment and for the
    same segment taken from its other end. *)
Theorem segSegIntersect_symmetric (p p2 q q2 : Pt) (poly : list Pt) :
  segSegIntersect q q2 p p2 = segSegIntersect p p2 q q2 /\
  segSegIntersect p2 p q q2 = segSegIntersect p p2 q q2 /\
  segSegIntersect p p2 q2 q = segSegIntersect p p2 q q2 /\
  segmentCrossesPolygon p2 p poly = segmentCrossesPolygon p p2 poly.
Proof.
  assert (Hfirst : forall a a2 b b2 : Pt,
            segSegIntersect a2 a b b2 = segSegIntersect a a2 b b2).
  { intros a a2 b b2. unfold segSegIntersect. cbv zeta.
    rewrite (orientation_reverse a a2 b), (orientation_reverse a a2 b2).
    rewrite (onSeg_reverse a b a2), (onSeg_reverse a b2 a2).
    destruct (orientation_cases a a2 b) as [-> | [-> | ->]],
             (orientation_cases a a2 b2) as [-> | [-> | ->]],
             (orientation_cases b b2 a) as [-> | [-> | ->]],
             (orientation_cases b b2 a2) as [-> | [-> | ->]];
      simpl;
      destruct (onSeg a b a2), (onSeg a b2 a2), (onSeg b a b2), (onSeg b a2 b2);
      reflexivity. }
  split; [symmetry; apply segSegIntersect_swap_aux |].
  split; [apply Hfirst |]. split.
  - rewrite (segSegIntersect_swap_aux p p2 q2 q), Hfirst,
      (segSegIntersect_swap_aux q q2 p p2).
    reflexivity.
  - unfold segmentCrossesPolygon. cbv zeta.
    induction (seq 0 (length poly)) as [| i l IH]; [reflexivity |].
    simpl. rewrite IH.
    destruct (poly !! i); [| reflexivity].
    destruct (poly !! ((i + 1) mod length poly)%nat); [| reflexivity].
    rewrite Hfirst. reflexivity.
Qed.

End SegmentDirection.


(** ** lines.js: the line under the pointer *)

Section PickingFacts.

Import HexGrid Router Picking.
Local Open Scope R_scope.

Lemma Math_hypot_le (a b c d : R) :
  a * a + b * b <= c * c + d * d -> Math_hypot a b <= Math_hypot c d.
Proof. intros H. unfold Math_hypot. apply sqrt_le_1_alt. exact H. Qed.

Lemma Math_hypot_nonneg (a b : R) : 0 <= Math_hypot a b.
Proof. unfold Math_hypot. apply sqrt_pos. Qed.

Lemma projection_closer (A B C D t : R) :
  let a := A * C + B * D in
  let L := C * C + D * D in
  0 < L -> t = Rmax 0 (Rmin 1 (a / L)) ->
  (A - t * C) * (A - t * C) + (B - t * D) * (B - t * D) <= A * A + B * B /\
  (A - t * C) * (A - t * C) + (B - t * D) * (B - t * D)
  <= (A - C) * (A - C) + (B - D) * (B - D).
Proof.
  intros a L HL Ht.
  assert (Hq : a / L * L = a) by (field; lra).
  set (q := a / L) in *.
  assert (Hexp : (A - t * C) * (A - t * C) + (B - t * D) * (B - t * D)
                 = A * A + B * B - 2 * t * a + t * t * L)
    by (unfold a, L; ring).
  assert (Hexp1 : (A - C) * (A - C) + (B - D) * (B - D) = A * A + B * B - 2 * a + L)
    by (unfold a, L; ring).
  rewrite Hexp, Hexp1.
  unfold Rmax, Rmin in Ht.
  destruct (Rle_dec 1 q) as [H1 | H1]; destruct (Rle_dec 0 _) as [H0 | H0]; subst t.
  - assert (L <= a) by nra. split; nra.
  - exfalso. lra.
  - assert (Hsq : 0 <= q * q * L) by (apply Rmult_le_pos; nra).
    assert (Hsq1 : 0 <= (1 - q) * (1 - q) * L) by (apply Rmult_le_pos; nra).
    assert (Hqa : q * a = q * q * L) by (rewrite <- Hq; ring).
    split; nra.
  - assert (a < 0) by nra. split; nra.
Qed.

(** X22.  [distanceToLineSegment] is never negative and never more than the
    distance from the point to either end of the segment; it is 0 at the
    ends. *)
Theorem distanceToLineSegment_bounds (px py x1 y1 x2 y2 : R) :
  0 <= distanceToLineSegment px py x1 y1 x2 y2 /\
  distanceToLineSegment px py x1 y1 x2 y2 <= Math_hypot (px - x1) (py - y1) /\
  distanceToLineSegment px py x1 y1 x2 y2 <= Math_hypot (px - x2) (py - y2) /\
  distanceToLineSegment x1 y1 x1 y1 x2 y2 = 0 /\
  distanceToLineSegment x2 y2 x1 y1 x2 y2 = 0.
Proof.
  assert (Hbounds : forall p q : R,
            0 <= distanceToLineSegment p q x1 y1 x2 y2 /\
            distanceToLineSegment p q x1 y1 x2 y2 <= Math_hypot (p - x1) (q - y1) /\
            distanceToLineSegment p q x1 y1 x2 y2 <= Math_hypot (p - x2) (q - y2)).
  { intros p q. unfold distanceToLineSegment. cbv zeta.
    destruct (Req_dec_T ((x2 - x1) * (x2 - x1) + (y2 - y1) * (y2 - y1)) 0) as [E | E].
    - pose proof (Rle_0_sqr (x2 - x1)) as Hsx. pose proof (Rle_0_sqr (y2 - y1)) as Hsy.
      unfold Rsqr in Hsx, Hsy.
      assert (Ex : x2 - x1 = 0).
      { assert (H : (x2 - x1) * (x2 - x1) = 0) by lra.
        apply Rmult_integral in H. tauto. }
      assert (Ey : y2 - y1 = 0).
      { assert (H : (y2 - y1) * (y2 - y1) = 0) by lra.
        apply Rmult_integral in H. tauto. }
      split; [apply Math_hypot_nonneg |]. split; [lra |].
      apply Math_hypot_le. replace x2 with x1 by lra. replace y2 with y1 by lra. lra.
    - split; [apply Math_hypot_nonneg |].
      set (t := Rmax 0 (Rmin 1 (((p - x1) * (x2 - x1) + (q - y1) * (y2 - y1))
                                / ((x2 - x1) * (x2 - x1) + (y2 - y1) * (y2 - y1))))).
      destruct (projection_closer (p - x1) (q - y1) (x2 - x1) (y2 - y1) t) as [H1 H2].
      + pose proof (Rle_0_sqr (x2 - x1)) as Hsx. pose proof (Rle_0_sqr (y2 - y1)) as Hsy.
        unfold Rsqr in Hsx, Hsy. lra.
      + reflexivity.
      + split; apply Math_hypot_le.
        * replace (p - (x1 + t * (x2 - x1))) with (p - x1 - t * (x2 - x1)) by ring.
          replace (q - (y1 + t * (y2 - y1))) with (q - y1 - t * (y2 - y1)) by ring.
          exact H1.
        * replace (p - (x1 + t * (x2 - x1))) with (p - x1 - t * (x2 - x1)) by ring.
          replace (q - (y1 + t * (y2 - y1))) with (q - y1 - t * (y2 - y1)) by ring.
          replace (p - x2) with (p - x1 - (x2 - x1)) by ring.
          replace (q - y2) with (q - y1 - (y2 - y1)) by ring.
          exact H2. }
  assert (Hzero : Math_hypot 0 0 = 0).
  { unfold Math_hypot. replace (0 * 0 + 0 * 0) with 0 by ring. apply sqrt_0. }
  destruct (Hbounds px py) as (H0 & H1 & H2).
  split; [exact H0 |]. split; [exact H1 |]. split; [exact H2 |]. split.
  - destruct (Hbounds x1 y1) as (Ha & Hb & _).
    replace (x1 - x1) with 0 in Hb by ring. replace (y1 - y1) with 0 in Hb by ring.
    rewrite Hzero in Hb. lra.
  - destruct (Hbounds x2 y2) as (Ha & _ & Hb).
    replace (x2 - x2) with 0 in Hb by ring. replace (y2 - y2) with 0 in Hb by ring.
    rewrite Hzero in Hb. lra.
Qed.

(** X23.  For a line of two stations or more and the first waypoint of one
    of its waypoint segments, [findStationSegmentForWaypoint] returns the
    index of a station segment of the line: a number from 0 to the number of
    stations less 2. *)
Theorem findStationSegmentForWaypoint_range (line : RLine.t) (waypoints : list Point)
    (waypointIndex : nat) :
  RLine.waypoints line = Some waypoints ->
  (2 <= length (RLine.stations line))%nat ->
  (waypointIndex < length waypoints - 1)%nat ->
  exists seg : Z,
    findStationSegmentForWaypoint line waypointIndex = Some seg /\
    (0 <= seg <= Z.of_nat (length (RLine.stations line)) - 2)%Z.
Proof.
  intros Hw Hst Hwi. unfold findStationSegmentForWaypoint. rewrite Hw. cbv zeta.
  eexists. split; [reflexivity |].
  set (ss := (Z.of_nat (length (RLine.stations line)) - 1)%Z).
  set (ws := (Z.of_nat (length waypoints) - 1)%Z).
  set (wi := Z.of_nat waypointIndex).
  assert (Hss : (1 <= ss)%Z) by (unfold ss; lia).
  assert (Hws : (0 <= wi < ws)%Z) by (unfold wi, ws; lia).
  set (v := (inject_Z wi / inject_Z ws * inject_Z ss)%Q).
  assert (Hv : (0 <= v /\ v < inject_Z ss)%Q).
  { assert (Hwsq : (0 < inject_Z ws)%Q)
      by (change (inject_Z 0 < inject_Z ws)%Q; rewrite <- Zlt_Qlt; lia).
    assert (Hwiq : (0 <= inject_Z wi)%Q)
      by (change (inject_Z 0 <= inject_Z wi)%Q; rewrite <- Zle_Qle; lia).
    assert (Hltq : (inject_Z wi < inject_Z ws)%Q) by (rewrite <- Zlt_Qlt; lia).
    assert (Hssq : (0 < inject_Z ss)%Q)
      by (change (inject_Z 0 < inject_Z ss)%Q; rewrite <- Zlt_Qlt; lia).
    assert (Hr0 : (0 <= inject_Z wi / inject_Z ws)%Q).
    { apply Qle_shift_div_l; [exact Hwsq | lra]. }
    assert (Hr1 : (inject_Z wi / inject_Z ws < 1)%Q).
    { apply Qlt_shift_div_r; [exact Hwsq | lra]. }
    unfold v. split; [apply Qmult_le_0_compat; lra |].
    pose proof (Qmult_lt_compat_r _ _ _ Hssq Hr1) as Hm. lra. }
  unfold Math_floor. destruct Hv as [Hv0 Hv1].
  pose proof (Qfloor_le v) as Hfl. pose proof (Qlt_floor v) as Hfu.
  assert (H1 : (inject_Z (Qfloor v) < inject_Z ss)%Q) by lra.
  assert (H2 : (inject_Z 0 < inject_Z (Qfloor v + 1))%Q) by (change (inject_Z 0) with 0%Q; lra).
  rewrite <- Zlt_Qlt in H1, H2. unfold ss in *. lia.
Qed.

End PickingFacts.


(** ** hexgrid.js: the lattice *)

Section LatticeRoundTrip.

Import HexGrid.
Local Open Scope R_scope.

(** X24.  Snapping is a projection on the lattice: for a cell size other
    than 0, [pixelToCube] always returns cube coordinates that add up to 0,
    a lattice vertex is mapped back to its cube by [pixelToCube], and
    [snapToHexVertex] leaves a snapped point where it is. *)
Theorem snapToHexVertex_idempotent (size : R) :
  size <> 0 ->
  (forall x y : R, valid (pixelToCube x y size)) /\
  (forall c : Cube, valid c ->
     pixelToCube (px (cubeToPixel c size)) (py (cubeToPixel c size)) size = c) /\
  (forall x y : R,
     snapToHexVertex (px (snapToHexVertex x y size)) (py (snapToHexVertex x y size)) size
     = snapToHexVertex x y size).
Proof.
  intros Hsize. split; [intros x y; apply roundCube_valid |].
  split; [intros c Hc; apply pixelToCube_cubeToPixel; assumption |].
  intros x y. unfold snapToHexVertex at 1.
  rewrite (snapToHexVertex_cube x y size Hsize). reflexivity.
Qed.

End LatticeRoundTrip.

Lemma snapToHexVertex_idempotent_witness :
  (44 <> 0)%R /\
  (forall x y : R, HexGrid.valid (HexGrid.pixelToCube x y 44)) /\
  (forall c : HexGrid.Cube, HexGrid.valid c ->
     HexGrid.pixelToCube (HexGrid.px (HexGrid.cubeToPixel c 44))
       (HexGrid.py (HexGrid.cubeToPixel c 44)) 44 = c) /\
  (forall x y : R,
     HexGrid.snapToHexVertex (HexGrid.px (HexGrid.snapToHexVertex x y 44))
       (HexGrid.py (HexGrid.snapToHexVertex x y 44)) 44
     = HexGrid.snapToHexVertex x y 44).
Proof.
  assert (H : (44 <> 0)%R) by lra.
  split; [exact H |]. exact (snapToHexVertex_idempotent 44 H).
Defined.

Section NeighbourFacts.

Import HexGrid.
Local Open Scope Z_scope.

(** X25.  [getHexNeighbors] returns six different cubes; each of them is at
    lattice distance 1 from the cube, has the cube among its own neighbours,
    and is a lattice vertex when the cube is one. *)
Theorem getHexNeighbors_adjacent (c : Cube) :
  length (getHexNeighbors c) = 6%nat /\ NoDup (getHexNeighbors c) /\
  forall nb : Cube, nb ∈ getHexNeighbors c ->
    (hexDistance c nb == 1)%Q /\ c ∈ getHexNeighbors nb /\ (valid c -> valid nb).
Proof.
  split; [reflexivity |]. split.
  - destruct c as [[q r] s]. unfold getHexNeighbors, cq, cr, cs. simpl.
    repeat (apply NoDup_cons; split;
            [rewrite ?elem_of_cons, ?elem_of_nil;
             intros H; repeat destruct H as [H | H]; try (injection H; lia); exact H |]).
    apply NoDup_nil. exact I.
  - intros nb Hnb. split; [| split].
    + apply neighbor_elem in Hnb. destruct Hnb as (d & Hd & ->).
      destruct c as [[q r] s]. unfold hexDistance, cq, cr, cs.
      elem_cases Hd; simpl;
        match goal with
        | |- (inject_Z ?z / 2 == 1)%Q =>
            replace z with 2%Z by lia; reflexivity
        end.
    + apply neighbor_elem in Hnb. destruct Hnb as (d & Hd & ->).
      apply neighbor_elem. exists (- cq d, - cr d, - cs d). split.
      * elem_cases Hd; apply list_elem_of_In; simpl; tauto.
      * destruct c as [[q r] s], d as [[dq dr] ds]. unfold cq, cr, cs. simpl.
        f_equal; [f_equal |]; lia.
    + intros Hc. exact (neighbor_valid c nb Hc Hnb).
Qed.

End NeighbourFacts.


(** ** hexgrid.js: paths, bundling and terminal bubbles *)

Section PathShape.

Import HexGrid Router.
Local Open Scope R_scope.

Let noRepeat (l : list Point) : Prop :=
  forall (i : nat) (a b : Point), l !! i = Some a -> l !! S i = Some b -> a <> b.

Lemma noRepeat_snoc (out : list Point) (p : Point) :
  noRepeat out -> last out <> Some p -> noRepeat (out ++ [p]).
Proof.
  intros Hout Hlast i a b Ha Hb.
  destruct (decide (S i < length out)%nat) as [Hlt | Hge].
  - rewrite lookup_app_l in Ha by lia. rewrite lookup_app_l in Hb by lia.
    exact (Hout i a b Ha Hb).
  - assert (Hi : S i = length out).
    { apply lookup_lt_Some in Hb. rewrite length_app in Hb. simpl in Hb. lia. }
    rewrite lookup_app_l in Ha by lia.
    rewrite lookup_app_r in Hb by lia.
    rewrite Hi, Nat.sub_diag in Hb. injection Hb as <-.
    intros ->. apply Hlast. rewrite last_lookup.
    replace (Nat.pred (length out)) with i by lia. exact Ha.
Qed.

Lemma dedup_noRepeat (l out : list Point) :
  noRepeat out -> noRepeat (fold_left dedup_step l out).
Proof.
  revert out. induction l as [| p l IH]; intros out Hout; [exact Hout |].
  simpl. apply IH. unfold dedup_step. rewrite last_map_Some.
  destruct (last out) as [l0 |] eqn:El.
  - destruct (Point_eq_dec l0 p) as [-> | Hd]; [exact Hout |].
    apply noRepeat_snoc; [exact Hout |]. rewrite El. congruence.
  - apply noRepeat_snoc; [exact Hout |]. rewrite El. discriminate.
Qed.

Lemma reconstruct_nonempty (fuel : nat) :
  forall (cameFrom : gmap Cube Cube) (cur : Cube) (acc pathCubes : list Cube),
    reconstruct fuel cameFrom cur acc = Some pathCubes -> acc <> [] -> pathCubes <> [].
Proof.
  induction fuel as [| fuel IH]; intros cameFrom cur acc p H Hacc; [discriminate |].
  simpl in H. destruct (cameFrom !! cur) as [prev |].
  - apply (IH _ _ _ _ H). discriminate.
  - injection H as <-. exact Hacc.
Qed.

Lemma searchLoop_nonempty (goal : Cube) (fuel : nat) :
  forall (rfuel : nat) (st : Search) (pathCubes : list Cube),
    searchLoop fuel rfuel goal st = Some (Some pathCubes) -> pathCubes <> [].
Proof.
  induction fuel as [| fuel IH]; intros rfuel st p H; [discriminate |].
  cbn [searchLoop] in H. destruct (open st !! lowest st) as [c |]; [| discriminate].
  destruct (Qltb (hexDistance c goal) 1).
  - destruct (reconstruct rfuel (came (popped st c)) c [c]) as [p' |] eqn:Er;
      [| discriminate].
    injection H as <-. apply (reconstruct_nonempty _ _ _ _ _ Er). discriminate.
  - exact (IH _ _ _ H).
Qed.

(** X26.  A path returned by [createHexPath] never has the same point twice
    in a row. *)
Theorem createHexPath_no_repeated_point (fuel : nat) (ax ay bx by_ size : R)
    (path : list Point) :
  createHexPath fuel ax ay bx by_ size = Some path ->
  forall (i : nat) (a b : Point), path !! i = Some a -> path !! S i = Some b -> a <> b.
Proof.
  unfold createHexPath, hexAStar. cbv zeta.
  destruct (searchLoop fuel fuel _ _) as [[pc |] |] eqn:Es; [| | discriminate].
  - pose proof (searchLoop_nonempty _ _ _ _ _ Es) as Hne.
    destruct pc as [| c0 pc]; [contradiction |].
    cbn [map length Nat.eqb]. intros H. injection H as <-.
    apply dedup_noRepeat. intros i a b Ha. discriminate.
  - cbn [length Nat.eqb]. intros H. injection H as <-.
    refine (dedup_noRepeat [_; _] [] _). intros i a b Ha. discriminate.
Qed.

End PathShape.

Lemma createHexPath_no_repeated_point_witness :
  HexGrid.createHexPath 10 0 0 132 0 44
  = Some [HexGrid.mkPoint 0 0; HexGrid.cubeToPixel (1, -1, 0)%Z 44; HexGrid.mkPoint 132 0] /\
  forall (i : nat) (a b : HexGrid.Point),
    [HexGrid.mkPoint 0 0; HexGrid.cubeToPixel (1, -1, 0)%Z 44; HexGrid.mkPoint 132 0] !! i
    = Some a ->
    [HexGrid.mkPoint 0 0; HexGrid.cubeToPixel (1, -1, 0)%Z 44; HexGrid.mkPoint 132 0] !! S i
    = Some b ->
    a <> b.
Proof.
  pose proof createHexPath_three_points as H.
  split; [exact H |].
  exact (createHexPath_no_repeated_point 10 0 0 132 0 44
           [HexGrid.mkPoint 0 0; HexGrid.cubeToPixel (1, -1, 0)%Z 44; HexGrid.mkPoint 132 0]
           H).
Defined.

Section BundlingShape.

Import HexGrid Router.
Local Open Scope R_scope.

Lemma flat_map_seq_snoc (A : Type) (f : nat -> list A) (a m : nat) :
  flat_map f (seq a (S m)) = flat_map f (seq a m) ++ f (a + m)%nat.
Proof.
  rewrite seq_S, flat_map_app. simpl. rewrite app_nil_r. reflexivity.
Qed.

Lemma flat_map_singletons (A : Type) (f : nat -> list A) (a m : nat) :
  (forall i : nat, (a <= i < a + m)%nat -> length (f i) = 1%nat) ->
  length (flat_map f (seq a m)) = m.
Proof.
  revert a. induction m as [| m IH]; intros a H; [reflexivity |].
  simpl. rewrite length_app, (H a) by lia. rewrite IH; [reflexivity |].
  intros i Hi. apply H. lia.
Qed.

Lemma findParallelSegments_none (segStart segEnd : Point) (existing : list RLine.t)
    (bundleThreshold angleCosThr : R) :
  (forall (l : RLine.t) (pts : list Point),
     l ∈ existing -> RLine.waypoints l = Some pts -> (length pts < 2)%nat) ->
  findParallelSegments segStart segEnd existing bundleThreshold angleCosThr = [].
Proof.
  intros H. unfold findParallelSegments. cbv zeta.
  induction existing as [| l existing IH]; [reflexivity |].
  cbn [flat_map]. rewrite IH by (intros l' pts Hl; apply H; right; exact Hl).
  rewrite app_nil_r.
  destruct (RLine.waypoints l) as [pts |] eqn:Ew; [| reflexivity].
  assert (Hlt : (length pts < 2)%nat) by (apply (H l pts); [left | exact Ew]).
  destruct (2 <=? length pts)%nat eqn:E; [apply Nat.leb_le in E; lia | reflexivity].
Qed.

Lemma unbundled_path (full pre rest : list Point) :
  full = pre ++ rest -> (2 <= length rest)%nat ->
  flat_map
    (fun i =>
       match full !! i, full !! S i with
       | Some segStart, Some segEnd =>
           segStart :: (if (i =? length full - 2)%nat then [segEnd] else [])
       | _, _ => []
       end) (seq (length pre) (length rest - 1))
  = rest.
Proof.
  revert pre. induction rest as [| a rest IH]; intros pre Hfull Hlen; [simpl in Hlen; lia |].
  destruct rest as [| b rest]; [simpl in Hlen; lia |].
  replace (length (a :: b :: rest) - 1)%nat with (S (length rest)) by (simpl; lia).
  cbn [seq flat_map].
  assert (Ha : full !! length pre = Some a).
  { rewrite Hfull, lookup_app_r by lia. rewrite Nat.sub_diag. reflexivity. }
  assert (Hb : full !! S (length pre) = Some b).
  { rewrite Hfull, lookup_app_r by lia.
    replace (S (length pre) - length pre)%nat with 1%nat by lia. reflexivity. }
  rewrite Ha, Hb.
  assert (Hn : length full = (length pre + S (S (length rest)))%nat)
    by (rewrite Hfull, length_app; reflexivity).
  destruct rest as [| c rest].
  - simpl in Hn. simpl.
    replace (length full - 2)%nat with (length pre) by lia.
    rewrite Nat.eqb_refl. reflexivity.
  - assert (Hne : (length pre =? length full - 2)%nat = false).
    { apply Nat.eqb_neq. simpl in Hn. lia. }
    rewrite Hne. cbn [app]. f_equal.
    specialize (IH (pre ++ [a])).
    rewrite length_app in IH. cbn [length] in IH.
    replace (length pre + 1)%nat with (S (length pre)) in IH by lia.
    replace (S (S (length rest)) - 1)%nat with (S (length rest)) in IH by lia.
    apply IH; [| simpl; lia].
    rewrite Hfull, <- app_assoc. reflexivity.
Qed.

(** X27.  [applyCorridorBundling] returns as many points as it is given, and
    it returns the path itself when no line of another id has two waypoints
    or more. *)
Theorem applyCorridorBundling_shape (path : list Point) (g : RGame.t) (line : RLine.t) :
  length (applyCorridorBundling path g line) = length path /\
  ((forall (l : RLine.t) (pts : list Point),
      l ∈ RGame.lines g -> RLine.id l <> RLine.id line ->
      RLine.waypoints l = Some pts -> (length pts < 2)%nat) ->
   applyCorridorBundling path g line = path).
Proof.
  unfold applyCorridorBundling.
  destruct (length path <? 2)%nat eqn:E; [auto |].
  apply Nat.ltb_ge in E. cbv zeta. split.
  - destruct (length path) as [| [| m]] eqn:En; [lia | lia |].
    replace (S (S m) - 1)%nat with (S m) by lia.
    replace (S (S m) - 2)%nat with m by lia.
    rewrite flat_map_seq_snoc, length_app.
    rewrite flat_map_singletons.
    + cbn [Nat.add].
      assert (Hm : is_Some (path !! m)) by (apply lookup_lt_is_Some_2; lia).
      assert (Hm1 : is_Some (path !! S m)) by (apply lookup_lt_is_Some_2; lia).
      destruct Hm as [a Ha], Hm1 as [b Hb]. rewrite Ha, Hb, Nat.eqb_refl.
      destruct (0 <? length _)%nat; simpl; lia.
    + intros i Hi.
      assert (Hm : is_Some (path !! i)) by (apply lookup_lt_is_Some_2; lia).
      assert (Hm1 : is_Some (path !! S i)) by (apply lookup_lt_is_Some_2; lia).
      destruct Hm as [a Ha], Hm1 as [b Hb]. rewrite Ha, Hb.
      assert (Hne : (i =? m)%nat = false) by (apply Nat.eqb_neq; lia).
      rewrite Hne. destruct (0 <? length _)%nat; reflexivity.
  - intros Hother.
    assert (Hnone : forall (s e : Point) (bt ac : R),
              findParallelSegments s e
                (List.filter (fun l => negb (RLine.id l =? RLine.id line)%nat) (RGame.lines g))
                bt ac = []).
    { intros s e bt ac. apply findParallelSegments_none.
      intros l pts Hl Hw. apply list_elem_of_In, List.filter_In in Hl.
      destruct Hl as [Hl Hid]. apply negb_true_iff, Nat.eqb_neq in Hid.
      apply (Hother l pts); [apply list_elem_of_In; exact Hl | exact Hid | exact Hw]. }
    pose proof (unbundled_path path [] path eq_refl E) as Hp. cbn [length] in Hp.
    etransitivity; [| exact Hp].
    apply flat_map_ext. intros i.
    destruct (path !! i) as [a |]; [| reflexivity].
    destruct (path !! S i) as [b |]; [| reflexivity].
    rewrite Hnone. reflexivity.
Qed.

Lemma spliceIn_ends (i : nat) (p : Point) (out : list Point) :
  (1 <= i < length out)%nat ->
  head (spliceIn i p out) = head out /\ last (spliceIn i p out) = last out /\
  length (spliceIn i p out) = S (length out).
Proof.
  intros Hi. unfold spliceIn. split; [| split].
  - destruct out as [| a out]; [simpl in Hi; lia |].
    destruct i as [| i]; [lia |]. reflexivity.
  - rewrite <- (take_drop i out) at 3. rewrite !last_app.
    assert (Hd : drop i out <> []).
    { intros E. apply (f_equal length) in E. rewrite length_drop in E. simpl in E. lia. }
    rewrite list.last_cons.
    destruct (last (drop i out)) as [z |] eqn:El; [reflexivity |].
    apply last_None in El. contradiction.
  - rewrite length_app. simpl. rewrite length_take, length_drop. lia.
Qed.

(** X28.  [applyTerminalBubbles] keeps the first and the last point of the
    path; to a path of two points or more it adds one point for the start
    station when that is an interchange or a final, and one for the end
    station when that is one; a shorter path is returned as it is. *)
Theorem applyTerminalBubbles_ends (path : list Point)
    (startStation endStation : option RStation.t) (g : RGame.t) :
  head (applyTerminalBubbles path startStation endStation g) = head path /\
  last (applyTerminalBubbles path startStation endStation g) = last path /\
  length (applyTerminalBubbles path startStation endStation g)
  = (length path
     + (if (length path <? 2)%nat then 0
        else (if isHubStation startStation then 1 else 0)
             + (if isHubStation endStation then 1 else 0)))%nat.
Proof.
  unfold applyTerminalBubbles.
  destruct (length path <? 2)%nat eqn:E; [rewrite Nat.add_0_r; auto |].
  apply Nat.ltb_ge in E. cbv zeta.
  set (out1 := match startStation, path !! 1%nat with
               | Some s, Some next =>
                   if isHubStation startStation then spliceIn 1 _ path else path
               | _, _ => path
               end).
  assert (H1 : head out1 = head path /\ last out1 = last path /\
               length out1 = (length path + if isHubStation startStation then 1 else 0)%nat).
  { unfold out1. destruct startStation as [s |]; [| simpl; rewrite Nat.add_0_r; auto].
    assert (Hn : is_Some (path !! 1%nat)) by (apply lookup_lt_is_Some_2; lia).
    destruct Hn as [next Hn]. rewrite Hn.
    destruct (isHubStation (Some s)); [| rewrite Nat.add_0_r; auto].
    match goal with
    | |- context [spliceIn 1 ?p path] =>
        destruct (spliceIn_ends 1 p path ltac:(lia)) as (A & B & C)
    end.
    rewrite A, B, C. split; [reflexivity |]. split; [reflexivity | lia]. }
  destruct H1 as (Hh & Hl & Hn). fold out1.
  assert (Hlen1 : (2 <= length out1)%nat) by (rewrite Hn; lia).
  destruct endStation as [e |]; [| simpl; rewrite Hh, Hl, Hn; split; [| split]; auto; lia].
  assert (Hp : is_Some (out1 !! (length out1 - 2)%nat)) by (apply lookup_lt_is_Some_2; lia).
  destruct Hp as [prev Hp]. rewrite Hp.
  destruct (isHubStation (Some e)).
  - match goal with
    | |- context [spliceIn (length out1 - 1) ?p out1] =>
        destruct (spliceIn_ends (length out1 - 1) p out1 ltac:(lia)) as (A & B & C)
    end.
    rewrite A, B, C, Hh, Hl, Hn. split; [reflexivity |]. split; [reflexivity | lia].
  - rewrite Hh, Hl, Hn. split; [reflexivity |]. split; [reflexivity | lia].
Qed.

(** X29.  [vnorm] never divides by zero: it maps the zero vector to itself
    and every other vector to a vector of length 1. *)
Theorem vnorm_unit (v : Point) :
  (px v = 0 /\ py v = 0 -> vnorm v = mkPoint 0 0) /\
  (px v <> 0 \/ py v <> 0 -> Math_hypot (px (vnorm v)) (py (vnorm v)) = 1).
Proof.
  unfold vnorm, vlen, Math_hypot. cbv zeta. split.
  - intros [-> ->]. replace (0 * 0 + 0 * 0) with 0 by ring. rewrite sqrt_0.
    destruct (Req_dec_T 0 0) as [_ | H]; [| contradiction]. simpl. f_equal; field.
  - intros Hv.
    assert (Hs : 0 < px v * px v + py v * py v).
    { pose proof (Rle_0_sqr (px v)) as Hx. pose proof (Rle_0_sqr (py v)) as Hy.
      unfold Rsqr in Hx, Hy.
      destruct Hv as [Hv | Hv].
      - assert (0 < px v * px v) by (apply Rsqr_pos_lt in Hv; exact Hv). lra.
      - assert (0 < py v * py v) by (apply Rsqr_pos_lt in Hv; exact Hv). lra. }
    remember (px v * px v + py v * py v) as s eqn:Es.
    assert (Hl : 0 < sqrt s) by (apply sqrt_lt_R0; exact Hs).
    assert (Hne : sqrt s <> 0) by (intros H0; rewrite H0 in Hl; lra).
    destruct (Req_dec_T (sqrt s) 0) as [E | _]; [contradiction |]. simpl.
    replace (px v / sqrt s * (px v / sqrt s) + py v / sqrt s * (py v / sqrt s))
      with ((px v * px v + py v * py v) / (sqrt s * sqrt s)) by (field; exact Hne).
    rewrite sqrt_sqrt by lra. rewrite <- Es.
    replace (s / s) with 1 by (field; lra). apply sqrt_1.
Qed.

End BundlingShape.


(** ** hexgrid.js: the search returns a shortest lattice path *)

Section ShortestPath.

Import HexGrid.
Local Open Scope Z_scope.

Variables start goal : Cube.
Hypothesis start_valid : valid start.
Hypothesis goal_valid : valid goal.

Let chain (l : list Cube) : Prop :=
  forall (i : nat) (a b : Cube), l !! i = Some a -> l !! S i = Some b ->
    b ∈ getHexNeighbors a.

Let cameAdjacent (st : Search) : Prop :=
  forall n m : Cube, came st !! n = Some m -> n ∈ getHexNeighbors m.

Lemma visit_cameAdjacent (st : Search) (c nb : Cube) :
  cameAdjacent st -> nb ∈ getHexNeighbors c -> cameAdjacent (visit goal c st nb).
Proof.
  intros Hadj Hnb. unfold visit.
  destruct (gScore st !! c) as [gc |]; [| exact Hadj].
  cbv zeta. destruct (improves (gc + 1) (gScore st !! nb)); [| exact Hadj].
  intros n m. simpl. intros H.
  destruct (decide (nb = n)) as [<- | Hne].
  - rewrite lookup_insert_eq in H. injection H as <-. exact Hnb.
  - rewrite lookup_insert_ne in H by exact Hne. exact (Hadj n m H).
Qed.

Lemma visit_all_cameAdjacent (todo : list Cube) (st : Search) (c : Cube) :
  (forall nb : Cube, nb ∈ todo -> nb ∈ getHexNeighbors c) ->
  cameAdjacent st -> cameAdjacent (fold_left (visit goal c) todo st).
Proof.
  revert st. induction todo as [| nb todo IH]; intros st Hsub Hadj; [exact Hadj |].
  simpl. apply IH.
  - intros x Hx. apply Hsub. right. exact Hx.
  - apply visit_cameAdjacent; [exact Hadj |]. apply Hsub. left.
Qed.

Lemma reconstruct_chain (cameFrom : gmap Cube Cube) (fuel : nat) :
  (forall n m : Cube, cameFrom !! n = Some m -> n ∈ getHexNeighbors m) ->
  forall (cur : Cube) (acc pathCubes : list Cube),
    reconstruct fuel cameFrom cur acc = Some pathCubes ->
    head acc = Some cur -> chain acc -> chain pathCubes.
Proof.
  intros Hadj. induction fuel as [| fuel IH]; intros cur acc p H Hhead Hacc; [discriminate |].
  simpl in H. destruct (cameFrom !! cur) as [prev |] eqn:Ec.
  - apply (IH prev (prev :: acc) p H); [reflexivity |].
    intros i a b Ha Hb. destruct i as [| i].
    + simpl in Ha, Hb. injection Ha as <-.
      destruct acc as [| x acc]; [discriminate |].
      simpl in Hhead, Hb. injection Hhead as ->. injection Hb as <-.
      exact (Hadj cur prev Ec).
    + exact (Hacc i a b Ha Hb).
  - injection H as <-. exact Hacc.
Qed.

Lemma reconstruct_length (st : Search) :
  search_inv start goal None st ->
  forall (fuel : nat) (cur : Cube) (v : Z) (acc pathCubes : list Cube),
    gScore st !! cur = Some v ->
    reconstruct fuel (came st) cur acc = Some pathCubes ->
    Z.of_nat (length pathCubes) <= Z.of_nat (length acc) + v.
Proof.
  intros Hinv. induction fuel as [| fuel IH]; intros cur v acc p Hg H; [discriminate |].
  simpl in H. destruct (came st !! cur) as [prev |] eqn:Ec.
  - destruct (si_came _ _ _ _ Hinv cur prev Ec) as (vn & vm & Hvn & Hvm & Hlt).
    rewrite Hg in Hvn. injection Hvn as <-.
    pose proof (IH prev vm (prev :: acc) p Hvm H) as Hle. simpl length in Hle. lia.
  - injection H as <-. destruct (si_range _ _ _ _ Hinv cur v Hg) as [Hr _]. lia.
Qed.

Lemma neighbor_step (n nb t : Cube) :
  nb ∈ getHexNeighbors n -> hexSteps n t <= hexSteps nb t + 1.
Proof.
  intros H. apply neighbor_elem in H. destruct H as (d & Hd & ->).
  unfold hexSteps. destruct n as [[q r] s], t as [[tq tr] ts]. unfold cq, cr, cs.
  assert (Hsum : forall dq dr ds : Z,
            Z.abs dq + Z.abs dr + Z.abs ds <= 2 ->
            Z.abs (q - tq) + Z.abs (r - tr) + Z.abs (s - ts)
            <= Z.abs (q + dq - tq) + Z.abs (r + dr - tr) + Z.abs (s + ds - ts) + 1 * 2)
    by (intros; lia).
  assert (Hdiv : forall a b : Z, a <= b + 1 * 2 -> a / 2 <= b / 2 + 1).
  { intros a b Hab. rewrite <- Z.div_add by lia. apply Z.div_le_mono; lia. }
  apply Hdiv. elem_cases Hd; simpl; apply Hsum; simpl; lia.
Qed.

Lemma chain_distance (l : list Cube) :
  chain l -> forall a b : Cube, head l = Some a -> last l = Some b ->
  hexSteps a b <= Z.of_nat (length l) - 1.
Proof.
  induction l as [| x l IH]; intros Hc a b Ha Hb; [discriminate |].
  simpl in Ha. injection Ha as ->.
  destruct l as [| y l].
  - simpl in Hb. injection Hb as ->. rewrite hexSteps_self. simpl. lia.
  - assert (Hy : y ∈ getHexNeighbors a) by (apply (Hc 0%nat a y); reflexivity).
    assert (Hc' : chain (y :: l)) by (intros i u w Hu Hw; exact (Hc (S i) u w Hu Hw)).
    pose proof (IH Hc' y b eq_refl Hb) as Hle.
    pose proof (neighbor_step a y b Hy) as Hs.
    simpl length in *. lia.
Qed.

Lemma searchLoop_chain (rfuel fuel : nat) :
  forall (st : Search) (pathCubes : list Cube),
    search_inv start goal None st -> cameAdjacent st ->
    searchLoop fuel rfuel goal st = Some (Some pathCubes) ->
    chain pathCubes /\ Z.of_nat (length pathCubes) <= hexSteps start goal + 1.
Proof.
  induction fuel as [| fuel IH]; intros st p Hinv Hadj H; [discriminate |].
  destruct (popped_bound start goal goal_valid st Hinv)
    as (c & gc & Hlow & Hgc & Hle & Hgc0 & Hv & Hin).
  pose proof (hexSteps_nonneg c goal) as Hh.
  cbn [searchLoop] in H. rewrite Hlow in H.
  destruct (Qltb (hexDistance c goal) 1) eqn:Etest.
  - destruct (reconstruct rfuel (came (popped st c)) c [c]) as [p' |] eqn:Er;
      [| discriminate].
    injection H as <-. cbn [popped came] in Er. split.
    + apply (reconstruct_chain (came st) rfuel Hadj c [c] p' Er eq_refl).
      intros i a b Ha Hb. destruct i; discriminate.
    + pose proof (reconstruct_length st Hinv rfuel c gc [c] p' Hgc Er) as Hlen.
      simpl length in Hlen. lia.
  - assert (Hne : c <> goal).
    { intros ->. rewrite (proj2 (goal_test goal goal goal_valid goal_valid) eq_refl) in Etest.
      discriminate. }
    refine (IH _ p _ _ H).
    + apply (expand_inv start goal goal_valid st c gc); try assumption. lia.
    + apply visit_all_cameAdjacent; [auto |]. exact Hadj.
Qed.

Lemma searchLoop_shortest :
  exists (fuel0 : nat) (pathCubes : list Cube),
    (forall fuel : nat, (fuel0 <= fuel)%nat ->
       searchLoop fuel fuel goal (initialSearch start goal) = Some (Some pathCubes)) /\
    head pathCubes = Some start /\ last pathCubes = Some goal /\
    (forall (i : nat) (a b : Cube), pathCubes !! i = Some a -> pathCubes !! S i = Some b ->
       b ∈ getHexNeighbors a) /\
    Z.of_nat (length pathCubes) = hexSteps start goal + 1.
Proof.
  set (fuel0 := S (potential start goal (initialSearch start goal)
                   + Z.to_nat (hexSteps start goal))).
  pose proof (hexSteps_nonneg start goal) as HD.
  destruct (searchLoop_total start goal goal_valid fuel0 ltac:(lia) fuel0
              (initialSearch start goal)
              (initialSearch_inv start goal start_valid goal_valid) ltac:(lia))
    as (p & Hloop & Hhead & Hlast).
  destruct (searchLoop_chain fuel0 fuel0 (initialSearch start goal) p
              (initialSearch_inv start goal start_valid goal_valid)) as [Hc Hlen].
  { intros n m H. simpl in H. rewrite lookup_empty in H. discriminate. }
  { exact Hloop. }
  exists fuel0, p. split.
  - intros fuel Hfuel. apply (searchLoop_mono goal fuel0 fuel0 _ _ Hloop); assumption.
  - split; [exact Hhead |]. split; [exact Hlast |]. split; [exact Hc |].
    pose proof (chain_distance p Hc start goal Hhead Hlast). lia.
Qed.

End ShortestPath.

Section ShortestPathWorld.

Import HexGrid.
Local Open Scope R_scope.

(** X30.  For a positive cell size [hexAStar] returns (once its loop is
    given enough steps, and whatever more it is given) the world points of a
    shortest lattice path from the cube of its start point to the cube of
    its end point: consecutive cubes are neighbours, and the cubes are one
    more than the lattice distance between the two ends. *)
Theorem hexAStar_shortest (startWorld endWorld : Point) (size : R) :
  0 < size ->
  exists (fuel0 : nat) (pathCubes : list Cube),
    (forall fuel : nat, (fuel0 <= fuel)%nat ->
       hexAStar fuel startWorld endWorld size
       = Some (map (fun c => cubeToPixel c size) pathCubes)) /\
    head pathCubes = Some (pixelToCube (px startWorld) (py startWorld) size) /\
    last pathCubes = Some (pixelToCube (px endWorld) (py endWorld) size) /\
    (forall (i : nat) (a b : Cube), pathCubes !! i = Some a -> pathCubes !! S i = Some b ->
       b ∈ getHexNeighbors a) /\
    Z.of_nat (length pathCubes)
    = (hexSteps (pixelToCube (px startWorld) (py startWorld) size)
                (pixelToCube (px endWorld) (py endWorld) size) + 1)%Z.
Proof.
  intros _.
  destruct (searchLoop_shortest (pixelToCube (px startWorld) (py startWorld) size)
              (pixelToCube (px endWorld) (py endWorld) size)
              (roundCube_valid _ _ _) (roundCube_valid _ _ _))
    as (fuel0 & p & Hloop & Hh & Hl & Hc & Hlen).
  exists fuel0, p. split; [| auto].
  intros fuel Hfuel. unfold hexAStar. cbv zeta. rewrite (Hloop fuel Hfuel). reflexivity.
Qed.

End ShortestPathWorld.

Lemma hexAStar_shortest_witness :
  (0 < 44)%R /\
  exists (fuel0 : nat) (pathCubes : list HexGrid.Cube),
    (forall fuel : nat, (fuel0 <= fuel)%nat ->
       HexGrid.hexAStar fuel (HexGrid.mkPoint 0 0) (HexGrid.mkPoint 300 100) 44
       = Some (map (fun c => HexGrid.cubeToPixel c 44) pathCubes)) /\
    head pathCubes
    = Some (HexGrid.pixelToCube (HexGrid.px (HexGrid.mkPoint 0 0))
                                (HexGrid.py (HexGrid.mkPoint 0 0)) 44) /\
    last pathCubes
    = Some (HexGrid.pixelToCube (HexGrid.px (HexGrid.mkPoint 300 100))
                                (HexGrid.py (HexGrid.mkPoint 300 100)) 44) /\
    (forall (i : nat) (a b : HexGrid.Cube),
       pathCubes !! i = Some a -> pathCubes !! S i = Some b ->
       b ∈ HexGrid.getHexNeighbors a) /\
    Z.of_nat (length pathCubes)
    = (HexGrid.hexSteps
         (HexGrid.pixelToCube (HexGrid.px (HexGrid.mkPoint 0 0))
                              (HexGrid.py (HexGrid.mkPoint 0 0)) 44)
         (HexGrid.pixelToCube (HexGrid.px (HexGrid.mkPoint 300 100))
                              (HexGrid.py (HexGrid.mkPoint 300 100)) 44) + 1)%Z.
Proof.
  assert (H : (0 < 44)%R) by lra.
  split; [exact H |].
  exact (hexAStar_shortest (HexGrid.mkPoint 0 0) (HexGrid.mkPoint 300 100) 44 H).
Defined.

(** * The further properties at concrete inputs *)

Lemma handleStationArrival_conserves_witness :
  Game.trains MoreExamples.gameWide !! 0%nat = Some MoreExamples.trainWide /\
  Game.stations MoreExamples.gameWide !! 1%nat = Some MoreExamples.stationWideB /\
  Game.lines MoreExamples.gameWide !! Train.lineId MoreExamples.trainWide
  = Some MoreExamples.lineWide /\
  exists (train' : Train.t) (station' : Station.t),
    Game.trains (handleStationArrival Examples.hypotQ MoreExamples.gameWide 0 1) !! 0%nat
    = Some train' /\
    Game.stations (handleStationArrival Examples.hypotQ MoreExamples.gameWide 0 1) !! 1%nat
    = Some station' /\
    (length (Train.passengers train') + length (Station.queue station')
     + length (List.filter
                 (fun p => Passenger.destStation p =? Station.id MoreExamples.stationWideB)
                 (Train.passengers MoreExamples.trainWide))
     = length (Train.passengers MoreExamples.trainWide)
       + length (Station.queue MoreExamples.stationWideB))%nat.
Proof.
  split; [reflexivity |]. split; [reflexivity |]. split; [reflexivity |].
  exact (handleStationArrival_conserves Examples.hypotQ MoreExamples.gameWide 0 1
           MoreExamples.trainWide MoreExamples.stationWideB MoreExamples.lineWide
           eq_refl eq_refl eq_refl).
Defined.

Lemma handleStationArrival_room_left_witness :
  Game.trains MoreExamples.gameWide !! 0%nat = Some MoreExamples.trainWide /\
  Game.stations MoreExamples.gameWide !! 1%nat = Some MoreExamples.stationWideB /\
  Game.lines MoreExamples.gameWide !! Train.lineId MoreExamples.trainWide
  = Some MoreExamples.lineWide /\
  (2 <= length (Line.stations MoreExamples.lineWide))%nat /\
  Game.trains (handleStationArrival Examples.hypotQ MoreExamples.gameWide 0 1) !! 0%nat
  = Some MoreExamples.trainWideAfter /\
  Game.stations (handleStationArrival Examples.hypotQ MoreExamples.gameWide 0 1) !! 1%nat
  = Some MoreExamples.stationWideAfter /\
  (Z.of_nat (length (Train.passengers MoreExamples.trainWideAfter))
   < Train.capacity MoreExamples.trainWideAfter)%Z /\
  forall p : Passenger.t, p ∈ Station.queue MoreExamples.stationWideAfter ->
    Passenger.destStation p ∈ Line.stations MoreExamples.lineWide ->
    (Game.gameTime MoreExamples.gameWide < or_default (Passenger.transferReadyAt p) 0)%Q.
Proof.
  assert (Hlen : (2 <= length (Line.stations MoreExamples.lineWide))%nat) by (simpl; lia).
  assert (Htrain : Game.trains (handleStationArrival Examples.hypotQ MoreExamples.gameWide 0 1)
                   !! 0%nat = Some MoreExamples.trainWideAfter)
    by (vm_compute; reflexivity).
  assert (Hstation : Game.stations (handleStationArrival Examples.hypotQ MoreExamples.gameWide 0 1)
                     !! 1%nat = Some MoreExamples.stationWideAfter)
    by (vm_compute; reflexivity).
  assert (Hroom : (Z.of_nat (length (Train.passengers MoreExamples.trainWideAfter))
                   < Train.capacity MoreExamples.trainWideAfter)%Z)
    by (simpl; lia).
  split; [reflexivity |]. split; [reflexivity |]. split; [reflexivity |].
  split; [exact Hlen |]. split; [exact Htrain |]. split; [exact Hstation |].
  split; [exact Hroom |].
  exact (handleStationArrival_room_left Examples.hypotQ MoreExamples.gameWide 0 1
           MoreExamples.trainWide MoreExamples.trainWideAfter
           MoreExamples.stationWideB MoreExamples.stationWideAfter MoreExamples.lineWide
           eq_refl eq_refl eq_refl Hlen Htrain Hstation Hroom).
Defined.

Lemma updateTrains_dwelling_train_stays_witness :
  Game.trains MoreExamples.gameDwelling !! 0%nat = Some MoreExamples.trainDwelling /\
  (0 < Train.dwellRemaining MoreExamples.trainDwelling)%Q /\
  (50 < Train.dwellRemaining MoreExamples.trainDwelling)%Q /\
  exists tr' : Train.t,
    Game.trains (updateTrains Examples.hypotQ MoreExamples.gameDwelling 50) !! 0%nat
    = Some tr' /\
    Train.position tr' = Train.position MoreExamples.trainDwelling /\
    Train.direction tr' = Train.direction MoreExamples.trainDwelling /\
    Train.passengers tr' = Train.passengers MoreExamples.trainDwelling /\
    Train.lastStationVisited tr' = Train.lastStationVisited MoreExamples.trainDwelling.
Proof.
  assert (H0 : (0 < Train.dwellRemaining MoreExamples.trainDwelling)%Q) by reflexivity.
  assert (H1 : (50 < Train.dwellRemaining MoreExamples.trainDwelling)%Q) by reflexivity.
  split; [reflexivity |]. split; [exact H0 |]. split; [exact H1 |].
  exact (updateTrains_dwelling_train_stays Examples.hypotQ 50 MoreExamples.gameDwelling 0
           MoreExamples.trainDwelling eq_refl H0 H1).
Defined.

Lemma spawnPassenger_keeps_room_witness :
  (exists (i : nat) (s : Station.t),
     Game.stations Examples.gameABC !! i = Some s /\
     (Z.of_nat (length (Station.queue s)) < dynamicCap Examples.gameABC s - 1)%Z) /\
  forall (i : nat) (s' : Station.t),
    Game.stations (fst (spawnPassenger Examples.random0 0 Examples.gameABC)) !! i = Some s' ->
    exists s : Station.t,
      Game.stations Examples.gameABC !! i = Some s /\
      (s' = s \/
       exists p : Passenger.t,
         s' = Station.with_queue (Station.queue s ++ [p]) s /\
         (Z.of_nat (length (Station.queue s')) < dynamicCap Examples.gameABC s)%Z).
Proof.
  assert (H : exists (i : nat) (s : Station.t),
             Game.stations Examples.gameABC !! i = Some s /\
             (Z.of_nat (length (Station.queue s)) < dynamicCap Examples.gameABC s - 1)%Z).
  { exists 0%nat. eexists. split; [reflexivity |]. vm_compute. reflexivity. }
  split; [exact H |].
  exact (spawnPassenger_keeps_room Examples.random0 0 Examples.gameABC H).
Defined.

Lemma createLine_registers_witness :
  (2 <= length [0; 1]%nat)%nat /\
  (forall idx : nat, idx ∈ [0; 1]%nat -> (idx < length (Game.stations Examples.gameABC))%nat) /\
  exists line : Line.t,
    snd (createLine Examples.hypotQ Examples.gameABC [0; 1]%nat None) = Some line /\
    Line.id line = length (Game.lines Examples.gameABC) /\
    Line.stations line = [0; 1]%nat /\
    Game.lines (fst (createLine Examples.hypotQ Examples.gameABC [0; 1]%nat None))
    !! length (Game.lines Examples.gameABC) = Some line /\
    length (Game.lines (fst (createLine Examples.hypotQ Examples.gameABC [0; 1]%nat None)))
    = S (length (Game.lines Examples.gameABC)) /\
    forall (i : nat) (s : Station.t),
      Game.stations Examples.gameABC !! i = Some s ->
      exists s' : Station.t,
        Game.stations (fst (createLine Examples.hypotQ Examples.gameABC [0; 1]%nat None)) !! i
        = Some s' /\
        (forall c : nat, c ∈ Station.connections s -> c ∈ Station.connections s') /\
        (i ∈ [0; 1]%nat -> length (Game.lines Examples.gameABC) ∈ Station.connections s').
Proof.
  assert (Hlen : (2 <= length [0; 1]%nat)%nat) by (simpl; lia).
  assert (Hin : forall idx : nat, idx ∈ [0; 1]%nat ->
                 (idx < length (Game.stations Examples.gameABC))%nat).
  { intros idx H. simpl. elem_cases H; lia. }
  split; [exact Hlen |]. split; [exact Hin |].
  exact (createLine_registers Examples.hypotQ Examples.gameABC [0; 1]%nat None Hlen Hin).
Defined.

Lemma undo_after_createLine_witness :
  (2 <= length [0; 2]%nat)%nat /\
  (forall idx : nat, idx ∈ [0; 2]%nat -> (idx < length (Game.stations Examples.gameABC))%nat) /\
  snd (Undo.undo (fst (createLine Examples.hypotQ Examples.gameABC [0; 2]%nat None))) = true /\
  Game.lines (fst (Undo.undo (fst (createLine Examples.hypotQ Examples.gameABC [0; 2]%nat None))))
  = Game.lines Examples.gameABC /\
  Game.trains (fst (Undo.undo (fst (createLine Examples.hypotQ Examples.gameABC [0; 2]%nat None))))
  = Game.trains Examples.gameABC /\
  Game.linesAvailable
    (fst (Undo.undo (fst (createLine Examples.hypotQ Examples.gameABC [0; 2]%nat None))))
  = Game.linesAvailable Examples.gameABC /\
  Game.trainsAvailable
    (fst (Undo.undo (fst (createLine Examples.hypotQ Examples.gameABC [0; 2]%nat None))))
  = Game.trainsAvailable Examples.gameABC /\
  Game.tunnels
    (fst (Undo.undo (fst (createLine Examples.hypotQ Examples.gameABC [0; 2]%nat None))))
  = Game.tunnels Examples.gameABC /\
  Game.score
    (fst (Undo.undo (fst (createLine Examples.hypotQ Examples.gameABC [0; 2]%nat None))))
  = Game.score Examples.gameABC.
Proof.
  assert (Hlen : (2 <= length [0; 2]%nat)%nat) by (simpl; lia).
  assert (Hin : forall idx : nat, idx ∈ [0; 2]%nat ->
                 (idx < length (Game.stations Examples.gameABC))%nat).
  { intros idx H. simpl. elem_cases H; lia. }
  split; [exact Hlen |]. split; [exact Hin |].
  exact (undo_after_createLine Examples.hypotQ Examples.gameABC [0; 2]%nat None Hlen Hin).
Defined.

Lemma undo_rebuilds_connections_witness :
  last (Game.undoStack MoreExamples.gameWithSnapshot) = Some MoreExamples.snapshotAC /\
  length (Game.stations (fst (Undo.undo MoreExamples.gameWithSnapshot)))
  = length (Game.stations MoreExamples.gameWithSnapshot) /\
  forall (i : nat) (s' : Station.t),
    Game.stations (fst (Undo.undo MoreExamples.gameWithSnapshot)) !! i = Some s' ->
    forall c : nat,
      c ∈ Station.connections s' <->
      exists line : Line.t,
        line ∈ Snapshot.lines MoreExamples.snapshotAC /\
        Line.id line = c /\ i ∈ Line.stations line.
Proof.
  split; [reflexivity |].
  exact (undo_rebuilds_connections MoreExamples.gameWithSnapshot MoreExamples.snapshotAC
           eq_refl).
Defined.

Lemma findStationSegmentForWaypoint_range_witness :
  Router.RLine.waypoints RouterExamples.lineThree
  = Some [HexGrid.mkPoint 0 0; HexGrid.mkPoint 66 0; HexGrid.mkPoint 132 0] /\
  (2 <= length (Router.RLine.stations RouterExamples.lineThree))%nat /\
  (1 < length [HexGrid.mkPoint 0 0; HexGrid.mkPoint 66 0; HexGrid.mkPoint 132 0] - 1)%nat /\
  exists seg : Z,
    Picking.findStationSegmentForWaypoint RouterExamples.lineThree 1 = Some seg /\
    (0 <= seg <= Z.of_nat (length (Router.RLine.stations RouterExamples.lineThree)) - 2)%Z.
Proof.
  assert (Hs : (2 <= length (Router.RLine.stations RouterExamples.lineThree))%nat)
    by (simpl; lia).
  assert (Hw : (1 < length [HexGrid.mkPoint 0 0; HexGrid.mkPoint 66 0; HexGrid.mkPoint 132 0]
                    - 1)%nat) by (simpl; lia).
  split; [reflexivity |]. split; [exact Hs |]. split; [exact Hw |].
  exact (findStationSegmentForWaypoint_range RouterExamples.lineThree
           [HexGrid.mkPoint 0 0; HexGrid.mkPoint 66 0; HexGrid.mkPoint 132 0] 1
           eq_refl Hs Hw).
Defined.
